(** * Daylight Mirror native receiver: a shallow embedding of mirror_native.c

    The receiver reads a framed byte stream from one TCP socket, feeds the
    H.264 access units it carries into a MediaCodec decoder, and answers each
    processed frame with an acknowledgment.  This file embeds the worker
    thread of [mirror_native.c] ([decode_thread] and the functions it calls)
    as executable Rocq functions over an explicit state, and proves the
    properties of the framing, the sequence accounting, the receive buffer and
    the decoder life cycle.

    What lies outside the program is given to the functions as data:
    - the socket is the list of bytes the peer still sends ([sock_in]); an
      exact read fails when the peer closes before the requested length;
    - every answer of the platform (MediaCodec, realloc, JNI lookup, the clock)
      that one iteration of the receive loop can ask for is a field of [Env];
    - everything the program does to the outside (MediaCodec calls, bytes
      sent, host callbacks, log lines) is appended to [trace].

    Integers are [Z] with the C wrap-around written out: [u32] for
    [uint32_t], [to_int] for a conversion to [int].  The two [double]
    accumulators of the statistics ([recv_sum], [decode_sum]) only feed a log
    line and are left out; the test [elapsed >= 5.0] is the field
    [env_stats_due]. *)

From Stdlib Require Import String ZArith List Lia Bool.
From coqutil Require Import Byte Word.LittleEndianList.
Import ListNotations.
Local Open Scope string_scope.
Local Open Scope Z_scope.
Local Open Scope list_scope.

(** ** Machine integers *)

Module CInt.

(** A value stored in a [uint32_t]. *)
Definition u32 (z : Z) : Z := z mod 2 ^ 32.

(** A value converted to [int] (32 bits, two's complement). *)
Definition to_int (z : Z) : Z :=
  let r := z mod 2 ^ 32 in
  if r <? 2 ^ 31 then r else r - 2 ^ 32.

Definition INT_MAX : Z := 2 ^ 31 - 1.
Definition INT_MIN : Z := - 2 ^ 31.

(** [buf[i]] of a local byte array, as the promoted integer. *)
Definition at_ (buf : list byte) (i : nat) : Z :=
  byte.unsigned (nth i buf Byte.x00).

(** [(uint8_t)(z & 0xFF)] *)
Definition low_byte (z : Z) : byte := byte.of_Z (Z.land z 255).

End CInt.
Import CInt.

(** ** Constants of the wire protocol *)

Definition MAGIC_FRAME_0 : Z := 218.  (* 0xDA *)
Definition MAGIC_FRAME_1 : Z := 126.  (* 0x7E *)
Definition MAGIC_CMD_1 : Z := 127.    (* 0x7F *)
Definition MAGIC_ACK_1 : Z := 122.    (* 0x7A *)
Definition FLAG_KEYFRAME : Z := 1.
Definition CMD_BRIGHTNESS : Z := 1.
Definition CMD_RESOLUTION : Z := 4.
Definition AMEDIACODEC_BUFFER_FLAG_KEY_FRAME : Z := 2.
Definition DEFAULT_FRAME_W : Z := 1024.
Definition DEFAULT_FRAME_H : Z := 768.

(** ** The outside world *)

(** A decoder instance ([AMediaCodec *]) is named by a number. *)
Definition Codec := Z.

Inductive LogLevel := INFO | ERROR.

(** What the program does to the outside, in order. *)
Inductive Event : Type :=
| CodecCreate                                   (* AMediaCodec_createDecoderByType *)
| CodecConfigure (c : Codec) (width height : Z) (* AMediaCodec_configure *)
| CodecStart (c : Codec)                        (* AMediaCodec_start *)
| CodecStop (c : Codec)                         (* AMediaCodec_stop *)
| CodecDelete (c : Codec)                       (* AMediaCodec_delete *)
| DequeueInput (c : Codec) (timeout_us : Z)     (* AMediaCodec_dequeueInputBuffer *)
| QueueInput (c : Codec) (idx : Z) (data : list byte) (size : Z) (flags : Z)
                                                (* AMediaCodec_queueInputBuffer *)
| ReleaseOutput (c : Codec) (idx : Z) (render : bool)
                                                (* AMediaCodec_releaseOutputBuffer *)
| SetBuffersGeometry (width height : Z)         (* ANativeWindow_setBuffersGeometry *)
| Send (bytes : list byte)                      (* send on the socket *)
| CallHost (method : string) (arg : Z)          (* CallVoidMethod on the activity *)
| Log (lvl : LogLevel) (msg : string).

(** The platform's answer to one call of [build_decoder]. *)
Inductive BuildAnswer : Type :=
| CreateFails
| ConfigureFails (c : Codec)
| StartFails (c : Codec)
| Starts (c : Codec).

(** The platform's answers during one iteration of the receive loop. *)
Record Env : Type := mkEnv {
  env_build1 : BuildAnswer;        (* first build_decoder of a create_decoder *)
  env_build2 : BuildAnswer;        (* the retried build_decoder *)
  env_realloc_ok : bool;           (* realloc returns non-NULL *)
  env_input_idx : Z;               (* AMediaCodec_dequeueInputBuffer *)
  env_input_buf : option Z;        (* AMediaCodec_getInputBuffer: None is NULL,
                                      Some n a buffer of n bytes *)
  env_outputs : list (Z * Z);      (* successive AMediaCodec_dequeueOutputBuffer
                                      answers (index, info.size); once the list
                                      is used up nothing more is ready *)
  env_method_found : bool;         (* GetMethodID returns non-NULL *)
  env_stats_due : bool             (* elapsed >= 5.0 *)
}.

(** ** Program state *)

(** The globals of mirror_native.c the worker thread uses.  [g_activity]
    stands for the test [g_jvm && g_activity]; [g_nal_buf] is the part of the
    receive buffer that has been written (what lies behind it is
    uninitialised memory), [g_nal_buf_capacity] its allocated size. *)
Record Globals : Type := mkGlobals {
  g_window : bool;
  g_activity : bool;
  g_codec : option Codec;
  g_frame_w : Z;
  g_frame_h : Z;
  g_nal_buf : list byte;
  g_nal_buf_capacity : Z
}.

(** The per-connection locals of [decode_thread]. *)
Record Locals : Type := mkLocals {
  frame_count : Z;
  stat_frames : Z;
  dropped_frames : Z;
  last_seq : Z;
  has_last_seq : bool
}.

Record State : Type := mkState {
  globals : Globals;
  locals : Locals;
  sock_in : list byte;
  trace : list Event
}.

Definition set_globals (f : Globals -> Globals) (s : State) : State :=
  mkState (f (globals s)) (locals s) (sock_in s) (trace s).

Definition set_locals (f : Locals -> Locals) (s : State) : State :=
  mkState (globals s) (f (locals s)) (sock_in s) (trace s).

Definition set_sock_in (bs : list byte) (s : State) : State :=
  mkState (globals s) (locals s) bs (trace s).

Definition emit (e : Event) (s : State) : State :=
  mkState (globals s) (locals s) (sock_in s) (trace s ++ [e]).

Definition LOGI (msg : string) : State -> State := emit (Log INFO msg).
Definition LOGE (msg : string) : State -> State := emit (Log ERROR msg).

Definition with_codec (c : option Codec) (g : Globals) : Globals :=
  mkGlobals (g_window g) (g_activity g) c (g_frame_w g) (g_frame_h g)
            (g_nal_buf g) (g_nal_buf_capacity g).

Definition with_frame_size (w h : Z) (g : Globals) : Globals :=
  mkGlobals (g_window g) (g_activity g) (g_codec g) w h
            (g_nal_buf g) (g_nal_buf_capacity g).

Definition with_nal_buf (buf : list byte) (g : Globals) : Globals :=
  mkGlobals (g_window g) (g_activity g) (g_codec g) (g_frame_w g) (g_frame_h g)
            buf (g_nal_buf_capacity g).

Definition with_nal_buf_capacity (cap : Z) (g : Globals) : Globals :=
  mkGlobals (g_window g) (g_activity g) (g_codec g) (g_frame_w g) (g_frame_h g)
            (g_nal_buf g) cap.

(** ** read_exact *)

(** The first [n] bytes of the stream and what follows them, when the stream
    has that many. *)
Fixpoint take (n : nat) (l : list byte) : option (list byte * list byte) :=
  match n with
  | O => Some ([], l)
  | S n' =>
      match l with
      | [] => None
      | b :: l' =>
          match take n' l' with
          | Some (bs, rest) => Some (b :: bs, rest)
          | None => None
          end
      end
  end.

(** [read_exact(sock, buf, n)]: whether it returns the total ([true]) or -1
    ([false]), and the bytes [recv] has put into [buf].  The loop
    [while (total < n)] does not run for [n <= 0]: nothing is read and 0 is
    returned.  A stream that ends before [n] bytes is the peer closing the
    connection: what was left of it has been received, and -1 is returned. *)
Definition read_exact (n : Z) (s : State) : (bool * list byte) * State :=
  if n <=? 0 then ((true, []), s)
  else
    match take (Z.to_nat n) (sock_in s) with
    | Some (bs, rest) => ((true, bs), set_sock_in rest s)
    | None => ((false, sock_in s), set_sock_in [] s)
    end.

(** ** send_ack *)

Definition ack_bytes (seq : Z) : list byte :=
  [ byte.of_Z MAGIC_FRAME_0;
    byte.of_Z MAGIC_ACK_1;
    low_byte seq;
    low_byte (Z.shiftr seq 8);
    low_byte (Z.shiftr seq 16);
    low_byte (Z.shiftr seq 24) ].

Definition send_ack (seq : Z) (s : State) : State :=
  emit (Send (ack_bytes seq)) s.

(** ** notify_connection_state *)

Definition notify_connection_state (method_found : bool) (connected : bool)
    (s : State) : State :=
  if negb (g_activity (globals s)) then s
  else if method_found
       then emit (CallHost "onConnectionState" (if connected then 1 else 0)) s
       else s.

(** ** The decoder life cycle *)

(** [build_decoder]: the new instance, or [None] for NULL. *)
Definition build_decoder (a : BuildAnswer) (width height : Z) (s : State)
    : option Codec * State :=
  let s := emit CodecCreate s in
  match a with
  | CreateFails =>
      (None, LOGE "AMediaCodec_createDecoderByType failed" s)
  | ConfigureFails c =>
      let s := emit (CodecConfigure c width height) s in
      let s := LOGE "AMediaCodec_configure failed" s in
      (None, emit (CodecDelete c) s)
  | StartFails c =>
      let s := emit (CodecConfigure c width height) s in
      let s := emit (CodecStart c) s in
      let s := LOGE "AMediaCodec_start failed" s in
      (None, emit (CodecDelete c) s)
  | Starts c =>
      let s := emit (CodecConfigure c width height) s in
      (Some c, emit (CodecStart c) s)
  end.

(** [create_decoder]: 1 on success, 0 on failure.  [a1] answers the first
    [build_decoder], [a2] the retried one. *)
Definition create_decoder (a1 a2 : BuildAnswer) (width height : Z) (s : State)
    : Z * State :=
  let '(codec, s) := build_decoder a1 width height s in
  let '(codec, s) :=
    match codec with
    | Some c => (Some c, s)
    | None =>
        let old := g_codec (globals s) in
        let s := set_globals (with_codec None) s in
        match old with
        | Some o =>
            let s := LOGI "Retrying decoder configure after tearing down old instance" s in
            let s := emit (CodecStop o) s in
            let s := emit (CodecDelete o) s in
            build_decoder a2 width height s
        | None => (None, s)
        end
    end in
  match codec with
  | None => (0, s)
  | Some c =>
      let s :=
        match g_codec (globals s) with
        | Some g => emit (CodecDelete g) (emit (CodecStop g) s)
        | None => s
        end in
      let s := set_globals (with_codec (Some c)) s in
      let s := set_globals (with_frame_size width height) s in
      (1, LOGI "MediaCodec H.264 decoder started" s)
  end.

Definition destroy_decoder (s : State) : State :=
  match g_codec (globals s) with
  | Some g =>
      set_globals (with_codec None) (emit (CodecDelete g) (emit (CodecStop g) s))
  | None => s
  end.

(** ** feed_nal *)

(** The loop that drains the output buffers: it goes on while
    [AMediaCodec_dequeueOutputBuffer] answers an index [>= 0]. *)
Fixpoint drain_outputs (codec : Codec) (answers : list (Z * Z)) (s : State)
    : State :=
  match answers with
  | [] => s
  | (output_idx, size) :: more =>
      if output_idx >=? 0
      then drain_outputs codec more
             (emit (ReleaseOutput codec output_idx (size >? 0)) s)
      else s
  end.

(** [feed_nal(data, len, is_idr, seq, sock, out_decode_ms)]: the returned
    [int]; 0 is the fatal error.  [data] is the receive buffer, of which
    [len] bytes are copied into the input slot. *)
Definition feed_nal (e : Env) (data : list byte) (len : Z) (is_idr : bool)
    (seq : Z) (s : State) : Z * State :=
  match g_codec (globals s) with
  | None => (0, s)
  | Some codec =>
      let s := emit (DequeueInput codec 2000) s in
      let input_idx := env_input_idx e in
      if input_idx <? 0 then
        (1, send_ack seq s)
      else
        let fits :=
          match env_input_buf e with
          | None => false
          | Some buf_size => negb (len >? buf_size)
          end in
        if negb fits then
          let s := emit (QueueInput codec input_idx [] 0 0) s in
          let s := LOGE "Input buffer too small" s in
          (1, send_ack seq s)
        else
          let flags := if is_idr then AMEDIACODEC_BUFFER_FLAG_KEY_FRAME else 0 in
          let s := emit (QueueInput codec input_idx
                           (firstn (Z.to_nat len) data) len flags) s in
          let s := drain_outputs codec (env_outputs e) s in
          (1, send_ack seq s)
  end.

(** ** The receive loop *)

(** How one run of the loop body ends: the loop goes on with the next
    packet ([continue], or the end of the body), or it is left ([break]) and
    the connection is closed. *)
Inductive Ctl := Continue | Break.

(** The body of the inner [while] is written in a state monad with early
    exit: a computation either yields a value or leaves the body. *)
Definition Loop (A : Type) : Type := State -> (Ctl + A) * State.

Definition ret {A} (a : A) : Loop A := fun s => (inr a, s).

Definition bind {A B} (m : Loop A) (k : A -> Loop B) : Loop B :=
  fun s =>
    match m s with
    | (inr a, s') => k a s'
    | (inl c, s') => (inl c, s')
    end.

Definition exit_with {A} (c : Ctl) : Loop A := fun s => (inl c, s).

(** A state change. *)
Definition act (f : State -> State) : Loop unit := fun s => (inr tt, f s).

(** A call of a function that returns a value and changes the state. *)
Definition call {A} (f : State -> A * State) : Loop A :=
  fun s => let '(a, s') := f s in (inr a, s').

Definition get : Loop State := fun s => (inr s, s).

Declare Scope loop_scope.
Delimit Scope loop_scope with loop.
Notation "x <- m ;; k" := (bind m (fun x => k))
  (at level 61, m at next level, right associativity) : loop_scope.
Notation "m ;;; k" := (bind m (fun _ => k))
  (at level 61, right associativity) : loop_scope.
Local Open Scope loop_scope.

(** [if (read_exact(sock, buf, n) < 0) { LOGE(msg); break; }], the log line
    being optional. *)
Definition read_or_break (n : Z) (msg : option string) : Loop (list byte) :=
  fun s =>
    match read_exact n s with
    | ((true, bs), s') => (inr bs, s')
    | ((false, _), s') =>
        (inl Break, match msg with Some m => LOGE m s' | None => s' end)
    end.

(** Four bytes of a header, least significant first, as a [uint32_t]. *)
Definition le32 (buf : list byte) (i : nat) : Z :=
  Z.lor (at_ buf i)
    (Z.lor (Z.shiftl (at_ buf (i + 1)) 8)
       (Z.lor (Z.shiftl (at_ buf (i + 2)) 16)
              (Z.shiftl (at_ buf (i + 3)) 24))).

(** Two bytes of a command, least significant first. *)
Definition le16 (buf : list byte) (i : nat) : Z :=
  Z.lor (at_ buf i) (Z.shiftl (at_ buf (i + 1)) 8).

(** *** Sequence accounting (the SequenceTracker) *)

(** The update of [dropped_frames], [last_seq] and [has_last_seq] for the
    sequence number [seq] of a frame header. *)
Definition track_seq (seq : Z) (l : Locals) : Locals :=
  let dropped :=
    if has_last_seq l && negb (seq =? u32 (last_seq l + 1)) then
      let gap := to_int (u32 (seq - last_seq l - 1)) in
      if (gap >? 0) && (gap <? 1000)
      then to_int (dropped_frames l + gap)
      else dropped_frames l
    else dropped_frames l in
  mkLocals (frame_count l) (stat_frames l) dropped seq true.

(** *** The receive buffer *)

(** "Grow receive buffer if needed". *)
Definition grow_nal_buf (e : Env) (payload_len : Z) : Loop unit :=
  g <- get ;;
  if payload_len >? g_nal_buf_capacity (globals g) then
    if env_realloc_ok e then
      act (set_globals (with_nal_buf_capacity payload_len))
    else
      act (LOGE "Failed to grow NAL buffer") ;;; exit_with Break
  else ret tt.

(** The buffer after [bs] has been written at its start. *)
Definition write_buf (bs old : list byte) : list byte :=
  bs ++ skipn (length bs) old.

(** [if (read_exact(sock, g_nal_buf, (int)payload_len) < 0) { ...; break; }]:
    the bytes received land in the receive buffer also when the read fails. *)
Definition read_payload (payload_len : Z) : Loop unit :=
  fun s =>
    let '((ok, bs), s) := read_exact (to_int payload_len) s in
    let s := set_globals (fun g => with_nal_buf (write_buf bs (g_nal_buf g)) g) s in
    if ok then (inr tt, s)
    else (inl Break, LOGE "Failed to read payload" s).

(** *** Statistics *)

(** [frame_count++; stat_frames++;] and the five-second window. *)
Definition update_stats (e : Env) (s : State) : State :=
  let l := locals s in
  let fc := to_int (frame_count l + 1) in
  let sf := to_int (stat_frames l + 1) in
  if env_stats_due e && (sf >? 0) then
    let s := LOGI "FPS | recv | decode | KB | drops | total" s in
    set_locals (fun _ => mkLocals fc 0 0 (last_seq l) (has_last_seq l)) s
  else
    set_locals (fun _ => mkLocals fc sf (dropped_frames l) (last_seq l)
                           (has_last_seq l)) s.

(** *** Commands *)

Definition resolution_ok (new_w new_h : Z) : bool :=
  (new_w >? 0) && (new_h >? 0) && (new_w <=? 4096) && (new_h <=? 4096).

(** [cmd == CMD_RESOLUTION] *)
Definition resolution_command (e : Env) : Loop unit :=
  res_data <- read_or_break 4 None ;;
  let new_w := le16 res_data 0 in
  let new_h := le16 res_data 2 in
  (if resolution_ok new_w new_h then
     act (LOGI "Resolution change, recreating decoder") ;;;
     g <- get ;;
     (if g_window (globals g) then
        act (emit (SetBuffersGeometry new_w new_h)) ;;;
        _ <- call (create_decoder (env_build1 e) (env_build2 e) new_w new_h) ;;
        ret tt
      else ret tt) ;;;
     (if g_activity (globals g) && env_method_found e then
        act (emit (CallHost "setOrientation" (if new_h >? new_w then 1 else 0)))
      else ret tt)
   else ret tt) ;;;
  exit_with Continue.

(** Any other command: one value byte. *)
Definition value_command (e : Env) (cmd : Z) : Loop unit :=
  value <- read_or_break 1 None ;;
  g <- get ;;
  (if g_activity (globals g) then
     if cmd =? CMD_BRIGHTNESS then
       if env_method_found e
       then act (emit (CallHost "setBrightness" (at_ value 0)))
       else ret tt
     else if cmd =? 2 then
       if env_method_found e
       then act (emit (CallHost "setWarmth" (at_ value 0)))
       else ret tt
     else ret tt
   else ret tt) ;;;
  exit_with Continue.

(** *** Video frames *)

(** A parsed frame header. *)
Record FrameHeader : Type := mkFrameHeader {
  fh_flags : Z;
  fh_seq : Z;
  fh_payload_len : Z
}.

(** "Frame header: [flags:1] [seq:4 LE] [len:4 LE]" *)
Definition read_frame_header : Loop FrameHeader :=
  frame_hdr <- read_or_break 9 (Some "Connection lost reading frame header") ;;
  ret (mkFrameHeader (at_ frame_hdr 0) (le32 frame_hdr 1) (le32 frame_hdr 5)).

(** From the sequence accounting to the payload in the receive buffer. *)
Definition receive_payload (e : Env) (h : FrameHeader) : Loop unit :=
  act (set_locals (track_seq (fh_seq h))) ;;;
  grow_nal_buf e (fh_payload_len h) ;;;
  read_payload (fh_payload_len h).

(** From [feed_nal] to the end of the body. *)
Definition feed_frame (e : Env) (h : FrameHeader) : Loop unit :=
  g <- get ;;
  fed <- call (feed_nal e (g_nal_buf (globals g)) (fh_payload_len h)
                 (negb (Z.land (fh_flags h) FLAG_KEYFRAME =? 0)) (fh_seq h)) ;;
  if fed =? 0 then
    act (LOGE "feed_nal fatal error, reconnecting") ;;; exit_with Break
  else
    s <- get ;;
    (if frame_count (locals s) =? 0
     then act (notify_connection_state (env_method_found e) true)
     else ret tt) ;;;
    act (update_stats e).

(** The Demultiplexer step for a video frame: header and payload. *)
Definition read_video_frame (e : Env) : Loop FrameHeader :=
  h <- read_frame_header ;;
  receive_payload e h ;;;
  ret h.

(** The body of [while (g_running)] inside a connection. *)
Definition loop_body_m (e : Env) : Loop unit :=
  magic <- read_or_break 2 (Some "Connection lost") ;;
  if negb (at_ magic 0 =? MAGIC_FRAME_0) then
    act (LOGE "Bad magic") ;;; exit_with Break
  else if at_ magic 1 =? MAGIC_CMD_1 then
    cmd <- read_or_break 1 None ;;
    if at_ cmd 0 =? CMD_RESOLUTION
    then resolution_command e
    else value_command e (at_ cmd 0)
  else if negb (at_ magic 1 =? MAGIC_FRAME_1) then
    act (LOGE "Unknown packet type") ;;; exit_with Break
  else
    h <- read_video_frame e ;;
    feed_frame e h.

Definition loop_body (e : Env) (s : State) : Ctl * State :=
  match loop_body_m e s with
  | (inl c, s') => (c, s')
  | (inr _, s') => (Continue, s')
  end.

(** The inner [while (g_running)]: every element of [iters] is one test of
    [g_running] (the flag is set by the host thread) and the platform's
    answers for the iteration that follows it. *)
Fixpoint receive_loop (iters : list (bool * Env)) (s : State) : State :=
  match iters with
  | [] => s
  | (running, e) :: more =>
      if running then
        match loop_body e s with
        | (Continue, s') => receive_loop more s'
        | (Break, s') => s'
        end
      else s
  end.

(** One turn of the outer [while (g_running)]: what the network does. *)
Record Attempt : Type := mkAttempt {
  att_running : bool;               (* g_running at the loop test *)
  att_socket_ok : bool;             (* socket() >= 0 *)
  att_connect_ok : bool;            (* connect() >= 0 *)
  att_stream : list byte;           (* what the peer sends on this connection *)
  att_iters : list (bool * Env);    (* the inner loop *)
  att_method_found : bool           (* GetMethodID for onConnectionState *)
}.

Definition fresh_locals : Locals := mkLocals 0 0 0 0 false.

Definition connection (a : Attempt) (s : State) : State :=
  if negb (att_socket_ok a) then LOGE "socket() failed" s
  else
    let s := LOGI "Connecting" s in
    if negb (att_connect_ok a) then LOGE "connect() failed" s
    else
      let s := LOGI "Connected to server" s in
      let s := set_locals (fun _ => fresh_locals) (set_sock_in (att_stream a) s) in
      let s := receive_loop (att_iters a) s in
      let s := LOGI "Disconnected, reconnecting in 1s..." s in
      notify_connection_state (att_method_found a) false s.

(** The outer [while (g_running)]. *)
Fixpoint connect_loop (attempts : list Attempt) (s : State) : State :=
  match attempts with
  | [] => s
  | a :: more =>
      if att_running a then connect_loop more (connection a s) else s
  end.

Definition INITIAL_NAL_BUF_CAPACITY : Z := 2 * 1024 * 1024.

(** [decode_thread]: [e0] answers the first [create_decoder], [malloc_ok]
    says whether the receive buffer could be allocated. *)
Definition decode_thread (e0 : Env) (malloc_ok : bool) (attempts : list Attempt)
    (s : State) : State :=
  let s := LOGI "Decode thread started" s in
  let s :=
    if g_window (globals s)
       && match g_codec (globals s) with Some _ => false | None => true end
    then snd (create_decoder (env_build1 e0) (env_build2 e0)
                (g_frame_w (globals s)) (g_frame_h (globals s)) s)
    else s in
  let s := set_globals (with_nal_buf_capacity INITIAL_NAL_BUF_CAPACITY) s in
  let s := set_globals (with_nal_buf []) s in
  if negb malloc_ok then LOGE "Failed to allocate NAL buffer" s
  else
    let s := connect_loop attempts s in
    let s := set_globals (with_nal_buf []) s in
    let s := set_globals (with_nal_buf_capacity 0) s in
    LOGI "Decode thread exited" s.

(** ** The sender's side of the wire format

    The encoder is not part of this repository; it is written here from the
    table of the wire protocol, to state the framing round trip. *)

(** A [uint32_t], least significant byte first. *)
Definition encode_le32 (z : Z) : list byte := le_split 4 z.

(** Video frame: [0xDA 0x7E] flags(1) seq(4) len(4) payload(len). *)
Definition encode_video_frame (flags : byte) (seq : Z) (payload : list byte)
    : list byte :=
  [byte.of_Z 218; byte.of_Z 126; flags]
    ++ encode_le32 seq
    ++ encode_le32 (Z.of_nat (length payload))
    ++ payload.

(** Resolution command: [0xDA 0x7F 0x04] width(2) height(2). *)
Definition encode_resolution (width height : Z) : list byte :=
  [byte.of_Z 218; byte.of_Z 127; byte.of_Z 4]
    ++ le_split 2 width ++ le_split 2 height.

(** The sequence number an acknowledgment carries. *)
Definition decode_ack (bs : list byte) : option Z :=
  match bs with
  | [m0; m1; b0; b1; b2; b3] =>
      if (byte.unsigned m0 =? 218) && (byte.unsigned m1 =? 122)
      then Some (le_combine [b0; b1; b2; b3])
      else None
  | _ => None
  end.

(** ** Initial states used in the examples *)

Definition globals0 : Globals :=
  mkGlobals true true (Some 1) DEFAULT_FRAME_W DEFAULT_FRAME_H []
            INITIAL_NAL_BUF_CAPACITY.

Definition state0 (stream : list byte) : State :=
  mkState globals0 fresh_locals stream [].

Definition env0 : Env :=
  mkEnv (Starts 2) (Starts 3) true 0 (Some 1048576) [] true false.

(** The sequence accounting over the sequence numbers of successive frames
    of one connection. *)
Definition track_seqs (seqs : list Z) (l : Locals) : Locals :=
  fold_left (fun l seq => track_seq seq l) seqs l.

(** ** Observations on states and traces *)

(** The value fits an [int]. *)
Definition in_int (z : Z) : Prop := INT_MIN <= z <= INT_MAX.

(** The byte strings sent on the socket, in order. *)
Fixpoint sent (evs : list Event) : list (list byte) :=
  match evs with
  | [] => []
  | Send bs :: more => bs :: sent more
  | _ :: more => sent more
  end.

(** How many times a decoder was built ([build_decoder] starts with
    [AMediaCodec_createDecoderByType]). *)
Fixpoint builds (evs : list Event) : nat :=
  match evs with
  | [] => O
  | CodecCreate :: more => S (builds more)
  | _ :: more => builds more
  end.

(** The error lines logged. *)
Fixpoint errors (evs : list Event) : list string :=
  match evs with
  | [] => []
  | Log ERROR msg :: more => msg :: errors more
  | _ :: more => errors more
  end.

Definition capacity (s : State) : Z := g_nal_buf_capacity (globals s).

(** Everything written to the receive buffer lies inside its allocation. *)
Definition buf_in_bounds (s : State) : Prop :=
  Z.of_nat (length (g_nal_buf (globals s))) <= capacity s.

(** [build_decoder] returns NULL on this answer of the platform. *)
Definition build_fails (a : BuildAnswer) : bool :=
  match a with
  | Starts _ => false
  | _ => true
  end.

(** A video frame on the wire, followed by [rest]. *)
Definition frame_then (flags : byte) (seq : Z) (payload rest : list byte)
    : list byte :=
  encode_video_frame flags seq payload ++ rest.

(** A payload of [2^31] bytes, the smallest whose length does not fit an
    [int]. *)
Definition big_payload : list byte := repeat Byte.x00 (Z.to_nat 2147483648).

(** A state change that leaves the receive buffer and its capacity alone. *)
Definition keeps_buffer (f : State -> State) : Prop :=
  forall s,
    g_nal_buf (globals (f s)) = g_nal_buf (globals s)
    /\ capacity (f s) = capacity s.

(** A computation of the loop body that maintains the invariant [I],
    however it ends. *)
Definition preserves {A} (I : State -> Prop) (m : Loop A) : Prop :=
  forall s, I s -> I (snd (m s)).

(** ** The entry points called by the host

    [nativeStart] and [nativeStop] run on the host's thread.  [g_running] is
    the flag they share with the worker; it is given to [nativeStart] as the
    value it reads.  [nativeStop] clears the flag, shuts the socket down and
    joins the worker: what it does after [pthread_join] is applied to the
    state the worker has left.  The release of the window and of the global
    reference only clear the two pointers here. *)

Definition with_window (w : bool) (g : Globals) : Globals :=
  mkGlobals w (g_activity g) (g_codec g) (g_frame_w g) (g_frame_h g)
            (g_nal_buf g) (g_nal_buf_capacity g).

Definition with_activity (a : bool) (g : Globals) : Globals :=
  mkGlobals (g_window g) a (g_codec g) (g_frame_w g) (g_frame_h g)
            (g_nal_buf g) (g_nal_buf_capacity g).

(** [nativeStart]: whether the worker thread is created, and the state it
    starts in.  [window] says whether [ANativeWindow_fromSurface] returned a
    window. *)
Definition nativeStart (g_running : bool) (window : bool) (e : Env) (s : State)
    : bool * State :=
  if g_running then (false, s)
  else
    let s := set_globals (with_activity true) s in
    let s := set_globals (with_window window) s in
    (true, snd (create_decoder (env_build1 e) (env_build2 e)
                  (g_frame_w (globals s)) (g_frame_h (globals s)) s)).

(** [nativeStop], from [pthread_join] on. *)
Definition nativeStop (s : State) : State :=
  let s := destroy_decoder s in
  let s := set_globals (with_window false) s in
  set_globals (with_activity false) s.

(** A start, the worker thread and the stop that ends it. *)
Definition session (g_running window : bool) (e_start e0 : Env)
    (malloc_ok : bool) (attempts : list Attempt) (s : State) : State :=
  let '(started, s1) := nativeStart g_running window e_start s in
  if started then nativeStop (decode_thread e0 malloc_ok attempts s1) else s.

(** ** More observations on traces *)

Fixpoint remove_codec (c : Codec) (l : list Codec) : list Codec :=
  match l with
  | [] => []
  | c' :: l' => if c' =? c then l' else c' :: remove_codec c l'
  end.

(** The decoder instances that exist after the events [evs] when those of
    [init] existed before: an instance exists from the call that configures
    it (the first one after its creation) to [AMediaCodec_delete]. *)
Fixpoint live_after (init : list Codec) (evs : list Event) : list Codec :=
  match evs with
  | [] => init
  | CodecConfigure c _ _ :: more => live_after (c :: init) more
  | CodecDelete c :: more => live_after (remove_codec c init) more
  | _ :: more => live_after init more
  end.

(** The instance [g_codec] points to. *)
Definition installed (s : State) : list Codec :=
  match g_codec (globals s) with
  | Some c => [c]
  | None => []
  end.

(** The decoder instances that exist are the installed one, if any. *)
Definition no_leak (s : State) : Prop :=
  live_after [] (trace s) = installed s.

(** The events that create or delete a decoder instance. *)
Fixpoint lifecycle (evs : list Event) : list Event :=
  match evs with
  | [] => []
  | CodecConfigure c w h :: more => CodecConfigure c w h :: lifecycle more
  | CodecDelete c :: more => CodecDelete c :: lifecycle more
  | _ :: more => lifecycle more
  end.

(** A step that leaves [g_codec] alone and neither creates nor deletes a
    decoder instance. *)
Definition quiet_step (s s' : State) : Prop :=
  g_codec (globals s') = g_codec (globals s)
  /\ exists evs, trace s' = trace s ++ evs /\ lifecycle evs = [].

(** What was queued to the decoder: data, size and flags of each
    [AMediaCodec_queueInputBuffer]. *)
Fixpoint queued (evs : list Event) : list (list byte * Z * Z) :=
  match evs with
  | [] => []
  | QueueInput _ _ data size flags :: more => (data, size, flags) :: queued more
  | _ :: more => queued more
  end.

(** The calls made on the host activity. *)
Fixpoint host_calls (evs : list Event) : list (string * Z) :=
  match evs with
  | [] => []
  | CallHost method arg :: more => (method, arg) :: host_calls more
  | _ :: more => host_calls more
  end.

(** ** Hoare triples for the loop body

    [triple P m Q C]: from a state in [P], [m] either yields a value [a] in a
    state in [Q a], or leaves the body with [continue] in a state in [C];
    nothing is said of [break]. *)
Definition triple {A} (P : State -> Prop) (m : Loop A)
    (Q : A -> State -> Prop) (C : State -> Prop) : Prop :=
  forall s, P s ->
    match m s with
    | (inr a, s') => Q a s'
    | (inl Continue, s') => C s'
    | (inl Break, _) => True
    end.

(** At least [k] bytes of the stream of [s0] have been consumed in [s]. *)
Definition eaten (s0 : State) (k : nat) (s : State) : Prop :=
  exists pre, sock_in s0 = pre ++ sock_in s /\ (k <= length pre)%nat.

(** ** Streams of frames *)

(** A video frame as the sender has it: flags, sequence number, payload. *)
Definition Frame : Type := byte * Z * list byte.

Definition frame_seq (f : Frame) : Z := snd (fst f).
Definition frame_payload (f : Frame) : list byte := snd f.

(** The frames on the wire, one behind the other. *)
Fixpoint frames_stream (fs : list Frame) : list byte :=
  match fs with
  | [] => []
  | (flags, seq, payload) :: more =>
      frame_then flags seq payload (frames_stream more)
  end.

(** A frame the receiver can take: a [uint32_t] sequence number and a
    payload of fewer than [2^31] bytes. *)
Definition frame_ok (f : Frame) : Prop :=
  0 <= frame_seq f < 2 ^ 32 /\ Z.of_nat (length (frame_payload f)) < 2 ^ 31.

(** Simple command: [0xDA 0x7F] cmdId(1) value(1). *)
Definition encode_command (cmd value : byte) : list byte :=
  [byte.of_Z 218; byte.of_Z 127; cmd; value].

(** ** mirror_xor.c

    Memory is a map from addresses to bytes; the function works on the three
    regions its pointer arguments name, which may overlap. *)

Definition Mem : Type := Z -> byte.

Definition store (m : Mem) (p : Z) (v : byte) : Mem :=
  fun q => if q =? p then v else m q.

(** The iterations [i, i + count) of the loop of [mirror_xor]. *)
Fixpoint mirror_xor_from (i : Z) (count : nat) (dst a b : Z) (m : Mem) : Mem :=
  match count with
  | O => m
  | S k =>
      mirror_xor_from (i + 1) k dst a b
        (store m (dst + i) (byte.xor (m (a + i)) (m (b + i))))
  end.

(** [mirror_xor(dst, a, b, n)] *)
Definition mirror_xor (dst a b : Z) (n : Z) (m : Mem) : Mem :=
  mirror_xor_from 0 (Z.to_nat n) dst a b m.

(** The bytes of a region. *)
Definition region (m : Mem) (p : Z) (n : nat) : list byte :=
  map (fun i => m (p + Z.of_nat i)) (seq 0 n).

(** A state in which decoder 1 has been built and installed, with [stream]
    to come on the socket. *)
Definition started_state (stream : list byte) : State :=
  mkState globals0 fresh_locals stream
          [CodecCreate; CodecConfigure 1 DEFAULT_FRAME_W DEFAULT_FRAME_H;
           CodecStart 1].

(** The state before the first [nativeStart]. *)
Definition initial_state : State :=
  mkState (mkGlobals false false None DEFAULT_FRAME_W DEFAULT_FRAME_H [] 0)
          fresh_locals [] [].

(** What [feed_nal] queues for a frame of [len] bytes at [data]: nothing
    when no input slot is free, an empty buffer when the slot is NULL or too
    small, the frame otherwise. *)
Definition feed_queue (e : Env) (data : list byte) (len : Z) (is_idr : bool)
    : list (list byte * Z * Z) :=
  if env_input_idx e <? 0 then []
  else
    match env_input_buf e with
    | Some buf_size =>
        if len >? buf_size then [([], 0, 0)]
        else [(firstn (Z.to_nat len) data, len,
               if is_idr then AMEDIACODEC_BUFFER_FLAG_KEY_FRAME else 0)]
    | None => [([], 0, 0)]
    end.

(** The host calls of the loop body for a video frame: the connected
    notification goes with the first frame of a connection. *)
Definition connected_calls (e : Env) (s : State) : list (string * Z) :=
  if (frame_count (locals s) =? 0)
     && (g_activity (globals s) && env_method_found e)
  then [("onConnectionState", 1)]
  else [].

(** The iterations of the receive loop for the answers [envs], with
    [g_running] set at each test. *)
Definition running (envs : list Env) : list (bool * Env) :=
  map (fun e => (true, e)) envs.

(** No byte written is read in a later iteration: [dst] does not lie
    strictly inside the region of [n] bytes that starts at [a] or at [b].
    This holds when [dst] is disjoint from both sources and when it is one
    of them. *)
Definition forward_safe (dst a b n : Z) : Prop :=
  ~ (0 < dst - a < n) /\ ~ (0 < dst - b < n).

(** The events of one call of [build_decoder], by the platform's answer. *)
Definition build_events (a : BuildAnswer) (width height : Z) : list Event :=
  match a with
  | CreateFails =>
      [CodecCreate; Log ERROR "AMediaCodec_createDecoderByType failed"]
  | ConfigureFails c =>
      [CodecCreate; CodecConfigure c width height;
       Log ERROR "AMediaCodec_configure failed"; CodecDelete c]
  | StartFails c =>
      [CodecCreate; CodecConfigure c width height; CodecStart c;
       Log ERROR "AMediaCodec_start failed"; CodecDelete c]
  | Starts c =>
      [CodecCreate; CodecConfigure c width height; CodecStart c]
  end.

(** ** The loop of read_exact over recv

    [read_exact] above is what the rest of the receiver sees of an exact
    read.  Here is the loop that computes it, with [recv] returning what has
    arrived so far.  The socket is the list of what successive calls of
    [recv] meet: a run of bytes that has arrived (at least one byte), a signal
    that interrupts the call ([EINTR]), or an error; when the list is used up
    the peer has closed the connection and [recv] returns 0. *)
Inductive Arrival : Type :=
| Arrived (b : byte) (bs : list byte)
| Signal
| Failure.

(** [recv(sock, buf + total, len, MSG_WAITALL)]: the returned [int], whether
    [errno] is [EINTR], the bytes put into the buffer, and what is left on
    the socket.  At most [len] bytes of a run are taken; the rest of the run
    stays for the next call. *)
Definition recv (arrivals : list Arrival) (len : Z)
    : Z * bool * list byte * list Arrival :=
  match arrivals with
  | [] => (0, false, [], [])
  | Signal :: more => (-1, true, [], more)
  | Failure :: more => (-1, false, [], more)
  | Arrived b bs :: more =>
      let run := b :: bs in
      if Z.of_nat (length run) <=? len then
        (Z.of_nat (length run), false, run, more)
      else
        (len, false, firstn (Z.to_nat len) run,
         match skipn (Z.to_nat len) run with
         | b' :: bs' => Arrived b' bs' :: more
         | [] => more
         end)
  end.

(** The loop [while (total < n)] of [read_exact]: the returned [int] (the
    total, or -1), the bytes written to [buf], and what is left on the
    socket.  [fuel] bounds the number of iterations. *)
Fixpoint read_exact_loop (fuel : nat) (arrivals : list Arrival)
    (buf : list byte) (total n : Z)
    : option (Z * list byte * list Arrival) :=
  match fuel with
  | O => None
  | S fuel' =>
      if total <? n then
        let '(r, eintr, bytes, arrivals') := recv arrivals (n - total) in
        if (r <? 0) && eintr then
          read_exact_loop fuel' arrivals' buf total n
        else if r <=? 0 then Some (-1, buf, arrivals')
        else read_exact_loop fuel' arrivals' (buf ++ bytes) (total + r) n
      else Some (total, buf, arrivals)
  end.

(** The bytes the socket delivers before the connection ends: the runs up to
    the first error, or up to the peer's close. *)
Fixpoint stream_of (arrivals : list Arrival) : list byte :=
  match arrivals with
  | [] => []
  | Arrived b bs :: more => (b :: bs) ++ stream_of more
  | Signal :: more => stream_of more
  | Failure :: _ => []
  end.

(** The state in which [create_decoder] retries the build: the first build
    has failed, [g_codec] is cleared, and the instance [old] it pointed to
    has been stopped and deleted. *)
Definition after_release (a1 : BuildAnswer) (width height : Z) (s : State)
    (old : Codec) : State :=
  emit (CodecDelete old)
    (emit (CodecStop old)
       (LOGI "Retrying decoder configure after tearing down old instance"
          (set_globals (with_codec None)
             (snd (build_decoder a1 width height s))))).

(** * Properties *)

(** ** Machine integers and bytes *)

Section Integers.

Lemma u32_range z : 0 <= u32 z < 2 ^ 32.
Proof. unfold u32. apply Z.mod_pos_bound. reflexivity. Qed.

Lemma u32_small z : 0 <= z < 2 ^ 32 -> u32 z = z.
Proof. intros H. unfold u32. apply Z.mod_small. exact H. Qed.

Lemma to_int_small z : 0 <= z < 2 ^ 31 -> to_int z = z.
Proof.
  intros H. unfold to_int.
  change (2 ^ 31) with 2147483648 in *.
  rewrite Z.mod_small by (change (2 ^ 32) with 4294967296; lia).
  destruct (Z.ltb_spec z 2147483648); lia.
Qed.

Lemma to_int_in_range z : INT_MIN <= z <= INT_MAX -> to_int z = z.
Proof.
  unfold INT_MIN, INT_MAX, to_int. intros H.
  change (2 ^ 31) with 2147483648 in *.
  change (2 ^ 32) with 4294967296 in *.
  destruct (Z.ltb_spec (z mod 4294967296) 2147483648) as [Hlt | Hge].
  - destruct (Z.le_gt_cases 0 z) as [Hz | Hz].
    + apply Z.mod_small. lia.
    + exfalso.
      assert (E : z mod 4294967296 = z + 4294967296).
      { symmetry. apply Z.mod_unique with (q := -1); lia. }
      lia.
  - destruct (Z.le_gt_cases 0 z) as [Hz | Hz].
    + rewrite Z.mod_small in Hge by lia. lia.
    + assert (E : z mod 4294967296 = z + 4294967296).
      { symmetry. apply Z.mod_unique with (q := -1); lia. }
      lia.
Qed.

(** A [uint32_t] of at least [2^31] is negative as an [int]. *)
Lemma to_int_high z : 2 ^ 31 <= z < 2 ^ 32 -> to_int z = z - 2 ^ 32.
Proof.
  intros H. unfold to_int.
  change (2 ^ 31) with 2147483648 in *.
  change (2 ^ 32) with 4294967296 in *.
  rewrite Z.mod_small by lia.
  destruct (Z.ltb_spec z 2147483648); lia.
Qed.

(** The conversion to [int] never yields more than the [uint32_t] had. *)
Lemma to_int_le z : 0 <= z -> to_int z <= z.
Proof.
  intros H. unfold to_int.
  change (2 ^ 31) with 2147483648 in *.
  change (2 ^ 32) with 4294967296 in *.
  pose proof (Z.mod_le z 4294967296 H eq_refl).
  destruct (Z.ltb_spec (z mod 4294967296) 2147483648); lia.
Qed.

Lemma u32_succ_gap last seq :
  seq = u32 (last + 1) -> u32 (seq - last - 1) = 0.
Proof.
  intros ->. unfold u32.
  replace ((last + 1) mod 2 ^ 32 - last - 1)
    with ((last + 1) mod 2 ^ 32 - (last + 1)) by lia.
  rewrite Zminus_mod_idemp_l, Z.sub_diag. reflexivity.
Qed.

Lemma byte_unsigned_range b : 0 <= byte.unsigned b < 256.
Proof. apply byte.unsigned_range. Qed.

Lemma low_byte_of_Z z : low_byte z = byte.of_Z z.
Proof.
  unfold low_byte. apply byte.unsigned_inj.
  rewrite !byte.unsigned_of_Z. unfold byte.wrap.
  change 255 with (Z.ones 8). rewrite Z.land_ones by lia.
  apply Z.mod_mod. discriminate.
Qed.

Lemma le_combine_cons h t :
  le_combine (h :: t) = Z.lor (byte.unsigned h) (Z.shiftl (le_combine t) 8).
Proof. reflexivity. Qed.

Lemma le_split_S n w :
  le_split (S n) w = byte.of_Z w :: le_split n (Z.shiftr w 8).
Proof. reflexivity. Qed.

(** The expression the source assembles a [uint32_t] with is the
    little-endian value of the four bytes. *)
Lemma lor4_le_combine b0 b1 b2 b3 :
  Z.lor (byte.unsigned b0)
    (Z.lor (Z.shiftl (byte.unsigned b1) 8)
       (Z.lor (Z.shiftl (byte.unsigned b2) 16)
              (Z.shiftl (byte.unsigned b3) 24)))
  = le_combine [b0; b1; b2; b3].
Proof.
  rewrite !le_combine_cons, le_combine_nil.
  rewrite Z.shiftl_0_l, Z.lor_0_r.
  rewrite !Z.shiftl_lor, !Z.shiftl_shiftl by lia.
  reflexivity.
Qed.

Lemma lor2_le_combine b0 b1 :
  Z.lor (byte.unsigned b0) (Z.shiftl (byte.unsigned b1) 8)
  = le_combine [b0; b1].
Proof.
  rewrite !le_combine_cons, le_combine_nil.
  rewrite Z.shiftl_0_l, Z.lor_0_r. reflexivity.
Qed.

Lemma le_split_4 z :
  le_split 4 z =
  [byte.of_Z z; byte.of_Z (Z.shiftr z 8); byte.of_Z (Z.shiftr z 16);
   byte.of_Z (Z.shiftr z 24)].
Proof.
  rewrite !le_split_S. rewrite !Z.shiftr_shiftr by lia. reflexivity.
Qed.

Lemma le_split_2 z :
  le_split 2 z = [byte.of_Z z; byte.of_Z (Z.shiftr z 8)].
Proof. rewrite !le_split_S. reflexivity. Qed.

Lemma ack_bytes_le_split seq :
  ack_bytes seq = [byte.of_Z 218; byte.of_Z 122] ++ le_split 4 seq.
Proof.
  unfold ack_bytes. rewrite le_split_4, !low_byte_of_Z. reflexivity.
Qed.

(** An acknowledgment carries the sequence number it was built from. *)
Lemma decode_ack_bytes seq : decode_ack (ack_bytes seq) = Some (u32 seq).
Proof.
  rewrite ack_bytes_le_split, le_split_4.
  cbn [app decode_ack].
  change (byte.unsigned (byte.of_Z 218) =? 218) with true.
  change (byte.unsigned (byte.of_Z 122) =? 122) with true.
  cbn [andb]. f_equal.
  rewrite <- le_split_4. apply le_combine_split.
Qed.

Lemma le_nonneg bs : 0 <= le_combine bs.
Proof. apply le_combine_bound. Qed.

End Integers.

(** ** Sequence accounting *)

Section SequenceTracker.

Variable l : Locals.
Variable seq : Z.

(** The contiguous gap between the last sequence number and [seq], as the
    [uint32_t] expression [seq - last_seq - 1]. *)
Let g : Z := u32 (seq - last_seq l - 1).

Lemma track_seq_last : last_seq (track_seq seq l) = seq.
Proof. reflexivity. Qed.

Lemma track_seq_has_last : has_last_seq (track_seq seq l) = true.
Proof. reflexivity. Qed.

Lemma track_seq_first :
  has_last_seq l = false ->
  dropped_frames (track_seq seq l) = dropped_frames l.
Proof. intros H. unfold track_seq. rewrite H. reflexivity. Qed.

Lemma track_seq_successor :
  seq = u32 (last_seq l + 1) ->
  dropped_frames (track_seq seq l) = dropped_frames l.
Proof.
  intros H. unfold track_seq.
  rewrite <- H, Z.eqb_refl, andb_false_r. reflexivity.
Qed.

Lemma track_seq_loss :
  has_last_seq l = true -> 0 < g < 1000 ->
  dropped_frames (track_seq seq l) = to_int (dropped_frames l + g).
Proof.
  intros Hl Hg. unfold track_seq. rewrite Hl.
  destruct (Z.eqb_spec seq (u32 (last_seq l + 1))) as [E | _].
  - apply u32_succ_gap in E. fold g in E. lia.
  - cbn [negb andb]. fold g.
    rewrite (to_int_small g) by (change (2 ^ 31) with 2147483648; lia).
    destruct (Z.gtb_spec g 0); [| lia].
    destruct (Z.ltb_spec g 1000); [| lia].
    reflexivity.
Qed.

Lemma track_seq_reset :
  1000 <= g ->
  dropped_frames (track_seq seq l) = dropped_frames l.
Proof.
  intros Hg. unfold track_seq.
  destruct (has_last_seq l && negb (seq =? u32 (last_seq l + 1)));
    [| reflexivity].
  fold g.
  pose proof (u32_range (seq - last_seq l - 1)) as Hr. fold g in Hr.
  change (2 ^ 32) with 4294967296 in Hr.
  destruct (Z.lt_ge_cases g (2 ^ 31)) as [Hlo | Hhi].
  - rewrite (to_int_small g) by lia.
    destruct (Z.ltb_spec g 1000); [lia |].
    rewrite andb_false_r. reflexivity.
  - rewrite (to_int_high g)
      by (change (2 ^ 32) with 4294967296; lia).
    change (2 ^ 32) with 4294967296.
    destruct (Z.gtb_spec (g - 4294967296) 0); [lia |].
    reflexivity.
Qed.

End SequenceTracker.

(** C5: when the contiguous gap [g] between two consecutive sequence numbers
    satisfies [0 < g < 1000], the code adds exactly [g] to the dropped-frame
    counter: the counter, an [int], becomes [dropped_frames + g], which is
    that sum whenever the sum fits an [int]; and the sequence numbers
    5, 6, 8, 9 of a fresh connection raise it by exactly 1. *)
Theorem gap_below_1000_is_counted :
  (forall (l : Locals) (seq g : Z),
      has_last_seq l = true ->
      g = u32 (seq - last_seq l - 1) ->
      0 < g < 1000 ->
      dropped_frames (track_seq seq l) = to_int (dropped_frames l + g)
      /\ (in_int (dropped_frames l + g) ->
          dropped_frames (track_seq seq l) = dropped_frames l + g))
  /\ dropped_frames (track_seqs [5; 6; 8; 9] fresh_locals)
     = dropped_frames fresh_locals + 1.
Proof.
  split.
  - intros l seq g Hl -> Hg.
    rewrite track_seq_loss by assumption.
    split; [reflexivity |].
    intros Hfit. apply to_int_in_range. exact Hfit.
  - reflexivity.
Qed.

Lemma gap_below_1000_is_counted_witness :
  let l := mkLocals 3 3 10 6 true in
  has_last_seq l = true
  /\ 0 < u32 (8 - last_seq l - 1) < 1000
  /\ in_int (dropped_frames l + u32 (8 - last_seq l - 1))
  /\ dropped_frames (track_seq 8 l) = 11.
Proof.
  assert (H1 : has_last_seq (mkLocals 3 3 10 6 true) = true) by reflexivity.
  assert (H2 : 0 < u32 (8 - last_seq (mkLocals 3 3 10 6 true) - 1) < 1000)
    by (vm_compute; split; reflexivity).
  assert (H3 : in_int (dropped_frames (mkLocals 3 3 10 6 true)
                       + u32 (8 - last_seq (mkLocals 3 3 10 6 true) - 1)))
    by (vm_compute; split; discriminate).
  split; [exact H1 |]. split; [exact H2 |]. split; [exact H3 |].
  exact (proj2 (proj1 gap_below_1000_is_counted _ 8 _ H1 eq_refl H2) H3).
Defined.

(** C2, as the code has it: when the contiguous gap between two consecutive
    sequence numbers is at least 1000 the dropped-frame counter is left as it
    was; the sequence numbers 5, 900, 901 have a gap of 894, which is below
    1000, and raise the counter of a fresh connection by 894. *)
Theorem gap_from_1000_is_a_reset :
  (forall (l : Locals) (seq : Z),
      1000 <= u32 (seq - last_seq l - 1) ->
      dropped_frames (track_seq seq l) = dropped_frames l)
  /\ dropped_frames (track_seqs [5; 900; 901] fresh_locals)
     = dropped_frames fresh_locals + 894.
Proof.
  split.
  - intros l seq Hg. apply track_seq_reset. exact Hg.
  - reflexivity.
Qed.

Lemma gap_from_1000_is_a_reset_witness :
  let l := mkLocals 1 1 7 5 true in
  1000 <= u32 (1900 - last_seq l - 1)
  /\ dropped_frames (track_seq 1900 l) = 7.
Proof.
  assert (H : 1000 <= u32 (1900 - last_seq (mkLocals 1 1 7 5 true) - 1))
    by (vm_compute; discriminate).
  split; [exact H |].
  exact (proj1 gap_from_1000_is_a_reset _ 1900 H).
Defined.

(** C2 as stated fails: the sequence numbers 5, 900, 901 do change the
    dropped-frame counter. *)
Lemma seqs_5_900_901_change_the_counter :
  dropped_frames (track_seqs [5; 900; 901] fresh_locals)
  <> dropped_frames fresh_locals.
Proof. vm_compute. discriminate. Qed.

(** C10: the gap is computed modulo [2^32]: when the new sequence number is
    the previous one plus one modulo [2^32], nothing is added to the
    dropped-frame counter; this covers the step from 0xFFFFFFFF to 0. *)
Theorem successor_mod_2_32_adds_no_drop :
  (forall (l : Locals) (seq : Z),
      seq = u32 (last_seq l + 1) ->
      dropped_frames (track_seq seq l) = dropped_frames l)
  /\ (forall l : Locals,
      last_seq l = 4294967295 ->
      dropped_frames (track_seq 0 l) = dropped_frames l).
Proof.
  split.
  - intros l seq H. apply track_seq_successor. exact H.
  - intros l H. apply track_seq_successor. rewrite H. reflexivity.
Qed.

Lemma successor_mod_2_32_adds_no_drop_witness :
  let l := mkLocals 9 9 4 4294967295 true in
  0 = u32 (last_seq l + 1)
  /\ last_seq l = 4294967295
  /\ dropped_frames (track_seq 0 l) = 4
  /\ dropped_frames (track_seq (u32 (last_seq l + 1)) l) = 4.
Proof.
  assert (H1 : 0 = u32 (last_seq (mkLocals 9 9 4 4294967295 true) + 1))
    by reflexivity.
  assert (H2 : last_seq (mkLocals 9 9 4 4294967295 true) = 4294967295)
    by reflexivity.
  split; [exact H1 |]. split; [exact H2 |]. split.
  - exact (proj2 successor_mod_2_32_adds_no_drop _ H2).
  - exact (proj1 successor_mod_2_32_adds_no_drop _ _ eq_refl).
Defined.

(** ** Traces *)

Section Traces.

Lemma sent_app a b : sent (a ++ b) = sent a ++ sent b.
Proof.
  induction a as [| ev a IH]; [reflexivity |].
  destruct ev; cbn [app sent]; rewrite IH; reflexivity.
Qed.

Lemma builds_app a b : builds (a ++ b) = (builds a + builds b)%nat.
Proof.
  induction a as [| ev a IH]; [reflexivity |].
  destruct ev; cbn [app builds]; rewrite IH; reflexivity.
Qed.

Lemma errors_app a b : errors (a ++ b) = errors a ++ errors b.
Proof.
  induction a as [| ev a IH]; [reflexivity |].
  destruct ev as [ | | | | | | | | | | | [] ?]; cbn [app errors];
    rewrite IH; reflexivity.
Qed.

(** The draining loop only releases output buffers. *)
Lemma drain_outputs_spec codec answers :
  forall s, exists evs,
    drain_outputs codec answers s
    = mkState (globals s) (locals s) (sock_in s) (trace s ++ evs)
    /\ sent evs = [] /\ builds evs = O /\ errors evs = [].
Proof.
  induction answers as [| [idx size] more IH]; intros s; cbn [drain_outputs].
  - exists []. rewrite app_nil_r. destruct s; auto.
  - destruct (idx >=? 0).
    + destruct (IH (emit (ReleaseOutput codec idx (size >? 0)) s))
        as (evs & E & Hs & Hb & He).
      exists (ReleaseOutput codec idx (size >? 0) :: evs).
      rewrite E. cbn [emit globals locals sock_in trace].
      rewrite <- app_assoc. auto.
    + exists []. rewrite app_nil_r. destruct s; auto.
Qed.

End Traces.

(** ** The Frame Feeder *)

Section Feeder.

Variable e : Env.

Lemma feed_nal_no_codec data len is_idr seq s :
  g_codec (globals s) = None ->
  feed_nal e data len is_idr seq s = (0, s).
Proof. intros H. unfold feed_nal. rewrite H. reflexivity. Qed.

(** With a decoder installed [feed_nal] returns 1 on each of its three
    paths, sends one acknowledgment, and leaves everything but the trace
    as it was. *)
Lemma feed_nal_with_codec data len is_idr seq s c :
  g_codec (globals s) = Some c ->
  exists evs,
    feed_nal e data len is_idr seq s
    = (1, mkState (globals s) (locals s) (sock_in s) (trace s ++ evs))
    /\ sent evs = [ack_bytes seq].
Proof.
  intros H. unfold feed_nal. rewrite H.
  destruct (env_input_idx e <? 0).
  - eexists. unfold send_ack, emit; cbn [globals locals sock_in trace].
    rewrite <- app_assoc. split; reflexivity.
  - destruct (negb match env_input_buf e with
                   | Some buf_size => negb (len >? buf_size)
                   | None => false
                   end).
    + eexists. unfold send_ack, LOGE, emit; cbn [globals locals sock_in trace].
      rewrite <- !app_assoc. split; reflexivity.
    + match goal with
      | |- context [drain_outputs ?c ?a ?s0] =>
          destruct (drain_outputs_spec c a s0) as (evs & E & Hs & _)
      end.
      rewrite E.
      eexists. unfold send_ack, emit; cbn [globals locals sock_in trace].
      rewrite <- !app_assoc. split; [reflexivity |].
      cbn [app sent]. rewrite sent_app, Hs. reflexivity.
Qed.

Lemma notify_connection_state_spec mf b s :
  exists evs,
    notify_connection_state mf b s
    = mkState (globals s) (locals s) (sock_in s) (trace s ++ evs)
    /\ sent evs = [] /\ builds evs = O /\ errors evs = [].
Proof.
  unfold notify_connection_state.
  destruct (negb (g_activity (globals s))).
  - exists []. rewrite app_nil_r. destruct s; auto.
  - destruct mf.
    + eexists. unfold emit. split; [reflexivity | auto].
    + exists []. rewrite app_nil_r. destruct s; auto.
Qed.

Lemma update_stats_spec s :
  exists evs,
    trace (update_stats e s) = trace s ++ evs
    /\ globals (update_stats e s) = globals s
    /\ sock_in (update_stats e s) = sock_in s
    /\ sent evs = [] /\ builds evs = O /\ errors evs = [].
Proof.
  unfold update_stats.
  destruct (env_stats_due e && (to_int (stat_frames (locals s) + 1) >? 0)).
  - eexists. cbn. split; [reflexivity | auto 6].
  - exists []. cbn. rewrite app_nil_r. auto 6.
Qed.

Lemma feed_frame_no_codec h s :
  g_codec (globals s) = None ->
  feed_frame e h s
  = (inl Break, LOGE "feed_nal fatal error, reconnecting" s).
Proof.
  intros H. unfold feed_frame, bind, get, call.
  rewrite feed_nal_no_codec by exact H. reflexivity.
Qed.

Lemma feed_frame_with_codec h s c :
  g_codec (globals s) = Some c ->
  exists s' evs,
    feed_frame e h s = (inr tt, s')
    /\ trace s' = trace s ++ evs
    /\ globals s' = globals s
    /\ sock_in s' = sock_in s
    /\ sent evs = [ack_bytes (fh_seq h)].
Proof.
  intros H. unfold feed_frame, bind, get, call.
  destruct (feed_nal_with_codec (g_nal_buf (globals s)) (fh_payload_len h)
              (negb (Z.land (fh_flags h) FLAG_KEYFRAME =? 0)) (fh_seq h) s c H)
    as (evs & E & Hs).
  rewrite E. cbn [Z.eqb].
  set (s1 := mkState (globals s) (locals s) (sock_in s) (trace s ++ evs)).
  assert (N : exists s2 evs2,
             (if frame_count (locals s1) =? 0
              then act (notify_connection_state (env_method_found e) true)
              else ret tt) s1 = (inr tt, s2)
             /\ s2 = mkState (globals s1) (locals s1) (sock_in s1)
                             (trace s1 ++ evs2)
             /\ sent evs2 = []).
  { destruct (frame_count (locals s1) =? 0).
    - destruct (notify_connection_state_spec (env_method_found e) true s1)
        as (evs2 & E2 & Hs2 & _).
      exists (notify_connection_state (env_method_found e) true s1), evs2.
      unfold act. auto.
    - exists s1, []. unfold ret. rewrite app_nil_r. destruct s1; auto. }
  destruct N as (s2 & evs2 & E2 & Es2 & Hs2).
  rewrite E2. unfold act.
  destruct (update_stats_spec s2) as (evs3 & T3 & G3 & I3 & Hs3 & _).
  exists (update_stats e s2), (evs ++ evs2 ++ evs3).
  split; [reflexivity |].
  rewrite T3, G3, I3, Es2. cbn [trace globals sock_in s1].
  rewrite !sent_app, Hs, Hs2, Hs3, <- !app_assoc. auto.
Qed.

End Feeder.

(** C3: once the receive loop has taken a video frame (header [h], payload
    in the receive buffer) and a decoder is installed, the rest of the loop
    body sends exactly one acknowledgment, which carries the frame's sequence
    number; [feed_nal] does so on each of its paths, the input-slot timeout
    and the too-small slot included. *)
Theorem one_ack_per_accepted_frame :
  forall (e : Env) (h : FrameHeader) (s : State) (c : Codec),
    g_codec (globals s) = Some c ->
    (exists evs,
        feed_nal e (g_nal_buf (globals s)) (fh_payload_len h)
          (negb (Z.land (fh_flags h) FLAG_KEYFRAME =? 0)) (fh_seq h) s
        = (1, mkState (globals s) (locals s) (sock_in s) (trace s ++ evs))
        /\ sent evs = [ack_bytes (fh_seq h)])
    /\ (exists s' evs,
        feed_frame e h s = (inr tt, s')
        /\ trace s' = trace s ++ evs
        /\ sent evs = [ack_bytes (fh_seq h)])
    /\ decode_ack (ack_bytes (fh_seq h)) = Some (u32 (fh_seq h)).
Proof.
  intros e h s c H. split; [| split].
  - apply feed_nal_with_codec with (c := c). exact H.
  - destruct (feed_frame_with_codec e h s c H) as (s' & evs & E & T & _ & _ & S).
    exists s', evs. auto.
  - apply decode_ack_bytes.
Qed.

(** The input-slot timeout: the frame is skipped and acknowledged. *)
Lemma one_ack_per_accepted_frame_witness :
  let e := mkEnv (Starts 2) (Starts 3) true (-1) None [] true false in
  let h := mkFrameHeader 0 42 2 in
  let s := state0 [] in
  g_codec (globals s) = Some 1
  /\ (exists s' evs,
         feed_frame e h s = (inr tt, s')
         /\ trace s' = trace s ++ evs
         /\ sent evs = [ack_bytes 42])
  /\ decode_ack (ack_bytes 42) = Some (u32 42).
Proof.
  split; [reflexivity |].
  exact (proj2 (one_ack_per_accepted_frame
                  (mkEnv (Starts 2) (Starts 3) true (-1) None [] true false)
                  (mkFrameHeader 0 42 2) (state0 []) 1 eq_refl)).
Defined.

(** C1, as the code has it: while no decoder is installed [feed_nal] returns
    0, its fatal error, and changes nothing (no acknowledgment is sent); the
    receive loop then logs the error and leaves the loop, which closes the
    connection. *)
Theorem feed_without_decoder_is_fatal :
  forall (e : Env) (h : FrameHeader) (s : State),
    g_codec (globals s) = None ->
    (forall data len is_idr seq, feed_nal e data len is_idr seq s = (0, s))
    /\ feed_frame e h s
       = (inl Break, LOGE "feed_nal fatal error, reconnecting" s).
Proof.
  intros e h s H. split.
  - intros. apply feed_nal_no_codec. exact H.
  - apply feed_frame_no_codec. exact H.
Qed.

Lemma feed_without_decoder_is_fatal_witness :
  let s := set_globals (with_codec None) (state0 []) in
  g_codec (globals s) = None
  /\ feed_frame env0 (mkFrameHeader 1 1 4) s
     = (inl Break, LOGE "feed_nal fatal error, reconnecting" s).
Proof.
  split; [reflexivity |].
  exact (proj2 (feed_without_decoder_is_fatal env0 (mkFrameHeader 1 1 4)
                  (set_globals (with_codec None) (state0 [])) eq_refl)).
Defined.

(** C1 as stated fails: a key frame with sequence number 1 arrives while no
    decoder is installed; [feed_nal] returns the fatal 0, and the loop body
    ends in [break] instead of going on. *)
Lemma feed_without_decoder_breaks_the_loop :
  let s := set_globals (with_codec None)
             (state0 (frame_then Byte.x01 1
                        [Byte.xaa; Byte.xbb; Byte.xcc; Byte.xdd] [])) in
  g_codec (globals s) = None
  /\ fst (feed_nal env0 [Byte.xaa; Byte.xbb; Byte.xcc; Byte.xdd] 4 true 1 s) = 0
  /\ fst (loop_body env0 s) = Break
  /\ errors (trace (snd (loop_body env0 s)))
     = ["feed_nal fatal error, reconnecting"].
Proof. vm_compute. repeat split; reflexivity. Qed.

(** ** Fields of a state after a step

    Stated once, so that proofs read a field off a state without unfolding
    the steps that led to it. *)

Section Fields.

Lemma trace_emit ev s : trace (emit ev s) = trace s ++ [ev].
Proof. reflexivity. Qed.

Lemma globals_emit ev s : globals (emit ev s) = globals s.
Proof. reflexivity. Qed.

Lemma locals_emit ev s : locals (emit ev s) = locals s.
Proof. reflexivity. Qed.

Lemma sock_in_emit ev s : sock_in (emit ev s) = sock_in s.
Proof. reflexivity. Qed.

Lemma trace_set_globals f s : trace (set_globals f s) = trace s.
Proof. reflexivity. Qed.

Lemma globals_set_globals f s : globals (set_globals f s) = f (globals s).
Proof. reflexivity. Qed.

Lemma locals_set_globals f s : locals (set_globals f s) = locals s.
Proof. reflexivity. Qed.

Lemma sock_in_set_globals f s : sock_in (set_globals f s) = sock_in s.
Proof. reflexivity. Qed.

Lemma build_decoder_fst a width height s :
  fst (build_decoder a width height s)
  = match a with Starts c => Some c | _ => None end.
Proof. destruct a; reflexivity. Qed.

Lemma build_decoder_trace a width height s :
  trace (snd (build_decoder a width height s))
  = trace s ++ build_events a width height.
Proof.
  destruct a; cbn [build_decoder snd build_events]; unfold LOGE;
    rewrite ?trace_emit, <- ?app_assoc; reflexivity.
Qed.

Lemma build_decoder_globals a width height s :
  globals (snd (build_decoder a width height s)) = globals s.
Proof. destruct a; reflexivity. Qed.

Lemma build_decoder_locals a width height s :
  locals (snd (build_decoder a width height s)) = locals s.
Proof. destruct a; reflexivity. Qed.

Lemma build_decoder_sock_in a width height s :
  sock_in (snd (build_decoder a width height s)) = sock_in s.
Proof. destruct a; reflexivity. Qed.

Lemma build_decoder_fails a width height s :
  build_fails a = true -> fst (build_decoder a width height s) = None.
Proof.
  intros H. rewrite build_decoder_fst.
  destruct a; [reflexivity .. | discriminate].
Qed.

Lemma builds_build_events a width height :
  builds (build_events a width height) = 1%nat.
Proof. destruct a; reflexivity. Qed.

End Fields.

Create Rewrite HintDb fields.

#[local] Hint Rewrite trace_emit globals_emit locals_emit sock_in_emit
  trace_set_globals globals_set_globals locals_set_globals
  sock_in_set_globals build_decoder_trace build_decoder_globals
  build_decoder_locals build_decoder_sock_in : fields.

Section CreateDecoderShape.

Variables (a1 a2 : BuildAnswer) (width height : Z) (s : State).

Lemma create_decoder_retry_shape old :
  build_fails a1 = true ->
  g_codec (globals s) = Some old ->
  create_decoder a1 a2 width height s
  = match fst (build_decoder a2 width height
                 (after_release a1 width height s old)) with
    | None =>
        (0, snd (build_decoder a2 width height
                   (after_release a1 width height s old)))
    | Some c =>
        (1, LOGI "MediaCodec H.264 decoder started"
              (set_globals (with_frame_size width height)
                 (set_globals (with_codec (Some c))
                    (snd (build_decoder a2 width height
                            (after_release a1 width height s old))))))
    end.
Proof.
  intros Hf Hold. unfold create_decoder, after_release.
  pose proof (build_decoder_fails a1 width height s Hf) as F1.
  pose proof (build_decoder_globals a1 width height s) as G1.
  destruct (build_decoder a1 width height s) as [c1 s1].
  cbn [fst snd] in F1, G1 |- *. subst c1. rewrite G1, Hold.
  match goal with
  | |- context [build_decoder a2 width height ?s0] =>
      pose proof (build_decoder_globals a2 width height s0) as G2;
      destruct (build_decoder a2 width height s0) as [c2 s2]
  end.
  cbn [fst snd] in G2 |- *.
  destruct c2 as [c2 |]; [| reflexivity].
  rewrite G2. unfold LOGI at 2.
  rewrite !globals_emit, globals_set_globals. reflexivity.
Qed.

Lemma create_decoder_no_retry_shape :
  build_fails a1 = true ->
  g_codec (globals s) = None ->
  create_decoder a1 a2 width height s
  = (0, set_globals (with_codec None)
          (snd (build_decoder a1 width height s))).
Proof.
  intros Hf Hold. unfold create_decoder.
  pose proof (build_decoder_fails a1 width height s Hf) as F1.
  pose proof (build_decoder_globals a1 width height s) as G1.
  destruct (build_decoder a1 width height s) as [c1 s1].
  cbn [fst snd] in F1, G1. subst c1. rewrite G1, Hold. reflexivity.
Qed.

(** The events of [create_decoder] when its first build fails while the
    instance [old] is installed: first build, release of [old] (stop, then
    delete), second build and, if that one starts, the log line. *)
Lemma after_release_trace old :
  trace (snd (build_decoder a2 width height
                (after_release a1 width height s old)))
  = trace s ++ build_events a1 width height
      ++ [Log INFO "Retrying decoder configure after tearing down old instance";
          CodecStop old; CodecDelete old]
      ++ build_events a2 width height.
Proof.
  unfold after_release, LOGI. autorewrite with fields.
  rewrite <- !app_assoc. reflexivity.
Qed.

Lemma after_release_codec old :
  g_codec (globals (snd (build_decoder a2 width height
                           (after_release a1 width height s old)))) = None.
Proof. unfold after_release, LOGI. autorewrite with fields. reflexivity. Qed.

Lemma create_decoder_retry_events old :
  build_fails a1 = true ->
  g_codec (globals s) = Some old ->
  trace (snd (create_decoder a1 a2 width height s))
  = trace s
      ++ build_events a1 width height
      ++ [Log INFO "Retrying decoder configure after tearing down old instance";
          CodecStop old; CodecDelete old]
      ++ build_events a2 width height
      ++ (if build_fails a2 then []
          else [Log INFO "MediaCodec H.264 decoder started"]).
Proof.
  intros Hf Hold.
  rewrite (create_decoder_retry_shape old Hf Hold), build_decoder_fst.
  pose proof (after_release_trace old) as T.
  destruct a2; cbn [snd build_fails]; unfold LOGI;
    autorewrite with fields in *; rewrite ?T, ?app_nil_r, <- ?app_assoc;
    reflexivity.
Qed.

Lemma create_decoder_retry_result old :
  build_fails a1 = true ->
  g_codec (globals s) = Some old ->
  fst (create_decoder a1 a2 width height s)
  = (if build_fails a2 then 0 else 1).
Proof.
  intros Hf Hold.
  rewrite (create_decoder_retry_shape old Hf Hold), build_decoder_fst.
  destruct a2; reflexivity.
Qed.

Lemma create_decoder_retry_codec old :
  build_fails a1 = true ->
  g_codec (globals s) = Some old ->
  g_codec (globals (snd (create_decoder a1 a2 width height s)))
  = match a2 with Starts c => Some c | _ => None end.
Proof.
  intros Hf Hold.
  rewrite (create_decoder_retry_shape old Hf Hold), build_decoder_fst.
  pose proof (after_release_codec old) as G.
  destruct a2; cbn [snd]; try exact G.
  unfold LOGI. autorewrite with fields. reflexivity.
Qed.

Lemma create_decoder_no_retry_events :
  build_fails a1 = true ->
  g_codec (globals s) = None ->
  trace (snd (create_decoder a1 a2 width height s))
  = trace s ++ build_events a1 width height.
Proof.
  intros Hf Hold.
  rewrite (create_decoder_no_retry_shape Hf Hold).
  cbn [snd]. autorewrite with fields. reflexivity.
Qed.

Lemma retry_events_builds old tail :
  builds (build_events a1 width height
          ++ [Log INFO "Retrying decoder configure after tearing down old instance";
              CodecStop old; CodecDelete old]
          ++ build_events a2 width height ++ tail)
  = (2 + builds tail)%nat.
Proof.
  rewrite builds_app, builds_build_events. cbn [app builds].
  rewrite builds_app, builds_build_events. reflexivity.
Qed.

End CreateDecoderShape.

(** ** The decoder life cycle *)

Section DecoderLifecycle.

Variables width height : Z.

Lemma build_decoder_spec a s :
  exists evs,
    build_decoder a width height s
    = (match a with Starts c => Some c | _ => None end,
       mkState (globals s) (locals s) (sock_in s) (trace s ++ evs))
    /\ builds evs = 1%nat /\ sent evs = []
    /\ (forall c, ~ In (CodecStop c) evs).
Proof.
  destruct a; cbn [build_decoder]; unfold LOGE, emit;
    cbn [globals locals sock_in trace]; rewrite <- ?app_assoc;
    eexists; (split; [reflexivity |]); cbn [app builds sent];
    (split; [reflexivity |]); (split; [reflexivity |]);
    intros c0 Hin; cbn [In] in Hin;
    repeat (destruct Hin as [Hin | Hin]; [discriminate |]); exact Hin.
Qed.

(** The first build fails and an instance [old] is held: it is stopped and
    deleted, and the build is tried once more. *)
Lemma create_decoder_retry a1 a2 s old :
  build_fails a1 = true ->
  g_codec (globals s) = Some old ->
  exists evs,
    trace (snd (create_decoder a1 a2 width height s)) = trace s ++ evs
    /\ In (CodecStop old) evs /\ In (CodecDelete old) evs
    /\ builds evs = 2%nat
    /\ fst (create_decoder a1 a2 width height s)
       = (if build_fails a2 then 0 else 1)
    /\ g_codec (globals (snd (create_decoder a1 a2 width height s)))
       = match a2 with Starts c => Some c | _ => None end.
Proof.
  intros Hf Hold.
  eexists. split; [apply (create_decoder_retry_events _ _ _ _ _ _ Hf Hold) |].
  split; [apply in_or_app; right; cbn [app In]; auto |].
  split; [apply in_or_app; right; cbn [app In]; auto |].
  split; [rewrite retry_events_builds; destruct (build_fails a2); reflexivity |].
  split; [apply (create_decoder_retry_result _ _ _ _ _ _ Hf Hold) |].
  apply (create_decoder_retry_codec _ _ _ _ _ _ Hf Hold).
Qed.

(** The first build fails and no instance is held: nothing is retried. *)
Lemma create_decoder_no_retry a1 a2 s :
  build_fails a1 = true ->
  g_codec (globals s) = None ->
  exists evs,
    trace (snd (create_decoder a1 a2 width height s)) = trace s ++ evs
    /\ builds evs = 1%nat
    /\ fst (create_decoder a1 a2 width height s) = 0
    /\ g_codec (globals (snd (create_decoder a1 a2 width height s))) = None.
Proof.
  intros Hf Hold.
  rewrite (create_decoder_no_retry_shape a1 a2 width height s Hf Hold).
  cbn [fst snd]. autorewrite with fields.
  exists (build_events a1 width height).
  split; [reflexivity |]. split; [apply builds_build_events |]. auto.
Qed.

(** [create_decoder] never touches the receive buffer, the locals or the
    socket. *)
Lemma create_decoder_frame a1 a2 s :
  let s' := snd (create_decoder a1 a2 width height s) in
  g_nal_buf (globals s') = g_nal_buf (globals s)
  /\ g_nal_buf_capacity (globals s') = g_nal_buf_capacity (globals s)
  /\ locals s' = locals s /\ sock_in s' = sock_in s.
Proof.
  unfold create_decoder.
  destruct a1, a2, (g_codec (globals s)) eqn:E; cbn; rewrite ?E; cbn; auto.
Qed.

End DecoderLifecycle.

(** C4, as the code has it: when the first configuration fails and a decoder
    instance is held, the events of the call are, in this order: the failed
    first build, the release of the held instance (it is stopped, then
    deleted), and exactly one more build; so the configuration is retried
    exactly once, and only after the held instance has been released.  When
    no instance is held the call consists of the failed first build alone:
    nothing is retried.  In both cases, when no configuration succeeds the
    operation reports failure (0) and no decoder instance is left installed;
    when the retry succeeds the operation reports 1 with the new instance
    installed. *)
Theorem create_decoder_retries_after_releasing :
  forall (a1 a2 : BuildAnswer) (width height : Z) (s : State),
    build_fails a1 = true ->
    let r := fst (create_decoder a1 a2 width height s) in
    let s' := snd (create_decoder a1 a2 width height s) in
    exists evs,
      trace s' = trace s ++ evs
      /\ match g_codec (globals s) with
         | Some old =>
             evs = build_events a1 width height
                   ++ [Log INFO "Retrying decoder configure after tearing down old instance";
                       CodecStop old; CodecDelete old]
                   ++ build_events a2 width height
                   ++ (if build_fails a2 then []
                       else [Log INFO "MediaCodec H.264 decoder started"])
             /\ In (CodecStop old) evs /\ In (CodecDelete old) evs
             /\ builds evs = 2%nat
             /\ (build_fails a2 = true -> r = 0 /\ g_codec (globals s') = None)
             /\ (forall c, a2 = Starts c ->
                 r = 1 /\ g_codec (globals s') = Some c)
         | None =>
             evs = build_events a1 width height
             /\ builds evs = 1%nat /\ r = 0 /\ g_codec (globals s') = None
         end.
Proof.
  intros a1 a2 width height s Hf r s'. subst r s'.
  destruct (g_codec (globals s)) as [old |] eqn:Hold.
  - pose proof (create_decoder_retry_events a1 a2 width height s old Hf Hold)
      as T.
    destruct (create_decoder_retry width height a1 a2 s old Hf Hold)
      as (evs' & _ & _ & _ & _ & R & G).
    eexists. split; [exact T |].
    split; [reflexivity |].
    split; [apply in_or_app; right; cbn [app In]; auto |].
    split; [apply in_or_app; right; cbn [app In]; auto |].
    split.
    { rewrite retry_events_builds. destruct (build_fails a2); reflexivity. }
    split.
    + intros Hf2. rewrite R, G, Hf2.
      destruct a2; [auto .. | discriminate].
    + intros c ->. rewrite R, G. auto.
  - pose proof (create_decoder_no_retry_events a1 a2 width height s Hf Hold)
      as T.
    destruct (create_decoder_no_retry width height a1 a2 s Hf Hold)
      as (evs' & _ & _ & R & G).
    eexists. split; [exact T |].
    split; [reflexivity |]. split; [apply builds_build_events |]. auto.
Qed.

(** The held instance 1 is released, the retry fails too. *)
Lemma create_decoder_retries_after_releasing_witness :
  build_fails (ConfigureFails 2) = true
  /\ exists evs,
      trace (snd (create_decoder (ConfigureFails 2) (StartFails 3) 800 600
                    (state0 [])))
      = trace (state0 []) ++ evs
      /\ evs = build_events (ConfigureFails 2) 800 600
               ++ [Log INFO "Retrying decoder configure after tearing down old instance";
                   CodecStop 1; CodecDelete 1]
               ++ build_events (StartFails 3) 800 600
               ++ (if build_fails (StartFails 3) then []
                   else [Log INFO "MediaCodec H.264 decoder started"])
      /\ In (CodecStop 1) evs /\ In (CodecDelete 1) evs
      /\ builds evs = 2%nat
      /\ (build_fails (StartFails 3) = true ->
          fst (create_decoder (ConfigureFails 2) (StartFails 3) 800 600
                 (state0 [])) = 0
          /\ g_codec (globals (snd (create_decoder (ConfigureFails 2)
                                      (StartFails 3) 800 600 (state0 []))))
             = None)
      /\ (forall c, StartFails 3 = Starts c ->
          fst (create_decoder (ConfigureFails 2) (StartFails 3) 800 600
                 (state0 [])) = 1
          /\ g_codec (globals (snd (create_decoder (ConfigureFails 2)
                                      (StartFails 3) 800 600 (state0 []))))
             = Some c).
Proof.
  split; [reflexivity |].
  exact (create_decoder_retries_after_releasing (ConfigureFails 2)
           (StartFails 3) 800 600 (state0 []) eq_refl).
Defined.

(** C4 as stated fails: with no instance held and a first configuration
    that fails, the decoder is built once, not twice, and the operation fails
    although a second configuration would have succeeded. *)
Lemma create_decoder_without_old_does_not_retry :
  let s := set_globals (with_codec None) (state0 []) in
  build_fails (ConfigureFails 2) = true
  /\ builds (trace (snd (create_decoder (ConfigureFails 2) (Starts 3)
                           800 600 s))) = 1%nat
  /\ fst (create_decoder (ConfigureFails 2) (Starts 3) 800 600 s) = 0.
Proof. vm_compute. repeat split; reflexivity. Qed.

(** ** Exact reads *)

Section Reads.

Lemma take_app pre rest : take (length pre) (pre ++ rest) = Some (pre, rest).
Proof.
  induction pre as [| b pre IH]; [reflexivity |].
  cbn [length app take]. rewrite IH. reflexivity.
Qed.

(** What [take] returns is a split of the stream. *)
Lemma take_some n : forall l bs rest,
  take n l = Some (bs, rest) -> l = bs ++ rest /\ length bs = n.
Proof.
  induction n as [| n IH]; intros l bs rest H; cbn [take] in H.
  - inversion H. auto.
  - destruct l as [| b l]; [discriminate |].
    destruct (take n l) as [[bs' rest'] |] eqn:E; [| discriminate].
    inversion H; subst. destruct (IH _ _ _ E) as [-> <-]. auto.
Qed.

(** When [take] fails the stream is shorter than asked for. *)
Lemma take_none n : forall l, take n l = None -> (length l < n)%nat.
Proof.
  induction n as [| n IH]; intros l H; cbn [take] in H; [discriminate |].
  destruct l as [| b l]; [cbn; lia |].
  destruct (take n l) as [[bs' rest'] |] eqn:E; [discriminate |].
  apply IH in E. cbn [length]. lia.
Qed.

Lemma read_exact_app n pre rest s :
  sock_in s = pre ++ rest ->
  Z.of_nat (length pre) = n ->
  read_exact n s = ((true, pre), set_sock_in rest s).
Proof.
  intros Hs Hn. unfold read_exact.
  destruct (Z.leb_spec n 0) as [Hle | Hgt].
  - assert (pre = []) by (destruct pre; [reflexivity | cbn in Hn; lia]).
    subst pre. cbn [app] in Hs. rewrite <- Hs.
    destruct s; reflexivity.
  - rewrite Hs, <- Hn, Nat2Z.id, take_app. reflexivity.
Qed.

(** The bytes [read_exact] delivers are never more than asked for. *)
Lemma read_exact_length n s :
  Z.of_nat (length (snd (fst (read_exact n s)))) <= Z.max n 0.
Proof.
  unfold read_exact.
  destruct (Z.leb_spec n 0) as [Hle | Hgt]; [cbn; lia |].
  destruct (take (Z.to_nat n) (sock_in s)) as [[bs rest] |] eqn:E.
  - apply take_some in E. destruct E as [_ E]. cbn [fst snd]. lia.
  - apply take_none in E. cbn [fst snd]. lia.
Qed.

Lemma read_exact_frame n s :
  globals (snd (read_exact n s)) = globals s
  /\ locals (snd (read_exact n s)) = locals s
  /\ trace (snd (read_exact n s)) = trace s.
Proof.
  unfold read_exact.
  destruct (n <=? 0); [auto |].
  destruct (take (Z.to_nat n) (sock_in s)) as [[bs rest] |]; auto.
Qed.

Lemma bind_read n msg pre rest s {B} (k : list byte -> Loop B) :
  sock_in s = pre ++ rest ->
  Z.of_nat (length pre) = n ->
  bind (read_or_break n msg) k s = k pre (set_sock_in rest s).
Proof.
  intros Hs Hn. unfold bind, read_or_break.
  rewrite (read_exact_app n pre rest s Hs Hn). reflexivity.
Qed.

Lemma le32_split pre z post :
  0 <= z < 2 ^ 32 ->
  le32 (pre ++ le_split 4 z ++ post) (length pre) = z.
Proof.
  intros Hz. unfold le32, at_.
  rewrite le_split_4. cbn [app].
  rewrite !app_nth2 by lia.
  replace (length pre - length pre)%nat with 0%nat by lia.
  replace (length pre + 1 - length pre)%nat with 1%nat by lia.
  replace (length pre + 2 - length pre)%nat with 2%nat by lia.
  replace (length pre + 3 - length pre)%nat with 3%nat by lia.
  cbn [nth]. rewrite lor4_le_combine, <- le_split_4, le_combine_split.
  apply Z.mod_small. exact Hz.
Qed.

Lemma le16_split pre z post :
  0 <= z < 2 ^ 16 ->
  le16 (pre ++ le_split 2 z ++ post) (length pre) = z.
Proof.
  intros Hz. unfold le16, at_.
  rewrite le_split_2. cbn [app].
  rewrite !app_nth2 by lia.
  replace (length pre - length pre)%nat with 0%nat by lia.
  replace (length pre + 1 - length pre)%nat with 1%nat by lia.
  cbn [nth]. rewrite lor2_le_combine, <- le_split_2, le_combine_split.
  apply Z.mod_small. exact Hz.
Qed.

Lemma le32_nonneg buf i : 0 <= le32 buf i.
Proof.
  unfold le32, at_. rewrite lor4_le_combine. apply le_nonneg.
Qed.

End Reads.

(** ** The Demultiplexer *)

Section Demultiplexer.

Variable e : Env.

Lemma le16_resolution width height :
  0 <= width < 2 ^ 16 -> 0 <= height < 2 ^ 16 ->
  le16 (le_split 2 width ++ le_split 2 height) 0 = width
  /\ le16 (le_split 2 width ++ le_split 2 height) 2 = height.
Proof.
  intros Hw Hh. split.
  - apply (le16_split [] width (le_split 2 height) Hw).
  - pose proof (le16_split (le_split 2 width) height [] Hh) as H.
    rewrite app_nil_r, length_le_split in H. exact H.
Qed.

Lemma resolution_ok_false width height :
  width = 0 \/ height = 0 \/ 4096 < width \/ 4096 < height ->
  resolution_ok width height = false.
Proof.
  unfold resolution_ok. intros H.
  destruct (Z.gtb_spec width 0), (Z.gtb_spec height 0),
    (Z.leb_spec width 4096), (Z.leb_spec height 4096);
    cbn [andb]; try reflexivity; lia.
Qed.

(** The loop body on a resolution command: the decoder is rebuilt exactly
    when the dimensions pass the check. *)
Lemma loop_body_resolution s width height rest :
  sock_in s = encode_resolution width height ++ rest ->
  0 <= width < 2 ^ 16 -> 0 <= height < 2 ^ 16 ->
  resolution_ok width height = false ->
  loop_body e s = (Continue, set_sock_in rest s).
Proof.
  intros Hs Hw Hh Hbad. unfold loop_body, loop_body_m.
  rewrite (bind_read 2 _ [byte.of_Z 218; byte.of_Z 127]
             ([byte.of_Z 4] ++ (le_split 2 width ++ le_split 2 height) ++ rest))
    by (first [ reflexivity
              | rewrite Hs; unfold encode_resolution;
                rewrite <- ?app_assoc; reflexivity ]).
  change (at_ [byte.of_Z 218; byte.of_Z 127] 0) with 218.
  change (at_ [byte.of_Z 218; byte.of_Z 127] 1) with 127.
  cbn [MAGIC_FRAME_0 MAGIC_CMD_1 Z.eqb Pos.eqb negb].
  rewrite (bind_read 1 _ [byte.of_Z 4]
             ((le_split 2 width ++ le_split 2 height) ++ rest))
    by reflexivity.
  change (at_ [byte.of_Z 4] 0) with 4.
  cbn [CMD_RESOLUTION Z.eqb Pos.eqb].
  unfold resolution_command.
  rewrite (bind_read 4 _ (le_split 2 width ++ le_split 2 height) rest)
    by (try reflexivity; rewrite length_app, !length_le_split; reflexivity).
  destruct (le16_resolution width height Hw Hh) as [-> ->].
  rewrite Hbad. reflexivity.
Qed.

End Demultiplexer.

(** C6: a resolution command whose width or height is 0 or exceeds 4096 is
    ignored: the loop body consumes the command and goes on with the next
    packet, and nothing else of the state changes (no decoder is built, no
    line is logged, no host method is called). *)
Theorem invalid_resolution_is_ignored :
  forall (e : Env) (s : State) (width height : Z) (rest : list byte),
    sock_in s = encode_resolution width height ++ rest ->
    0 <= width < 2 ^ 16 -> 0 <= height < 2 ^ 16 ->
    width = 0 \/ height = 0 \/ 4096 < width \/ 4096 < height ->
    loop_body e s = (Continue, set_sock_in rest s).
Proof.
  intros e s width height rest Hs Hw Hh Hbad.
  apply loop_body_resolution with (width := width) (height := height);
    try assumption.
  apply resolution_ok_false. exact Hbad.
Qed.

Lemma invalid_resolution_is_ignored_witness :
  let s := state0 (encode_resolution 5000 600 ++ [Byte.xda]) in
  sock_in s = encode_resolution 5000 600 ++ [Byte.xda]
  /\ (0 <= 5000 < 2 ^ 16) /\ (0 <= 600 < 2 ^ 16)
  /\ (5000 = 0 \/ 600 = 0 \/ 4096 < 5000 \/ 4096 < 600)
  /\ loop_body env0 s = (Continue, set_sock_in [Byte.xda] s).
Proof.
  assert (H1 : 0 <= 5000 < 2 ^ 16) by (split; [discriminate | reflexivity]).
  assert (H2 : 0 <= 600 < 2 ^ 16) by (split; [discriminate | reflexivity]).
  assert (H3 : 5000 = 0 \/ 600 = 0 \/ 4096 < 5000 \/ 4096 < 600)
    by (right; right; left; reflexivity).
  split; [reflexivity |]. split; [exact H1 |]. split; [exact H2 |].
  split; [exact H3 |].
  exact (invalid_resolution_is_ignored env0
           (state0 (encode_resolution 5000 600 ++ [Byte.xda]))
           5000 600 [Byte.xda] eq_refl H1 H2 H3).
Defined.

Section VideoFrames.

Variable e : Env.

(** The loop body on a stream that starts with the two magic bytes of a
    video frame. *)
Lemma loop_body_m_video s tail :
  sock_in s = [byte.of_Z 218; byte.of_Z 126] ++ tail ->
  loop_body_m e s
  = bind (read_video_frame e) (feed_frame e) (set_sock_in tail s).
Proof.
  intros Hs. unfold loop_body_m.
  rewrite (bind_read 2 _ [byte.of_Z 218; byte.of_Z 126] tail)
    by (first [reflexivity | exact Hs]).
  change (at_ [byte.of_Z 218; byte.of_Z 126] 0) with 218.
  change (at_ [byte.of_Z 218; byte.of_Z 126] 1) with 126.
  reflexivity.
Qed.

Lemma read_frame_header_encoded s flags seq len tail :
  sock_in s = (flags :: le_split 4 seq ++ le_split 4 len) ++ tail ->
  0 <= seq < 2 ^ 32 -> 0 <= len < 2 ^ 32 ->
  read_frame_header s
  = (inr (mkFrameHeader (byte.unsigned flags) seq len), set_sock_in tail s).
Proof.
  intros Hs Hseq Hlen. unfold read_frame_header.
  rewrite (bind_read 9 _ (flags :: le_split 4 seq ++ le_split 4 len) tail)
    by (first [ exact Hs
              | cbn [length]; rewrite length_app, !length_le_split;
                reflexivity ]).
  unfold ret.
  pose proof (le32_split [flags] seq (le_split 4 len) Hseq) as H1.
  pose proof (le32_split (flags :: le_split 4 seq) len [] Hlen) as H5.
  cbn [length] in H1, H5. rewrite length_le_split, app_nil_r in H5.
  cbn [app] in H1, H5. rewrite H1, H5. reflexivity.
Qed.

Lemma firstn_write_buf bs old : firstn (length bs) (write_buf bs old) = bs.
Proof.
  unfold write_buf. rewrite firstn_app, Nat.sub_diag, firstn_all.
  cbn [firstn]. apply app_nil_r.
Qed.

(** A payload of fewer than [2^31] bytes is read into the buffer, which is
    grown for it when it has to be. *)
Lemma receive_payload_read h s payload rest :
  sock_in s = payload ++ rest ->
  fh_payload_len h = Z.of_nat (length payload) ->
  fh_payload_len h < 2 ^ 31 ->
  fh_payload_len h <= capacity s \/ env_realloc_ok e = true ->
  exists s1,
    receive_payload e h s = (inr tt, s1)
    /\ firstn (length payload) (g_nal_buf (globals s1)) = payload
    /\ sock_in s1 = rest
    /\ trace s1 = trace s
    /\ g_codec (globals s1) = g_codec (globals s)
    /\ capacity s1 = Z.max (capacity s) (fh_payload_len h)
    /\ locals s1 = track_seq (fh_seq h) (locals s).
Proof.
  intros Hs Hlen Hsmall Hroom.
  cbv beta iota delta
    [receive_payload bind act grow_nal_buf get ret read_payload].
  cbn [globals set_locals].
  assert (Hread : forall s0, sock_in s0 = payload ++ rest ->
            read_exact (to_int (fh_payload_len h)) s0
            = ((true, payload), set_sock_in rest s0)).
  { intros s0 H0. apply read_exact_app; [exact H0 |].
    rewrite to_int_small; lia. }
  unfold capacity in *.
  destruct (Z.gtb_spec (fh_payload_len h) (g_nal_buf_capacity (globals s)))
    as [Hgt | Hle].
  - destruct Hroom as [Hroom | Hroom]; [lia |]. rewrite Hroom.
    rewrite Hread by exact Hs.
    eexists. split; [reflexivity |].
    cbn. rewrite firstn_write_buf. repeat split; lia.
  - rewrite Hread by exact Hs.
    eexists. split; [reflexivity |].
    cbn. rewrite firstn_write_buf. repeat split; lia.
Qed.

(** A payload of [2^31] bytes or more: the length handed to [read_exact]
    is negative as an [int], and nothing of the payload is read. *)
Lemma receive_payload_unread h s :
  2 ^ 31 <= fh_payload_len h < 2 ^ 32 ->
  env_realloc_ok e = true ->
  exists s1,
    receive_payload e h s = (inr tt, s1)
    /\ g_nal_buf (globals s1) = g_nal_buf (globals s)
    /\ sock_in s1 = sock_in s.
Proof.
  intros Hbig Hre.
  cbv beta iota delta
    [receive_payload bind act grow_nal_buf get ret read_payload].
  cbn [globals set_locals]. rewrite Hre.
  assert (Hread : forall s0,
            read_exact (to_int (fh_payload_len h)) s0 = ((true, []), s0)).
  { intros s0. unfold read_exact. rewrite to_int_high by exact Hbig.
    change (2 ^ 31) with 2147483648 in Hbig.
    change (2 ^ 32) with 4294967296 in *.
    destruct (Z.leb_spec (fh_payload_len h - 4294967296) 0); [reflexivity | lia]. }
  destruct (fh_payload_len h >? g_nal_buf_capacity (globals s));
    rewrite Hread; eexists; (split; [reflexivity |]); cbn; auto.
Qed.

End VideoFrames.

Section FramingRoundTrip.

Variable e : Env.

Lemma read_video_frame_encoded s flags seq len tail :
  sock_in s = (flags :: le_split 4 seq ++ le_split 4 len) ++ tail ->
  0 <= seq < 2 ^ 32 -> 0 <= len < 2 ^ 32 ->
  let h := mkFrameHeader (byte.unsigned flags) seq len in
  read_video_frame e s
  = match receive_payload e h (set_sock_in tail s) with
    | (inr _, s1) => (inr h, s1)
    | (inl c, s1) => (inl c, s1)
    end.
Proof.
  intros Hs Hseq Hlen h. unfold read_video_frame. unfold bind at 1.
  rewrite (read_frame_header_encoded s flags seq len tail Hs Hseq Hlen).
  fold h. unfold bind, ret.
  destruct (receive_payload e h (set_sock_in tail s)) as [[c | u] s1];
    reflexivity.
Qed.

(** The stream of a frame, cut after the magic and after the header. *)
Lemma frame_then_cut flags seq payload rest :
  frame_then flags seq payload rest
  = [byte.of_Z 218; byte.of_Z 126]
      ++ (flags :: le_split 4 seq
                     ++ le_split 4 (Z.of_nat (length payload)))
      ++ payload ++ rest.
Proof.
  unfold frame_then, encode_video_frame, encode_le32.
  cbn [app]. rewrite <- !app_assoc. reflexivity.
Qed.

Lemma loop_body_m_frame s flags seq payload rest :
  sock_in s = frame_then flags seq payload rest ->
  0 <= seq < 2 ^ 32 ->
  Z.of_nat (length payload) < 2 ^ 32 ->
  let h := mkFrameHeader (byte.unsigned flags) seq
             (Z.of_nat (length payload)) in
  let s0 := set_sock_in (skipn 2 (sock_in s)) s in
  read_video_frame e s0
  = match receive_payload e h (set_sock_in (payload ++ rest) s) with
    | (inr _, s1) => (inr h, s1)
    | (inl c, s1) => (inl c, s1)
    end
  /\ loop_body_m e s = bind (read_video_frame e) (feed_frame e) s0.
Proof.
  intros Hs Hseq Hlen h s0. subst s0.
  rewrite frame_then_cut in Hs. rewrite Hs.
  cbn [app skipn]. split.
  - apply (read_video_frame_encoded
             (set_sock_in ((flags :: le_split 4 seq
                              ++ le_split 4 (Z.of_nat (length payload)))
                             ++ payload ++ rest) s)
             flags seq (Z.of_nat (length payload)) (payload ++ rest));
      [reflexivity | exact Hseq | lia].
  - apply loop_body_m_video. exact Hs.
Qed.

End FramingRoundTrip.

(** The framing round trip where the code achieves it: a well-formed video
    frame whose payload is shorter than [2^31] bytes, and for which the
    receive buffer is large enough or has been grown, is recovered by the
    loop body as it was encoded:
    the header handed on has the encoded flags, sequence number and length,
    the receive buffer starts with the encoded payload bytes, and the stream
    is left just behind the frame. *)
Theorem video_frame_round_trip :
  forall (e : Env) (s : State) (flags : byte) (seq : Z)
         (payload rest : list byte),
    sock_in s = frame_then flags seq payload rest ->
    0 <= seq < 2 ^ 32 ->
    Z.of_nat (length payload) < 2 ^ 31 ->
    Z.of_nat (length payload) <= capacity s \/ env_realloc_ok e = true ->
    let h := mkFrameHeader (byte.unsigned flags) seq
               (Z.of_nat (length payload)) in
    exists s1,
      read_video_frame e (set_sock_in (skipn 2 (sock_in s)) s) = (inr h, s1)
      /\ loop_body_m e s = feed_frame e h s1
      /\ firstn (length payload) (g_nal_buf (globals s1)) = payload
      /\ sock_in s1 = rest.
Proof.
  intros e s flags seq payload rest Hs Hseq Hlen Hroom h.
  assert (Hlen32 : Z.of_nat (length payload) < 2 ^ 32)
    by (change (2 ^ 31) with 2147483648 in Hlen;
        change (2 ^ 32) with 4294967296; lia).
  destruct (loop_body_m_frame e s flags seq payload rest Hs Hseq Hlen32)
    as [Hread Hbody].
  fold h in Hread.
  destruct (receive_payload_read e h (set_sock_in (payload ++ rest) s)
              payload rest eq_refl eq_refl Hlen Hroom)
    as (s1 & E & Hbuf & Hin & _).
  rewrite E in Hread.
  exists s1. split; [exact Hread |]. split; [| auto].
  rewrite Hbody. unfold bind. rewrite Hread. reflexivity.
Qed.

(** The first packet of the end-to-end scenario. *)
Lemma video_frame_round_trip_witness :
  let payload := [Byte.xaa; Byte.xbb; Byte.xcc; Byte.xdd] in
  let s := state0 (frame_then Byte.x01 1 payload [Byte.xda]) in
  (0 <= 1 < 2 ^ 32)
  /\ Z.of_nat (length payload) < 2 ^ 31
  /\ (Z.of_nat (length payload) <= capacity s \/ env_realloc_ok env0 = true)
  /\ exists s1,
      read_video_frame env0 (set_sock_in (skipn 2 (sock_in s)) s)
      = (inr (mkFrameHeader 1 1 4), s1)
      /\ loop_body_m env0 s = feed_frame env0 (mkFrameHeader 1 1 4) s1
      /\ firstn (length payload) (g_nal_buf (globals s1)) = payload
      /\ sock_in s1 = [Byte.xda].
Proof.
  assert (H1 : 0 <= 1 < 2 ^ 32) by (split; [discriminate | reflexivity]).
  assert (H2 : Z.of_nat (length [Byte.xaa; Byte.xbb; Byte.xcc; Byte.xdd])
               < 2 ^ 31) by reflexivity.
  assert (H3 : Z.of_nat (length [Byte.xaa; Byte.xbb; Byte.xcc; Byte.xdd])
               <= capacity (state0 (frame_then Byte.x01 1
                              [Byte.xaa; Byte.xbb; Byte.xcc; Byte.xdd]
                              [Byte.xda]))
               \/ env_realloc_ok env0 = true) by (right; reflexivity).
  split; [exact H1 |]. split; [exact H2 |]. split; [exact H3 |].
  exact (video_frame_round_trip env0
           (state0 (frame_then Byte.x01 1
                      [Byte.xaa; Byte.xbb; Byte.xcc; Byte.xdd] [Byte.xda]))
           Byte.x01 1 [Byte.xaa; Byte.xbb; Byte.xcc; Byte.xdd] [Byte.xda]
           eq_refl H1 H2 H3).
Defined.

Section OversizedPayload.

Lemma big_payload_length : Z.of_nat (length big_payload) = 2147483648.
Proof.
  unfold big_payload. rewrite repeat_length.
  apply Z2Nat.id. discriminate.
Qed.

(** A frame whose payload has exactly [2^31] bytes: the header is parsed,
    the buffer is grown, and the payload stays in the stream. *)
Lemma loop_body_m_oversized e s flags seq payload rest :
  sock_in s = frame_then flags seq payload rest ->
  0 <= seq < 2 ^ 32 ->
  Z.of_nat (length payload) = 2147483648 ->
  env_realloc_ok e = true ->
  exists s1,
    loop_body_m e s
    = feed_frame e (mkFrameHeader (byte.unsigned flags) seq 2147483648) s1
    /\ g_nal_buf (globals s1) = g_nal_buf (globals s)
    /\ sock_in s1 = payload ++ rest.
Proof.
  intros Hs Hseq Hlen Hre.
  assert (Hlen32 : Z.of_nat (length payload) < 2 ^ 32)
    by (rewrite Hlen; reflexivity).
  destruct (loop_body_m_frame e s flags seq payload rest Hs Hseq Hlen32)
    as [Hread Hbody].
  rewrite Hlen in Hread.
  destruct (receive_payload_unread e
              (mkFrameHeader (byte.unsigned flags) seq 2147483648)
              (set_sock_in (payload ++ rest) s))
    as (s1 & E & Hbuf & Hin);
    [split; [discriminate | reflexivity] | exact Hre |].
  rewrite E in Hread.
  exists s1. split; [| split; assumption].
  rewrite Hbody. unfold bind. rewrite Hread. reflexivity.
Qed.

End OversizedPayload.

(** C7: the code falls short of the round trip on a well-formed video frame
    with flags 1, sequence number 7 and a payload of [2^31] zero bytes.  The
    header is parsed and the buffer is grown to the full length, but the
    length passed to [read_exact] is [(int)payload_len], which is negative:
    [read_exact] reads nothing, the frame handed to the feeder has an empty
    receive buffer, and the whole payload is still in the stream. *)
Lemma oversized_payload_is_not_recovered :
  exists s1,
    loop_body_m env0 (state0 (frame_then Byte.x01 7 big_payload []))
    = feed_frame env0 (mkFrameHeader 1 7 2147483648) s1
    /\ g_nal_buf (globals s1) = []
    /\ sock_in s1 = big_payload
    /\ firstn (length big_payload) (g_nal_buf (globals s1)) <> big_payload.
Proof.
  destruct (loop_body_m_oversized env0
              (state0 (frame_then Byte.x01 7 big_payload []))
              Byte.x01 7 big_payload [] eq_refl)
    as (s1 & E & Hbuf & Hin);
    [split; [discriminate | reflexivity] | exact big_payload_length
    | reflexivity |].
  exists s1. split; [exact E |].
  rewrite app_nil_r in Hin. split; [exact Hbuf |]. split; [exact Hin |].
  change (g_nal_buf (globals (state0 (frame_then Byte.x01 7 big_payload []))))
    with (@nil byte) in Hbuf.
  rewrite Hbuf, firstn_nil. intros Hnil.
  pose proof big_payload_length as Hlen. rewrite <- Hnil in Hlen.
  discriminate Hlen.
Qed.

(** ** The receive buffer *)

Section ReceiveBuffer.

Variable e : Env.
Variable h : FrameHeader.

Lemma write_buf_length bs old :
  length (write_buf bs old) = Nat.max (length bs) (length old).
Proof.
  unfold write_buf. rewrite length_app, length_skipn. lia.
Qed.

(** Growing succeeds: the buffer is at least as large as the payload. *)
Lemma grow_nal_buf_grown s s' :
  grow_nal_buf e (fh_payload_len h) s = (inr tt, s') ->
  fh_payload_len h <= capacity s'
  /\ capacity s <= capacity s'
  /\ g_nal_buf (globals s') = g_nal_buf (globals s)
  /\ sock_in s' = sock_in s.
Proof.
  cbv beta iota delta [grow_nal_buf bind get act ret exit_with].
  unfold capacity.
  destruct (Z.gtb_spec (fh_payload_len h) (g_nal_buf_capacity (globals s)))
    as [Hgt | Hle].
  - destruct (env_realloc_ok e); intros H; inversion H; subst; cbn;
      repeat split; try reflexivity; lia.
  - intros H; inversion H; subst. repeat split; try reflexivity; lia.
Qed.

(** Growing fails: the loop is left and only a line is logged. *)
Lemma grow_nal_buf_failed s c s' :
  grow_nal_buf e (fh_payload_len h) s = (inl c, s') ->
  c = Break /\ s' = LOGE "Failed to grow NAL buffer" s
  /\ capacity s < fh_payload_len h /\ env_realloc_ok e = false.
Proof.
  cbv beta iota delta [grow_nal_buf bind get act ret exit_with].
  unfold capacity.
  destruct (Z.gtb_spec (fh_payload_len h) (g_nal_buf_capacity (globals s)))
    as [Hgt | Hle].
  - destruct (env_realloc_ok e); intros H; inversion H; subst; auto.
  - intros H; inversion H.
Qed.

(** What [read_payload] writes is what [read_exact] received, at most
    [(int)payload_len] bytes. *)
Lemma read_payload_writes s :
  exists bs,
    Z.of_nat (length bs) <= Z.max (to_int (fh_payload_len h)) 0
    /\ g_nal_buf (globals (snd (read_payload (fh_payload_len h) s)))
       = write_buf bs (g_nal_buf (globals s))
    /\ capacity (snd (read_payload (fh_payload_len h) s)) = capacity s.
Proof.
  unfold read_payload.
  pose proof (read_exact_length (to_int (fh_payload_len h)) s) as Hlen.
  destruct (read_exact_frame (to_int (fh_payload_len h)) s) as (Hg & _ & _).
  destruct (read_exact (to_int (fh_payload_len h)) s) as [[ok bs] s1].
  cbn [fst snd] in Hlen, Hg.
  exists bs. destruct ok; cbn; rewrite Hg; auto.
Qed.

Lemma receive_payload_unfold s :
  receive_payload e h s
  = match grow_nal_buf e (fh_payload_len h)
            (set_locals (track_seq (fh_seq h)) s) with
    | (inr _, s1) => read_payload (fh_payload_len h) s1
    | (inl c, s1) => (inl c, s1)
    end.
Proof.
  unfold receive_payload, bind at 1, act.
  unfold bind.
  destruct (grow_nal_buf e (fh_payload_len h)
              (set_locals (track_seq (fh_seq h)) s)) as [[c | u] s1];
    reflexivity.
Qed.

(** The capacity never goes down while a frame is received. *)
Lemma receive_payload_capacity s :
  capacity s <= capacity (snd (receive_payload e h s)).
Proof.
  rewrite receive_payload_unfold.
  destruct (grow_nal_buf e (fh_payload_len h)
              (set_locals (track_seq (fh_seq h)) s)) as [[c | []] s1] eqn:E.
  - apply grow_nal_buf_failed in E. destruct E as (_ & -> & _).
    unfold capacity. cbn. lia.
  - apply grow_nal_buf_grown in E. destruct E as (_ & Hc & _).
    destruct (read_payload_writes s1) as (bs & _ & _ & Hcap).
    rewrite Hcap. exact Hc.
Qed.

(** Every byte of the payload is written inside the allocation. *)
Lemma receive_payload_in_bounds s :
  0 <= fh_payload_len h ->
  buf_in_bounds s -> buf_in_bounds (snd (receive_payload e h s)).
Proof.
  intros Hnn Hs. rewrite receive_payload_unfold.
  destruct (grow_nal_buf e (fh_payload_len h)
              (set_locals (track_seq (fh_seq h)) s)) as [[c | []] s1] eqn:E.
  - apply grow_nal_buf_failed in E. destruct E as (_ & -> & _). exact Hs.
  - apply grow_nal_buf_grown in E. destruct E as (Hfit & Hc & Hbuf & _).
    destruct (read_payload_writes s1) as (bs & Hlen & Hw & Hcap).
    unfold buf_in_bounds in *. rewrite Hw, Hcap, write_buf_length, Hbuf.
    pose proof (to_int_le (fh_payload_len h) Hnn).
    unfold capacity in *.
    cbn [set_locals globals] in Hc |- *. lia.
Qed.

(** The buffer cannot be grown: the frame is given up before anything is
    read into the buffer. *)
Lemma receive_payload_no_room s :
  capacity s < fh_payload_len h ->
  env_realloc_ok e = false ->
  receive_payload e h s
  = (inl Break,
     LOGE "Failed to grow NAL buffer" (set_locals (track_seq (fh_seq h)) s)).
Proof.
  intros Hgt Hre. rewrite receive_payload_unfold.
  cbv beta iota delta [grow_nal_buf bind get act ret exit_with].
  cbn [set_locals globals]. unfold capacity in Hgt.
  destruct (Z.gtb_spec (fh_payload_len h) (g_nal_buf_capacity (globals s)));
    [| lia].
  rewrite Hre. reflexivity.
Qed.

End ReceiveBuffer.

(** ** Invariants of the receive loop

    An invariant that only looks at the receive buffer and its capacity, and
    that receiving a payload maintains, holds all along the worker thread's
    loops: the buffer is touched nowhere else. *)

Section LoopInvariant.

Variable I : State -> Prop.

Hypothesis I_buffer :
  forall s s',
    g_nal_buf (globals s') = g_nal_buf (globals s) ->
    capacity s' = capacity s ->
    I s -> I s'.

Hypothesis I_payload :
  forall e h s,
    0 <= fh_payload_len h -> I s -> I (snd (receive_payload e h s)).

Lemma preserves_ret {A} (a : A) : preserves I (ret a).
Proof. intros s Hs. exact Hs. Qed.

Lemma preserves_exit {A} c : preserves I (@exit_with A c).
Proof. intros s Hs. exact Hs. Qed.

Lemma preserves_get : preserves I get.
Proof. intros s Hs. exact Hs. Qed.

Lemma preserves_bind {A B} (m : Loop A) (k : A -> Loop B) :
  preserves I m -> (forall a, preserves I (k a)) -> preserves I (bind m k).
Proof.
  intros Hm Hk s Hs. unfold bind.
  specialize (Hm s Hs). destruct (m s) as [[c | a] s']; cbn [snd] in *.
  - exact Hm.
  - apply Hk. exact Hm.
Qed.

Lemma preserves_act f : keeps_buffer f -> preserves I (act f).
Proof.
  intros Hf s Hs. destruct (Hf s) as [Hb Hc].
  apply (I_buffer s); assumption.
Qed.

Lemma preserves_call {A} (f : State -> A * State) :
  (forall s, g_nal_buf (globals (snd (f s))) = g_nal_buf (globals s)
             /\ capacity (snd (f s)) = capacity s) ->
  preserves I (call f).
Proof.
  intros Hf s Hs. destruct (Hf s) as [Hb Hc]. unfold call.
  destruct (f s) as [a s']. cbn [snd] in *.
  apply (I_buffer s); assumption.
Qed.

Lemma keeps_buffer_emit ev : keeps_buffer (emit ev).
Proof. intros s. split; reflexivity. Qed.

Lemma keeps_buffer_set_locals f : keeps_buffer (set_locals f).
Proof. intros s. split; reflexivity. Qed.

Lemma keeps_buffer_notify mf b : keeps_buffer (notify_connection_state mf b).
Proof.
  intros s.
  destruct (notify_connection_state_spec mf b s) as (evs & -> & _).
  split; reflexivity.
Qed.

Lemma keeps_buffer_update_stats e : keeps_buffer (update_stats e).
Proof.
  intros s. destruct (update_stats_spec e s) as (evs & _ & G & _).
  unfold capacity. rewrite G. split; reflexivity.
Qed.

Lemma preserves_read_or_break n msg : preserves I (read_or_break n msg).
Proof.
  intros s Hs. unfold read_or_break.
  destruct (read_exact_frame n s) as (G & _ & _).
  destruct (read_exact n s) as [[[] bs] s']; cbn [snd] in *;
    [| destruct msg]; apply (I_buffer s); unfold capacity; cbn;
    rewrite ?G; auto.
Qed.

Lemma feed_nal_globals e data len is_idr seq s :
  globals (snd (feed_nal e data len is_idr seq s)) = globals s.
Proof.
  destruct (g_codec (globals s)) as [c |] eqn:E.
  - destruct (feed_nal_with_codec e data len is_idr seq s c E)
      as (evs & -> & _). reflexivity.
  - rewrite feed_nal_no_codec by exact E. reflexivity.
Qed.

Ltac preserve :=
  repeat match goal with
    | |- preserves _ (ret _) => apply preserves_ret
    | |- preserves _ (exit_with _) => apply preserves_exit
    | |- preserves _ get => apply preserves_get
    | |- preserves _ (read_or_break _ _) => apply preserves_read_or_break
    | |- preserves _ (bind _ _) => apply preserves_bind; [| intros ? ]
    | |- preserves _ (act _) => apply preserves_act
    | |- preserves _ (if ?b then _ else _) => destruct b
    | |- keeps_buffer (emit _) => apply keeps_buffer_emit
    | |- keeps_buffer (set_locals _) => apply keeps_buffer_set_locals
    | |- keeps_buffer (notify_connection_state _ _) =>
        apply keeps_buffer_notify
    | |- keeps_buffer (update_stats _) => apply keeps_buffer_update_stats
    end.

Variable e : Env.

Lemma preserves_resolution_command : preserves I (resolution_command e).
Proof.
  unfold resolution_command, LOGI. preserve.
  match goal with
  | |- preserves _ (call (create_decoder ?a1 ?a2 ?w ?h)) =>
      apply preserves_call; intros s;
      destruct (create_decoder_frame w h a1 a2 s) as (Hb & Hc & _)
  end.
  split; assumption.
Qed.

Lemma preserves_value_command cmd : preserves I (value_command e cmd).
Proof. unfold value_command. preserve. Qed.

Lemma preserves_feed_frame h : preserves I (feed_frame e h).
Proof.
  unfold feed_frame, LOGE. preserve.
  apply preserves_call. intros s. unfold capacity.
  rewrite feed_nal_globals. split; reflexivity.
Qed.

Lemma preserves_read_video_frame : preserves I (read_video_frame e).
Proof.
  intros s Hs.
  cbv beta iota delta [read_video_frame read_frame_header bind ret].
  pose proof (preserves_read_or_break 9
                (Some "Connection lost reading frame header") s Hs) as Hr.
  destruct (read_or_break 9 (Some "Connection lost reading frame header") s)
    as [[c | frame_hdr] s0]; cbn [snd] in *; [exact Hr |].
  pose proof (I_payload e
                (mkFrameHeader (at_ frame_hdr 0) (le32 frame_hdr 1)
                   (le32 frame_hdr 5)) s0 (le32_nonneg frame_hdr 5) Hr) as Hp.
  destruct (receive_payload e _ s0) as [[c | u] s1]; exact Hp.
Qed.

Lemma preserves_loop_body_m : preserves I (loop_body_m e).
Proof.
  unfold loop_body_m, LOGE. preserve.
  - apply preserves_resolution_command.
  - apply preserves_value_command.
  - apply preserves_read_video_frame.
  - apply preserves_feed_frame.
Qed.

Lemma loop_body_inv s : I s -> I (snd (loop_body e s)).
Proof.
  intros Hs. unfold loop_body.
  pose proof (preserves_loop_body_m s Hs) as H.
  destruct (loop_body_m e s) as [[c | u] s']; exact H.
Qed.

End LoopInvariant.

Section WorkerLoops.

Variable I : State -> Prop.

Hypothesis I_buffer :
  forall s s',
    g_nal_buf (globals s') = g_nal_buf (globals s) ->
    capacity s' = capacity s ->
    I s -> I s'.

Hypothesis I_payload :
  forall e h s,
    0 <= fh_payload_len h -> I s -> I (snd (receive_payload e h s)).

Lemma receive_loop_inv iters : forall s, I s -> I (receive_loop iters s).
Proof.
  induction iters as [| [running e] more IH]; intros s Hs;
    cbn [receive_loop]; [exact Hs |].
  destruct running; [| exact Hs].
  pose proof (loop_body_inv I I_buffer I_payload e s Hs) as Hb.
  destruct (loop_body e s) as [[] s']; cbn [snd] in Hb.
  - apply IH. exact Hb.
  - exact Hb.
Qed.

Lemma connection_inv a s : I s -> I (connection a s).
Proof.
  intros Hs. unfold connection, LOGE, LOGI.
  destruct (negb (att_socket_ok a)).
  - apply (I_buffer s); [reflexivity | reflexivity | exact Hs].
  - destruct (negb (att_connect_ok a)).
    + apply (I_buffer s); [reflexivity | reflexivity | exact Hs].
    + match goal with
      | |- I (notify_connection_state ?mf ?b ?s1) =>
          destruct (keeps_buffer_notify mf b s1) as [Hb Hc];
          apply (I_buffer s1); [exact Hb | exact Hc |]
      end.
      match goal with
      | |- I (emit ?ev ?s1) =>
          apply (I_buffer s1); [reflexivity | reflexivity |]
      end.
      apply receive_loop_inv.
      apply (I_buffer s); [reflexivity | reflexivity | exact Hs].
Qed.

Lemma connect_loop_inv attempts : forall s, I s -> I (connect_loop attempts s).
Proof.
  induction attempts as [| a more IH]; intros s Hs; cbn [connect_loop];
    [exact Hs |].
  destruct (att_running a); [| exact Hs].
  apply IH. apply connection_inv. exact Hs.
Qed.

End WorkerLoops.

Section Capacity.

(** "The capacity is at least [c0]" is an invariant of the loops. *)
Variable c0 : Z.

Lemma at_least_buffer s s' :
  g_nal_buf (globals s') = g_nal_buf (globals s) ->
  capacity s' = capacity s ->
  c0 <= capacity s -> c0 <= capacity s'.
Proof. intros _ Hc Hs. rewrite Hc. exact Hs. Qed.

Lemma at_least_payload e h s :
  0 <= fh_payload_len h -> c0 <= capacity s ->
  c0 <= capacity (snd (receive_payload e h s)).
Proof.
  intros _ Hs. pose proof (receive_payload_capacity e h s). lia.
Qed.

End Capacity.

Lemma loop_body_capacity e s : capacity s <= capacity (snd (loop_body e s)).
Proof.
  apply (loop_body_inv (fun s' => capacity s <= capacity s')
           (at_least_buffer (capacity s)) (at_least_payload (capacity s)) e s).
  lia.
Qed.

Lemma receive_loop_capacity iters s :
  capacity s <= capacity (receive_loop iters s).
Proof.
  apply (receive_loop_inv (fun s' => capacity s <= capacity s')
           (at_least_buffer (capacity s)) (at_least_payload (capacity s))
           iters s).
  lia.
Qed.

Lemma connect_loop_capacity attempts s :
  capacity s <= capacity (connect_loop attempts s).
Proof.
  apply (connect_loop_inv (fun s' => capacity s <= capacity s')
           (at_least_buffer (capacity s)) (at_least_payload (capacity s))
           attempts s).
  lia.
Qed.

(** C8: the capacity of the receive buffer never decreases: it is at least
    what it was after every iteration of the receive loop, hence after any
    number of frames of one connection, and across the connections of the
    worker thread. *)
Theorem receive_buffer_capacity_never_decreases :
  (forall (e : Env) (s : State), capacity s <= capacity (snd (loop_body e s)))
  /\ (forall (iters : list (bool * Env)) (s : State),
         capacity s <= capacity (receive_loop iters s))
  /\ (forall (attempts : list Attempt) (s : State),
         capacity s <= capacity (connect_loop attempts s)).
Proof.
  split; [| split].
  - exact loop_body_capacity.
  - exact receive_loop_capacity.
  - exact connect_loop_capacity.
Qed.

(** C9: the payload length is checked against the buffer before the payload
    is read: in the state in which [read_payload] runs the capacity is at
    least the payload length; when the buffer cannot be grown the loop is
    left before anything is read; and whatever an iteration of the receive
    loop does, what it has written to the buffer lies within the capacity. *)
Theorem payload_length_checked_before_read :
  forall (e : Env) (s : State),
    buf_in_bounds s ->
    (forall h s1,
        grow_nal_buf e (fh_payload_len h)
          (set_locals (track_seq (fh_seq h)) s) = (inr tt, s1) ->
        fh_payload_len h <= capacity s1
        /\ receive_payload e h s = read_payload (fh_payload_len h) s1)
    /\ (forall h,
        capacity s < fh_payload_len h -> env_realloc_ok e = false ->
        receive_payload e h s
        = (inl Break,
           LOGE "Failed to grow NAL buffer"
             (set_locals (track_seq (fh_seq h)) s)))
    /\ (forall h, 0 <= fh_payload_len h ->
        buf_in_bounds (snd (receive_payload e h s)))
    /\ buf_in_bounds (snd (loop_body e s))
    /\ (forall iters, buf_in_bounds (receive_loop iters s)).
Proof.
  intros e s Hs.
  assert (Hbuf : forall s0 s', g_nal_buf (globals s') = g_nal_buf (globals s0) ->
             capacity s' = capacity s0 ->
             buf_in_bounds s0 -> buf_in_bounds s')
    by (unfold buf_in_bounds; intros s0 s' Hb Hc H0; rewrite Hb, Hc; exact H0).
  assert (Hpay : forall e0 h s0, 0 <= fh_payload_len h -> buf_in_bounds s0 ->
             buf_in_bounds (snd (receive_payload e0 h s0)))
    by (intros; apply receive_payload_in_bounds; assumption).
  split; [| split; [| split; [| split]]].
  - intros h s1 E. split.
    + apply (grow_nal_buf_grown e h _ s1 E).
    + rewrite receive_payload_unfold, E. reflexivity.
  - intros h Hgt Hre. apply receive_payload_no_room; assumption.
  - intros h Hnn. apply Hpay; assumption.
  - apply (loop_body_inv buf_in_bounds Hbuf Hpay e s Hs).
  - intros iters. apply (receive_loop_inv buf_in_bounds Hbuf Hpay iters s Hs).
Qed.

(** A frame of four bytes arrives at a buffer that holds three. *)
Lemma payload_length_checked_before_read_witness :
  let g := mkGlobals true true (Some 1) 1024 768
             [Byte.x01; Byte.x02; Byte.x03] 3 in
  let s := mkState g fresh_locals
             (frame_then Byte.x01 1 [Byte.xaa; Byte.xbb; Byte.xcc; Byte.xdd] [])
             [] in
  buf_in_bounds s
  /\ buf_in_bounds (snd (loop_body env0 s))
  /\ capacity (snd (loop_body env0 s)) = 4.
Proof.
  assert (H : buf_in_bounds
                (mkState (mkGlobals true true (Some 1) 1024 768
                            [Byte.x01; Byte.x02; Byte.x03] 3)
                   fresh_locals
                   (frame_then Byte.x01 1
                      [Byte.xaa; Byte.xbb; Byte.xcc; Byte.xdd] []) []))
    by (vm_compute; discriminate).
  split; [exact H |]. split; [| reflexivity].
  exact (proj1 (proj2 (proj2 (proj2
           (payload_length_checked_before_read env0 _ H))))).
Defined.

(** ** The worker thread as a whole *)

(** X19: from the allocation of the receive buffer on, whatever the
    connections bring, the written part of the buffer lies within its
    capacity and the capacity is at least the initial 2 MB. *)
Lemma worker_buffer_in_bounds (attempts : list Attempt) (s : State) :
  let s0 := set_globals (with_nal_buf [])
              (set_globals (with_nal_buf_capacity INITIAL_NAL_BUF_CAPACITY) s) in
  buf_in_bounds (connect_loop attempts s0)
  /\ INITIAL_NAL_BUF_CAPACITY <= capacity (connect_loop attempts s0).
Proof.
  intros s0. split.
  - apply (connect_loop_inv buf_in_bounds).
    + unfold buf_in_bounds. intros s1 s' Hb Hc H1. rewrite Hb, Hc. exact H1.
    + intros. apply receive_payload_in_bounds; assumption.
    + unfold buf_in_bounds, capacity. cbn. discriminate.
  - apply (connect_loop_capacity attempts s0).
Qed.

(** The end-to-end scenario: a key frame with sequence number 1 and four
    payload bytes, then a frame with sequence number 2 and two payload bytes.
    Both are queued to the decoder, the first one marked as a key frame, and
    acknowledged in order. *)
Example end_to_end_two_frames :
  let stream :=
    frame_then Byte.x01 1 [Byte.xaa; Byte.xbb; Byte.xcc; Byte.xdd]
      (frame_then Byte.x00 2 [Byte.x11; Byte.x22] []) in
  let s := receive_loop [(true, env0); (true, env0)] (state0 stream) in
  trace s =
    [ DequeueInput 1 2000;
      QueueInput 1 0 [Byte.xaa; Byte.xbb; Byte.xcc; Byte.xdd] 4
        AMEDIACODEC_BUFFER_FLAG_KEY_FRAME;
      Send (ack_bytes 1);
      CallHost "onConnectionState" 1;
      DequeueInput 1 2000;
      QueueInput 1 0 [Byte.x11; Byte.x22] 2 0;
      Send (ack_bytes 2) ]
  /\ sock_in s = []
  /\ frame_count (locals s) = 2.
Proof. vm_compute. repeat split; reflexivity. Qed.

(** * Further properties of the receiver *)

(** ** read_exact *)

(** The stream-level [read_exact]: asked for [n > 0] bytes it either returns
    exactly the next [n] bytes of the stream and leaves what follows them,
    or, when fewer than [n] bytes are left before the peer closes, fails
    after taking them all; asked for [n <= 0] bytes it succeeds without
    reading.  It touches nothing but the stream. *)
Theorem read_exact_all_or_fail :
  forall (n : Z) (s : State),
    let ok := fst (fst (read_exact n s)) in
    let bs := snd (fst (read_exact n s)) in
    let s' := snd (read_exact n s) in
    globals s' = globals s /\ locals s' = locals s /\ trace s' = trace s
    /\ (n <= 0 -> ok = true /\ bs = [] /\ sock_in s' = sock_in s)
    /\ (0 < n ->
        (ok = true <-> n <= Z.of_nat (length (sock_in s)))
        /\ (ok = true ->
            sock_in s = bs ++ sock_in s' /\ Z.of_nat (length bs) = n)
        /\ (ok = false -> bs = sock_in s /\ sock_in s' = [])).
Proof.
  intros n s ok bs s'. subst ok bs s'.
  destruct (read_exact_frame n s) as (Hg & Hl & Ht).
  split; [exact Hg |]. split; [exact Hl |]. split; [exact Ht |].
  unfold read_exact. split.
  - intros Hn. destruct (Z.leb_spec n 0); [auto | lia].
  - intros Hn. destruct (Z.leb_spec n 0); [lia |].
    destruct (take (Z.to_nat n) (sock_in s)) as [[bs rest] |] eqn:E;
      cbn [fst snd set_sock_in sock_in].
    + destruct (take_some _ _ _ _ E) as [Hs Hlen].
      split; [| split].
      * split; [intros _ | reflexivity].
        rewrite Hs, length_app. lia.
      * intros _. split; [exact Hs | lia].
      * discriminate.
    + apply take_none in E. split; [| split].
      * split; [discriminate | lia].
      * discriminate.
      * auto.
Qed.

Lemma read_exact_all_or_fail_witness :
  let s := state0 [Byte.x01; Byte.x02; Byte.x03] in
  (0 < 2 ->
   (fst (fst (read_exact 2 s)) = true <-> 2 <= Z.of_nat (length (sock_in s)))
   /\ (fst (fst (read_exact 2 s)) = true ->
       sock_in s = snd (fst (read_exact 2 s)) ++ sock_in (snd (read_exact 2 s))
       /\ Z.of_nat (length (snd (fst (read_exact 2 s)))) = 2)
   /\ (fst (fst (read_exact 2 s)) = false ->
       snd (fst (read_exact 2 s)) = sock_in s
       /\ sock_in (snd (read_exact 2 s)) = []))
  /\ snd (fst (read_exact 2 s)) = [Byte.x01; Byte.x02].
Proof.
  split; [| reflexivity].
  exact (proj2 (proj2 (proj2 (proj2
           (read_exact_all_or_fail 2
              (state0 [Byte.x01; Byte.x02; Byte.x03])))))).
Defined.

(** ** send_ack *)

(** X2: the acknowledgment [send_ack] builds byte by byte is the six bytes
    [0xDA 0x7A] followed by the sequence number in little-endian order, and
    two sequence numbers of 32 bits with the same acknowledgment are equal. *)
Theorem ack_wire_format :
  forall seq1 seq2 : Z,
    length (ack_bytes seq1) = 6%nat
    /\ ack_bytes seq1 = [Byte.xda; Byte.x7a] ++ le_split 4 seq1
    /\ (0 <= seq1 < 2 ^ 32 -> 0 <= seq2 < 2 ^ 32 ->
        ack_bytes seq1 = ack_bytes seq2 -> seq1 = seq2).
Proof.
  intros seq1 seq2. split; [reflexivity |]. split.
  - apply ack_bytes_le_split.
  - intros H1 H2 E.
    pose proof (decode_ack_bytes seq1) as D1.
    pose proof (decode_ack_bytes seq2) as D2.
    rewrite E, D2 in D1. inversion D1 as [D].
    rewrite (u32_small seq1 H1), (u32_small seq2 H2) in D. symmetry. exact D.
Qed.

Lemma ack_wire_format_witness :
  (0 <= 7 < 2 ^ 32) /\ (0 <= 7 < 2 ^ 32)
  /\ ack_bytes 7 = ack_bytes 7 /\ 7 = 7.
Proof.
  assert (H : 0 <= 7 < 2 ^ 32) by (split; [discriminate | reflexivity]).
  split; [exact H |]. split; [exact H |]. split; [reflexivity |].
  exact (proj2 (proj2 (ack_wire_format 7 7)) H H eq_refl).
Defined.

(** ** More on the sequence accounting *)

Section DropCounter.

(** One update moves the counter up by at most 999, and never down, as long
    as it stays within an [int]. *)
Lemma track_seq_step_bound l seq :
  0 <= dropped_frames l -> dropped_frames l + 999 <= INT_MAX ->
  dropped_frames l <= dropped_frames (track_seq seq l)
                   <= dropped_frames l + 999.
Proof.
  intros H0 Hmax. unfold track_seq. cbn [dropped_frames].
  destruct (has_last_seq l && negb (seq =? u32 (last_seq l + 1))); [| lia].
  set (gap := to_int (u32 (seq - last_seq l - 1))).
  destruct (Z.gtb_spec gap 0); cbn [andb]; [| lia].
  destruct (Z.ltb_spec gap 1000); [| lia].
  rewrite to_int_in_range; [lia |].
  unfold INT_MIN, INT_MAX in *. change (2 ^ 31) with 2147483648 in *. lia.
Qed.

Lemma track_seqs_bound seqs : forall l,
  0 <= dropped_frames l ->
  dropped_frames l + 999 * Z.of_nat (length seqs) <= INT_MAX ->
  dropped_frames l <= dropped_frames (track_seqs seqs l)
                   <= dropped_frames l + 999 * Z.of_nat (length seqs).
Proof.
  unfold track_seqs.
  induction seqs as [| seq more IH]; intros l H0 Hmax; cbn [fold_left].
  - cbn [length] in *. lia.
  - cbn [length] in Hmax |- *. rewrite Nat2Z.inj_succ in *.
    pose proof (track_seq_step_bound l seq H0 ltac:(lia)) as Hs.
    specialize (IH (track_seq seq l) ltac:(lia) ltac:(lia)). lia.
Qed.

End DropCounter.

(** X3: over the frames of one statistics window the dropped-frame counter
    never goes down and grows by at most 999 per frame, so for any run of
    frames short enough for [999 * n] to fit an [int] it stays a
    non-negative [int] and no addition to it overflows. *)
Theorem drop_counter_bounded :
  forall (seqs : list Z) (l : Locals),
    0 <= dropped_frames l ->
    dropped_frames l + 999 * Z.of_nat (length seqs) <= INT_MAX ->
    dropped_frames l <= dropped_frames (track_seqs seqs l)
    /\ dropped_frames (track_seqs seqs l)
       <= dropped_frames l + 999 * Z.of_nat (length seqs)
    /\ in_int (dropped_frames (track_seqs seqs l)).
Proof.
  intros seqs l H0 Hmax.
  pose proof (track_seqs_bound seqs l H0 Hmax) as [Hlo Hhi].
  split; [exact Hlo |]. split; [exact Hhi |].
  unfold in_int, INT_MIN, INT_MAX in *.
  change (2 ^ 31) with 2147483648 in *. lia.
Qed.

Lemma drop_counter_bounded_witness :
  0 <= dropped_frames fresh_locals
  /\ dropped_frames fresh_locals + 999 * Z.of_nat (length [5; 6; 8; 2000])
     <= INT_MAX
  /\ in_int (dropped_frames (track_seqs [5; 6; 8; 2000] fresh_locals)).
Proof.
  assert (H1 : 0 <= dropped_frames fresh_locals) by discriminate.
  assert (H2 : dropped_frames fresh_locals
               + 999 * Z.of_nat (length [5; 6; 8; 2000]) <= INT_MAX)
    by discriminate.
  split; [exact H1 |]. split; [exact H2 |].
  exact (proj2 (proj2 (drop_counter_bounded [5; 6; 8; 2000] fresh_locals
                         H1 H2))).
Defined.

(** X4: a sequence number that repeats the last one or lies behind it (by at
    most [2^32 - 1001]) is not counted as a loss: the dropped-frame counter
    stays as it is, and the tracker moves to the new number. *)
Theorem stale_sequence_number_is_not_a_drop :
  forall (l : Locals) (seq : Z),
    0 <= seq -> seq <= last_seq l -> last_seq l < 2 ^ 32 ->
    last_seq l - seq <= 2 ^ 32 - 1001 ->
    dropped_frames (track_seq seq l) = dropped_frames l
    /\ last_seq (track_seq seq l) = seq.
Proof.
  intros l seq H0 Hle Hlast Hback. split; [| reflexivity].
  apply track_seq_reset. unfold u32.
  change (2 ^ 32) with 4294967296 in *.
  rewrite <- (Z.mod_add _ 1) by discriminate.
  rewrite Z.mod_small; lia.
Qed.

Lemma stale_sequence_number_is_not_a_drop_witness :
  let l := mkLocals 4 4 2 100 true in
  0 <= 100 /\ 100 <= last_seq l /\ last_seq l < 2 ^ 32
  /\ last_seq l - 100 <= 2 ^ 32 - 1001
  /\ dropped_frames (track_seq 100 l) = 2.
Proof.
  assert (H1 : 0 <= 100) by discriminate.
  assert (H2 : 100 <= last_seq (mkLocals 4 4 2 100 true)) by discriminate.
  assert (H3 : last_seq (mkLocals 4 4 2 100 true) < 2 ^ 32) by reflexivity.
  assert (H4 : last_seq (mkLocals 4 4 2 100 true) - 100 <= 2 ^ 32 - 1001)
    by discriminate.
  split; [exact H1 |]. split; [exact H2 |]. split; [exact H3 |].
  split; [exact H4 |].
  exact (proj1 (stale_sequence_number_is_not_a_drop
                  (mkLocals 4 4 2 100 true) 100 H1 H2 H3 H4)).
Defined.

(** ** Decoder instances are never leaked *)

Lemma live_after_app a : forall init b,
  live_after init (a ++ b) = live_after (live_after init a) b.
Proof.
  induction a as [| ev a IH]; intros init b; [reflexivity |].
  destruct ev; cbn [app live_after]; apply IH.
Qed.

Lemma lifecycle_app a b : lifecycle (a ++ b) = lifecycle a ++ lifecycle b.
Proof.
  induction a as [| ev a IH]; [reflexivity |].
  destruct ev; cbn [app lifecycle]; rewrite IH; reflexivity.
Qed.

Lemma live_after_quiet evs : forall init,
  lifecycle evs = [] -> live_after init evs = init.
Proof.
  induction evs as [| ev evs IH]; intros init H; [reflexivity |].
  destruct ev; cbn [lifecycle] in H; try discriminate;
    cbn [live_after]; apply IH; exact H.
Qed.

Lemma remove_codec_head c l : remove_codec c (c :: l) = l.
Proof. cbn [remove_codec]. rewrite Z.eqb_refl. reflexivity. Qed.

Lemma quiet_step_refl s : quiet_step s s.
Proof.
  split; [reflexivity |]. exists []. rewrite app_nil_r. auto.
Qed.

Lemma quiet_step_trans s1 s2 s3 :
  quiet_step s1 s2 -> quiet_step s2 s3 -> quiet_step s1 s3.
Proof.
  intros [G1 (e1 & T1 & L1)] [G2 (e2 & T2 & L2)]. split.
  - rewrite G2. exact G1.
  - exists (e1 ++ e2). rewrite T2, T1, app_assoc, lifecycle_app, L1, L2. auto.
Qed.

Lemma no_leak_quiet s s' : quiet_step s s' -> no_leak s -> no_leak s'.
Proof.
  intros [G (evs & T & L)] H. unfold no_leak, installed in *.
  rewrite T, live_after_app, H, G. apply live_after_quiet. exact L.
Qed.

(** States that differ only in the trace, by events that leave the decoder
    instances alone. *)
Lemma quiet_step_events s evs :
  lifecycle evs = [] ->
  quiet_step s (mkState (globals s) (locals s) (sock_in s) (trace s ++ evs)).
Proof. intros L. split; [reflexivity |]. exists evs. auto. Qed.

Lemma quiet_step_emit ev s : lifecycle [ev] = [] -> quiet_step s (emit ev s).
Proof. intros L. apply (quiet_step_events s [ev] L). Qed.

Lemma quiet_step_fields s s' :
  g_codec (globals s') = g_codec (globals s) -> trace s' = trace s ->
  quiet_step s s'.
Proof.
  intros G T. split; [exact G |]. exists []. rewrite app_nil_r. auto.
Qed.

(** [build_decoder] leaves behind the instance it returns and no other. *)
Lemma build_decoder_live a width height s :
  exists evs,
    build_decoder a width height s
    = (match a with Starts c => Some c | _ => None end,
       mkState (globals s) (locals s) (sock_in s) (trace s ++ evs))
    /\ forall init,
        live_after init evs
        = match a with Starts c => c :: init | _ => init end.
Proof.
  destruct a; cbn [build_decoder]; unfold LOGE, emit;
    cbn [globals locals sock_in trace]; rewrite <- ?app_assoc;
    eexists; (split; [reflexivity |]); intros init;
    cbn [app live_after]; rewrite ?remove_codec_head; reflexivity.
Qed.

(** Installing [c] over whatever is installed: the old instance goes. *)
Lemma install_no_leak c width height s1 :
  live_after [] (trace s1)
  = match g_codec (globals s1) with Some g => [c; g] | None => [c] end ->
  no_leak
    (LOGI "MediaCodec H.264 decoder started"
       (set_globals (with_frame_size width height)
          (set_globals (with_codec (Some c))
             match g_codec (globals s1) with
             | Some g => emit (CodecDelete g) (emit (CodecStop g) s1)
             | None => s1
             end))).
Proof.
  intros Hl. unfold no_leak, installed.
  destruct (g_codec (globals s1)) as [g |];
    unfold LOGI, emit, set_globals;
    cbn [trace globals g_codec with_codec with_frame_size];
    rewrite ?live_after_app, Hl; cbn [live_after remove_codec].
  - destruct (Z.eqb_spec c g) as [-> | _]; [reflexivity |].
    rewrite Z.eqb_refl. reflexivity.
  - reflexivity.
Qed.

Lemma create_decoder_no_leak a1 a2 width height s :
  no_leak s -> no_leak (snd (create_decoder a1 a2 width height s)).
Proof.
  intros H. unfold create_decoder.
  destruct (build_decoder_live a1 width height s) as (evs1 & E1 & L1).
  rewrite E1. unfold no_leak, installed in H.
  assert (Hfirst : forall c1, a1 = Starts c1 ->
            no_leak
              (LOGI "MediaCodec H.264 decoder started"
                 (set_globals (with_frame_size width height)
                    (set_globals (with_codec (Some c1))
                       match g_codec (globals s) with
                       | Some g =>
                           emit (CodecDelete g)
                             (emit (CodecStop g)
                                (mkState (globals s) (locals s) (sock_in s)
                                   (trace s ++ evs1)))
                       | None =>
                           mkState (globals s) (locals s) (sock_in s)
                             (trace s ++ evs1)
                       end)))).
  { intros c1 ->.
    apply (install_no_leak c1 width height
             (mkState (globals s) (locals s) (sock_in s) (trace s ++ evs1))).
    cbn [trace globals]. rewrite live_after_app, H, L1.
    destruct (g_codec (globals s)); reflexivity. }
  assert (Hretry :
            match a1 with Starts _ => True | _ =>
              no_leak
                (snd
                   (let (codec, s0) :=
                      match g_codec (globals s) with
                      | Some o =>
                          build_decoder a2 width height
                            (emit (CodecDelete o)
                               (emit (CodecStop o)
                                  (LOGI "Retrying decoder configure after tearing down old instance"
                                     (set_globals (with_codec None)
                                        (mkState (globals s) (locals s)
                                           (sock_in s) (trace s ++ evs1))))))
                      | None =>
                          (None,
                           set_globals (with_codec None)
                             (mkState (globals s) (locals s) (sock_in s)
                                (trace s ++ evs1)))
                      end in
                    match codec with
                    | Some c =>
                        (1,
                         LOGI "MediaCodec H.264 decoder started"
                           (set_globals (with_frame_size width height)
                              (set_globals (with_codec (Some c))
                                 match g_codec (globals s0) with
                                 | Some g =>
                                     emit (CodecDelete g) (emit (CodecStop g) s0)
                                 | None => s0
                                 end)))
                    | None => (0, s0)
                    end))
            end).
  { assert (Hfail : forall init,
              live_after init evs1
              = match a1 with Starts c => c :: init | _ => init end)
      by exact L1.
    destruct a1; [| | | exact Logic.I];
      (destruct (g_codec (globals s)) as [old |] eqn:Hold;
       [ match goal with
         | |- context [build_decoder a2 width height ?s0] =>
             destruct (build_decoder_live a2 width height s0)
               as (evs2 & E2 & L2); rewrite E2
         end;
         destruct a2 as [| c2 | c2 | c2]; cbn [snd];
         [ | | | apply install_no_leak ];
         unfold no_leak, installed, LOGI, emit, set_globals;
         cbn [trace globals g_codec with_codec with_frame_size];
         rewrite !live_after_app, H, Hfail, ?L2;
         cbn [live_after app]; rewrite ?remove_codec_head, ?L2; reflexivity
       | cbn [snd]; unfold no_leak, installed, set_globals;
         cbn [trace globals g_codec with_codec];
         rewrite live_after_app, H, Hfail; reflexivity ]). }
  destruct a1 as [| c1 | c1 | c1]; cbn [globals] in *;
    try exact Hretry.
  apply (Hfirst c1 eq_refl).
Qed.

Lemma destroy_decoder_releases s :
  no_leak s ->
  live_after [] (trace (destroy_decoder s)) = []
  /\ g_codec (globals (destroy_decoder s)) = None.
Proof.
  unfold no_leak, installed, destroy_decoder. intros H.
  destruct (g_codec (globals s)) as [g |] eqn:E.
  - unfold emit, set_globals. cbn [trace globals g_codec with_codec].
    rewrite <- app_assoc, live_after_app, H. cbn [app live_after].
    rewrite remove_codec_head. auto.
  - rewrite E. auto.
Qed.

Lemma drain_outputs_quiet codec answers : forall s,
  quiet_step s (drain_outputs codec answers s).
Proof.
  induction answers as [| [idx size] more IH]; intros s; cbn [drain_outputs].
  - apply quiet_step_refl.
  - destruct (idx >=? 0); [| apply quiet_step_refl].
    eapply quiet_step_trans; [| apply IH].
    apply quiet_step_emit. reflexivity.
Qed.

(** Peels the events and field updates off the state reached. *)
Ltac quiet :=
  unfold send_ack, LOGE, LOGI;
  repeat match goal with
    | |- quiet_step ?s ?s => apply quiet_step_refl
    | |- quiet_step ?s (emit ?ev ?s1) =>
        apply (quiet_step_trans s s1 (emit ev s1));
        [| apply quiet_step_emit; reflexivity ]
    | |- quiet_step ?s (drain_outputs ?c ?a ?s1) =>
        apply (quiet_step_trans s s1 (drain_outputs c a s1));
        [| apply drain_outputs_quiet ]
    | |- quiet_step ?s (set_locals ?f ?s1) =>
        apply (quiet_step_trans s s1 (set_locals f s1));
        [| apply quiet_step_fields; reflexivity ]
    | |- quiet_step ?s (set_sock_in ?i ?s1) =>
        apply (quiet_step_trans s s1 (set_sock_in i s1));
        [| apply quiet_step_fields; reflexivity ]
    end.

Lemma feed_nal_quiet e data len is_idr seq s :
  quiet_step s (snd (feed_nal e data len is_idr seq s)).
Proof.
  unfold feed_nal.
  destruct (g_codec (globals s)) as [c |]; [| apply quiet_step_refl].
  destruct (env_input_idx e <? 0); cbn [snd]; [quiet |].
  destruct (negb _); cbn [snd]; quiet.
Qed.

Lemma notify_quiet mf b s : quiet_step s (notify_connection_state mf b s).
Proof.
  unfold notify_connection_state.
  destruct (negb (g_activity (globals s))); [quiet |].
  destruct mf; quiet.
Qed.

Lemma update_stats_quiet e s : quiet_step s (update_stats e s).
Proof.
  unfold update_stats. destruct (env_stats_due e && _); quiet.
Qed.

Lemma read_exact_quiet n s : quiet_step s (snd (read_exact n s)).
Proof.
  destruct (read_exact_frame n s) as (G & _ & T).
  apply quiet_step_fields; [rewrite G; reflexivity | exact T].
Qed.


Lemma preserves_no_leak_act f :
  (forall s, quiet_step s (f s)) -> preserves no_leak (act f).
Proof. intros Hf s Hs. apply (no_leak_quiet s); [apply Hf | exact Hs]. Qed.

Lemma preserves_no_leak_call {A} (f : State -> A * State) :
  (forall s, quiet_step s (snd (f s))) -> preserves no_leak (call f).
Proof.
  intros Hf s Hs. unfold call. specialize (Hf s).
  destruct (f s) as [a s']. cbn [snd] in *.
  apply (no_leak_quiet s); assumption.
Qed.

Lemma preserves_no_leak_read n msg : preserves no_leak (read_or_break n msg).
Proof.
  intros s Hs. unfold read_or_break.
  pose proof (read_exact_quiet n s) as Hq.
  destruct (read_exact n s) as [[[] bs] s']; cbn [snd] in *.
  - apply (no_leak_quiet s); assumption.
  - apply (no_leak_quiet s); [| exact Hs].
    destruct msg; [| exact Hq].
    apply (quiet_step_trans s s'); [exact Hq | quiet].
Qed.

Lemma preserves_no_leak_read_payload len : preserves no_leak (read_payload len).
Proof.
  intros s Hs. unfold read_payload.
  pose proof (read_exact_quiet (to_int len) s) as Hq.
  destruct (read_exact (to_int len) s) as [[[] bs] s']; cbn [snd] in *;
    apply (no_leak_quiet s); try exact Hs;
    (apply (quiet_step_trans s s'); [exact Hq |]).
  - apply quiet_step_fields; reflexivity.
  - unfold LOGE.
    match goal with
    | |- quiet_step ?s0 (emit ?ev ?s1) =>
        apply (quiet_step_trans s0 s1);
        [apply quiet_step_fields; reflexivity
        | apply quiet_step_emit; reflexivity]
    end.
Qed.

(** Discharges [preserves no_leak] for the parts of the loop body. *)
Ltac leak_free :=
  unfold LOGE, LOGI;
  repeat match goal with
    | |- preserves _ (ret _) => apply preserves_ret
    | |- preserves _ (exit_with _) => apply preserves_exit
    | |- preserves _ get => apply preserves_get
    | |- preserves _ (read_or_break _ _) => apply preserves_no_leak_read
    | |- preserves _ (read_payload _) => apply preserves_no_leak_read_payload
    | |- preserves _ (bind _ _) => apply preserves_bind; [| intros ? ]
    | |- preserves _ (if ?b then _ else _) => destruct b
    | |- preserves _ (act _) =>
        apply preserves_no_leak_act; intros ?;
        first [ apply notify_quiet
              | apply update_stats_quiet
              | apply quiet_step_emit; reflexivity
              | apply quiet_step_fields; reflexivity ]
    | |- preserves _ (call (create_decoder _ _ _ _)) =>
        intros ? ?; unfold call;
        match goal with
        | H : no_leak ?s |- context [create_decoder ?a1 ?a2 ?w ?h ?s] =>
            pose proof (create_decoder_no_leak a1 a2 w h s H);
            destruct (create_decoder a1 a2 w h s); assumption
        end
    | |- preserves _ (call (feed_nal _ _ _ _ _)) =>
        apply preserves_no_leak_call; intros ?; apply feed_nal_quiet
    end.

Lemma loop_body_m_no_leak e : preserves no_leak (loop_body_m e).
Proof.
  unfold loop_body_m, resolution_command, value_command, read_video_frame,
    read_frame_header, receive_payload, grow_nal_buf, feed_frame.
  leak_free.
Qed.

Lemma loop_body_no_leak e s : no_leak s -> no_leak (snd (loop_body e s)).
Proof.
  intros Hs. unfold loop_body.
  pose proof (loop_body_m_no_leak e s Hs) as H.
  destruct (loop_body_m e s) as [[c | u] s']; exact H.
Qed.

Lemma receive_loop_no_leak iters : forall s,
  no_leak s -> no_leak (receive_loop iters s).
Proof.
  induction iters as [| [running e] more IH]; intros s Hs;
    cbn [receive_loop]; [exact Hs |].
  destruct running; [| exact Hs].
  pose proof (loop_body_no_leak e s Hs) as Hb.
  destruct (loop_body e s) as [[] s']; cbn [snd] in Hb; auto.
Qed.

Lemma connection_no_leak a s : no_leak s -> no_leak (connection a s).
Proof.
  intros Hs. unfold connection.
  destruct (negb (att_socket_ok a));
    [apply (no_leak_quiet s); [quiet | exact Hs] |].
  destruct (negb (att_connect_ok a));
    [apply (no_leak_quiet s); [quiet | exact Hs] |].
  match goal with
  | |- no_leak (notify_connection_state ?mf ?b ?s1) =>
      apply (no_leak_quiet s1); [apply notify_quiet |]
  end.
  match goal with
  | |- no_leak (LOGI ?m ?s1) => apply (no_leak_quiet s1); [quiet |]
  end.
  apply receive_loop_no_leak.
  apply (no_leak_quiet s); [quiet | exact Hs].
Qed.

Lemma connect_loop_no_leak attempts : forall s,
  no_leak s -> no_leak (connect_loop attempts s).
Proof.
  induction attempts as [| a more IH]; intros s Hs; cbn [connect_loop];
    [exact Hs |].
  destruct (att_running a); [| exact Hs].
  apply IH. apply connection_no_leak. exact Hs.
Qed.

Lemma decode_thread_no_leak e0 malloc_ok attempts s :
  no_leak s -> no_leak (decode_thread e0 malloc_ok attempts s).
Proof.
  intros Hs. unfold decode_thread.
  set (s1 := LOGI "Decode thread started" s).
  assert (H1 : no_leak s1)
    by (subst s1; apply (no_leak_quiet s); [quiet | exact Hs]).
  set (s2 := if g_window (globals s1) && _ then _ else s1).
  assert (H2 : no_leak s2).
  { subst s2. destruct (g_window (globals s1) && _); [| exact H1].
    apply create_decoder_no_leak. exact H1. }
  clearbody s2. clear H1 Hs. clearbody s1.
  set (s3 := set_globals (with_nal_buf [])
               (set_globals (with_nal_buf_capacity INITIAL_NAL_BUF_CAPACITY) s2)).
  assert (H3 : no_leak s3)
    by (subst s3; apply (no_leak_quiet s2);
        [apply quiet_step_fields; reflexivity | exact H2]).
  clearbody s3.
  destruct (negb malloc_ok).
  - apply (no_leak_quiet s3); [quiet | exact H3].
  - pose proof (connect_loop_no_leak attempts s3 H3) as H4.
    apply (no_leak_quiet (connect_loop attempts s3)); [| exact H4].
    unfold LOGI.
    match goal with
    | |- quiet_step ?s0 (emit ?ev ?s4) =>
        apply (quiet_step_trans s0 s4);
        [apply quiet_step_fields; reflexivity
        | apply quiet_step_emit; reflexivity]
    end.
Qed.

(** X5: [build_decoder] returns an instance exactly when the platform
    creates, configures and starts it; on each of its failure paths the
    instance it had created is deleted again.  So after the call the decoder
    instances that exist are those that existed before plus the one
    returned, and nothing else of the state has changed. *)
Theorem build_decoder_never_leaks :
  forall (a : BuildAnswer) (width height : Z) (s : State) (init : list Codec),
    let r := fst (build_decoder a width height s) in
    let s' := snd (build_decoder a width height s) in
    exists evs,
      trace s' = trace s ++ evs
      /\ globals s' = globals s /\ locals s' = locals s
      /\ sock_in s' = sock_in s
      /\ (r = None <-> build_fails a = true)
      /\ live_after init evs
         = match r with Some c => c :: init | None => init end.
Proof.
  intros a width height s init r s'. subst r s'.
  destruct (build_decoder_live a width height s) as (evs & E & L).
  exists evs. rewrite E. cbn [fst snd trace globals locals sock_in].
  repeat split; try reflexivity.
  - destruct a; [reflexivity .. | discriminate].
  - destruct a; [reflexivity .. | discriminate].
  - rewrite L. destruct a; reflexivity.
Qed.

Section CreateDecoderResult.

Variables (a1 a2 : BuildAnswer) (width height : Z) (s : State).

Let r := fst (create_decoder a1 a2 width height s).
Let s' := snd (create_decoder a1 a2 width height s).

Lemma create_decoder_result :
  (r = 1 /\ g_frame_w (globals s') = width /\ g_frame_h (globals s') = height
   /\ exists c, g_codec (globals s') = Some c
        /\ (a1 = Starts c
            \/ (build_fails a1 = true /\ a2 = Starts c
                /\ g_codec (globals s) <> None)))
  \/ (r = 0 /\ g_codec (globals s') = None
      /\ g_frame_w (globals s') = g_frame_w (globals s)
      /\ g_frame_h (globals s') = g_frame_h (globals s)
      /\ build_fails a1 = true
      /\ (build_fails a2 = true \/ g_codec (globals s) = None)).
Proof.
  subst r s'. unfold create_decoder.
  destruct a1 as [| c1 | c1 | c1].
  4: { left. cbn [build_decoder]. cbn [emit globals fst snd].
       destruct (g_codec (globals s));
         cbn; (split; [reflexivity |]); (split; [reflexivity |]);
         (split; [reflexivity |]); exists c1; auto. }
  all: cbn [build_decoder]; unfold LOGE, LOGI, emit, set_globals;
    cbn [globals g_codec with_codec];
    destruct (g_codec (globals s)) as [old |];
    [ destruct a2 as [| c2 | c2 | c2]; cbn;
      [ right; repeat split; auto ..
      | left; repeat split; try reflexivity; exists c2; split;
        [reflexivity | right; repeat split; congruence] ]
    | right; cbn; repeat split; auto ].
Qed.

End CreateDecoderResult.

(** X6: [create_decoder] returns 1 exactly when it leaves a decoder of the
    requested size installed, and 0 exactly when it leaves none installed.
    A failed creation takes the decoder away that was installed before and
    keeps the frame size; and whenever the instances that exist were the
    installed one before the call, they are so after it. *)
Theorem create_decoder_installs_or_clears :
  forall (a1 a2 : BuildAnswer) (width height : Z) (s : State),
    let r := fst (create_decoder a1 a2 width height s) in
    let s' := snd (create_decoder a1 a2 width height s) in
    (r = 1 \/ r = 0)
    /\ (r = 1 ->
        g_codec (globals s') <> None
        /\ g_frame_w (globals s') = width /\ g_frame_h (globals s') = height)
    /\ (r = 0 ->
        g_codec (globals s') = None
        /\ g_frame_w (globals s') = g_frame_w (globals s)
        /\ g_frame_h (globals s') = g_frame_h (globals s))
    /\ (no_leak s -> no_leak s').
Proof.
  intros a1 a2 width height s r s'. subst r s'.
  split; [| split; [| split]].
  - destruct (create_decoder_result a1 a2 width height s) as [H | H];
      [left | right]; apply H.
  - intros Hr.
    destruct (create_decoder_result a1 a2 width height s)
      as [(_ & Hw & Hh & c & Hc & _) | (H0 & _)].
    + rewrite Hc. repeat split; [discriminate | exact Hw | exact Hh].
    + rewrite H0 in Hr. discriminate.
  - intros Hr.
    destruct (create_decoder_result a1 a2 width height s)
      as [(H1 & _) | (_ & Hc & Hw & Hh & _)].
    + rewrite H1 in Hr. discriminate.
    + auto.
  - apply create_decoder_no_leak.
Qed.

(** A resolution change while instance 1 is installed and the platform gives
    out no second instance: the retry, too, fails, and no decoder is left. *)
Lemma create_decoder_installs_or_clears_witness :
  no_leak (started_state [])
  /\ fst (create_decoder CreateFails (ConfigureFails 3) 800 600
            (started_state [])) = 0
  /\ no_leak (snd (create_decoder CreateFails (ConfigureFails 3) 800 600
                     (started_state []))).
Proof.
  assert (H : no_leak (started_state [])) by reflexivity.
  split; [exact H |]. split; [reflexivity |].
  exact (proj2 (proj2 (proj2
           (create_decoder_installs_or_clears CreateFails (ConfigureFails 3)
              800 600 (started_state [])))) H).
Defined.

Lemma nativeStart_no_leak g_running window e s :
  no_leak s -> no_leak (snd (nativeStart g_running window e s)).
Proof.
  intros Hs. unfold nativeStart. destruct g_running; [exact Hs |].
  cbn [snd]. apply create_decoder_no_leak.
  apply (no_leak_quiet s); [| exact Hs].
  apply quiet_step_fields; reflexivity.
Qed.

Lemma nativeStop_releases s :
  no_leak s ->
  live_after [] (trace (nativeStop s)) = []
  /\ globals (nativeStop s)
     = mkGlobals false false None (g_frame_w (globals s))
         (g_frame_h (globals s)) (g_nal_buf (globals s))
         (g_nal_buf_capacity (globals s)).
Proof.
  intros Hs. destruct (destroy_decoder_releases s Hs) as [Hl Hc].
  unfold nativeStop. cbn [trace set_globals globals].
  split; [exact Hl |].
  unfold with_activity, with_window. cbn.
  rewrite Hc. unfold destroy_decoder.
  destruct (g_codec (globals s)); reflexivity.
Qed.

(** X7: the worker thread never leaks a decoder instance.  If the instances
    that exist are exactly the installed one (or none), this still holds
    after every iteration of the receive loop, whatever packet or error it
    meets, after every connection, and when [decode_thread] returns. *)
Theorem worker_never_leaks_a_decoder :
  forall s : State,
    no_leak s ->
    (forall e, no_leak (snd (loop_body e s)))
    /\ (forall iters, no_leak (receive_loop iters s))
    /\ (forall attempts, no_leak (connect_loop attempts s))
    /\ (forall e0 malloc_ok attempts,
          no_leak (decode_thread e0 malloc_ok attempts s)).
Proof.
  intros s Hs. split; [| split; [| split]].
  - intros e. apply loop_body_no_leak. exact Hs.
  - intros iters. apply receive_loop_no_leak. exact Hs.
  - intros attempts. apply connect_loop_no_leak. exact Hs.
  - intros e0 malloc_ok attempts. apply decode_thread_no_leak. exact Hs.
Qed.

(** A resolution change to 800x600 replaces instance 1 by instance 2. *)
Lemma worker_never_leaks_a_decoder_witness :
  let s := started_state (encode_resolution 800 600) in
  no_leak s
  /\ no_leak (snd (loop_body env0 s))
  /\ g_codec (globals (snd (loop_body env0 s))) = Some 2.
Proof.
  assert (H : no_leak (started_state (encode_resolution 800 600)))
    by reflexivity.
  split; [exact H |]. split; [| reflexivity].
  exact (proj1 (worker_never_leaks_a_decoder _ H) env0).
Defined.

(** X8: a whole session releases every decoder instance it has built.  From
    a state without leak, [nativeStart] (while not running), the worker
    thread with whatever the network and the platform do, and [nativeStop]
    leave no decoder instance in existence, none installed, and the window
    and activity pointers cleared. *)
Theorem session_releases_every_decoder :
  forall (window : bool) (e_start e0 : Env) (malloc_ok : bool)
         (attempts : list Attempt) (s : State),
    no_leak s ->
    let s' := session false window e_start e0 malloc_ok attempts s in
    live_after [] (trace s') = []
    /\ g_codec (globals s') = None
    /\ g_window (globals s') = false
    /\ g_activity (globals s') = false.
Proof.
  intros window e_start e0 malloc_ok attempts s Hs s'. subst s'.
  unfold session.
  pose proof (nativeStart_no_leak false window e_start s Hs) as H1.
  unfold nativeStart in *. cbn [snd] in H1.
  match goal with
  | |- context [decode_thread e0 malloc_ok attempts ?s1] =>
      pose proof (decode_thread_no_leak e0 malloc_ok attempts s1 H1) as H2;
      destruct (nativeStop_releases _ H2) as [Hl Hg]
  end.
  split; [exact Hl |]. rewrite Hg. auto.
Qed.

Lemma session_releases_every_decoder_witness :
  let a := mkAttempt true true true
             (frame_then Byte.x01 1 [Byte.xaa; Byte.xbb] []
                ++ encode_resolution 800 600)
             [(true, env0); (true, env0); (true, env0)] true in
  let s' := session false true env0 env0 true
              [a; mkAttempt false true true [] [] true] initial_state in
  no_leak initial_state
  /\ live_after [] (trace s') = []
  /\ builds (trace s') = 2%nat.
Proof.
  assert (H : no_leak initial_state) by reflexivity.
  split; [exact H |]. split; [| reflexivity].
  exact (proj1 (session_releases_every_decoder true env0 env0 true _ _ H)).
Defined.

(** ** Framing errors and commands *)

Section Dispatch.

Variable e : Env.

Lemma loop_body_short_stream s :
  (length (sock_in s) < 2)%nat ->
  loop_body e s = (Break, LOGE "Connection lost" (set_sock_in [] s)).
Proof.
  intros H. unfold loop_body, loop_body_m, bind, read_or_break, read_exact.
  cbn [Z.leb Z.compare Z.to_nat Pos.to_nat Pos.iter_op Nat.add].
  destruct (sock_in s) as [| b0 [| b1 rest]]; cbn [length] in H;
    [reflexivity | reflexivity | lia].
Qed.

Lemma loop_body_bad_magic s b0 b1 rest :
  sock_in s = b0 :: b1 :: rest ->
  byte.unsigned b0 <> 218 ->
  loop_body e s = (Break, LOGE "Bad magic" (set_sock_in rest s)).
Proof.
  intros Hs Hb. unfold loop_body, loop_body_m.
  rewrite (bind_read 2 _ [b0; b1] rest) by (first [exact Hs | reflexivity]).
  unfold at_; cbn [nth]. unfold MAGIC_FRAME_0.
  destruct (Z.eqb_spec (byte.unsigned b0) 218); [contradiction |].
  reflexivity.
Qed.

Lemma loop_body_unknown_type s b0 b1 rest :
  sock_in s = b0 :: b1 :: rest ->
  byte.unsigned b0 = 218 ->
  byte.unsigned b1 <> 127 -> byte.unsigned b1 <> 126 ->
  loop_body e s = (Break, LOGE "Unknown packet type" (set_sock_in rest s)).
Proof.
  intros Hs Hb0 Hc Hf. unfold loop_body, loop_body_m.
  rewrite (bind_read 2 _ [b0; b1] rest) by (first [exact Hs | reflexivity]).
  unfold at_; cbn [nth]. unfold MAGIC_FRAME_0, MAGIC_CMD_1, MAGIC_FRAME_1.
  rewrite Hb0. cbn [Z.eqb Pos.eqb negb].
  destruct (Z.eqb_spec (byte.unsigned b1) 127); [contradiction |].
  destruct (Z.eqb_spec (byte.unsigned b1) 126); [contradiction |].
  reflexivity.
Qed.

(** The loop body on a command packet, up to the command byte. *)
Lemma loop_body_m_command s cmd tail :
  sock_in s = [byte.of_Z 218; byte.of_Z 127; cmd] ++ tail ->
  loop_body_m e s
  = (if byte.unsigned cmd =? CMD_RESOLUTION
     then resolution_command e
     else value_command e (byte.unsigned cmd)) (set_sock_in tail s).
Proof.
  intros Hs. unfold loop_body_m.
  rewrite (bind_read 2 _ [byte.of_Z 218; byte.of_Z 127] ([cmd] ++ tail))
    by (first [exact Hs | reflexivity]).
  change (at_ [byte.of_Z 218; byte.of_Z 127] 0) with 218.
  change (at_ [byte.of_Z 218; byte.of_Z 127] 1) with 127.
  cbn [MAGIC_FRAME_0 MAGIC_CMD_1 Z.eqb Pos.eqb negb].
  rewrite (bind_read 1 _ [cmd] tail) by reflexivity.
  reflexivity.
Qed.

Lemma loop_body_value_command s cmd value rest :
  sock_in s = encode_command cmd value ++ rest ->
  byte.unsigned cmd <> 4 ->
  loop_body e s
  = (Continue,
     let s1 := set_sock_in rest s in
     if g_activity (globals s) && env_method_found e then
       if byte.unsigned cmd =? 1
       then emit (CallHost "setBrightness" (byte.unsigned value)) s1
       else if byte.unsigned cmd =? 2
            then emit (CallHost "setWarmth" (byte.unsigned value)) s1
            else s1
     else s1).
Proof.
  intros Hs Hc. unfold loop_body.
  rewrite (loop_body_m_command s cmd ([value] ++ rest)) by exact Hs.
  unfold CMD_RESOLUTION.
  destruct (Z.eqb_spec (byte.unsigned cmd) 4); [contradiction |].
  unfold value_command.
  rewrite (bind_read 1 _ [value] rest) by reflexivity.
  cbv beta iota delta [bind get ret act exit_with].
  unfold at_; cbn [globals set_sock_in nth]. unfold CMD_BRIGHTNESS.
  destruct (g_activity (globals s)), (env_method_found e),
    (byte.unsigned cmd =? 1), (byte.unsigned cmd =? 2); reflexivity.
Qed.

End Dispatch.

(** X9: there is no resynchronisation: a stream that ends before the two
    magic bytes, a first byte other than [0xDA], or a second byte that is
    neither [0x7E] nor [0x7F] makes the loop body log the error and leave the
    loop; nothing but the stream and the log changes. *)
Theorem framing_error_ends_the_connection :
  forall (e : Env) (s : State),
    ((length (sock_in s) < 2)%nat ->
     loop_body e s = (Break, LOGE "Connection lost" (set_sock_in [] s)))
    /\ (forall b0 b1 rest,
         sock_in s = b0 :: b1 :: rest ->
         (byte.unsigned b0 <> 218 ->
          loop_body e s = (Break, LOGE "Bad magic" (set_sock_in rest s)))
         /\ (byte.unsigned b0 = 218 ->
             byte.unsigned b1 <> 127 -> byte.unsigned b1 <> 126 ->
             loop_body e s
             = (Break, LOGE "Unknown packet type" (set_sock_in rest s)))).
Proof.
  intros e s. split.
  - apply loop_body_short_stream.
  - intros b0 b1 rest Hs. split.
    + apply (loop_body_bad_magic e s b0 b1 rest Hs).
    + apply (loop_body_unknown_type e s b0 b1 rest Hs).
Qed.

Lemma framing_error_ends_the_connection_witness :
  let s := started_state [Byte.x00; Byte.x7e; Byte.x01] in
  sock_in s = [Byte.x00; Byte.x7e; Byte.x01]
  /\ byte.unsigned Byte.x00 <> 218
  /\ loop_body env0 s = (Break, LOGE "Bad magic" (set_sock_in [Byte.x01] s)).
Proof.
  assert (H : byte.unsigned Byte.x00 <> 218) by discriminate.
  split; [reflexivity |]. split; [exact H |].
  exact (proj1 (proj2 (framing_error_ends_the_connection env0
                         (started_state [Byte.x00; Byte.x7e; Byte.x01]))
                  Byte.x00 Byte.x7e [Byte.x01] eq_refl) H).
Defined.

(** X10: a command packet [0xDA 0x7F id value] with an id other than 4 takes
    exactly its four bytes and the loop goes on.  When the host activity is
    there and the method is found, id 1 calls [setBrightness] and id 2 calls
    [setWarmth] with the value byte; any other id does nothing at all. *)
Theorem simple_command_dispatch :
  forall (e : Env) (s : State) (cmd value : byte) (rest : list byte),
    sock_in s = encode_command cmd value ++ rest ->
    byte.unsigned cmd <> 4 ->
    loop_body e s
    = (Continue,
       let s1 := set_sock_in rest s in
       if g_activity (globals s) && env_method_found e then
         if byte.unsigned cmd =? 1
         then emit (CallHost "setBrightness" (byte.unsigned value)) s1
         else if byte.unsigned cmd =? 2
              then emit (CallHost "setWarmth" (byte.unsigned value)) s1
              else s1
       else s1).
Proof. intros. apply loop_body_value_command; assumption. Qed.

Lemma simple_command_dispatch_witness :
  let s := started_state (encode_command Byte.x02 Byte.x80 ++ [Byte.xda]) in
  sock_in s = encode_command Byte.x02 Byte.x80 ++ [Byte.xda]
  /\ byte.unsigned Byte.x02 <> 4
  /\ loop_body env0 s
     = (Continue, emit (CallHost "setWarmth" 128) (set_sock_in [Byte.xda] s)).
Proof.
  assert (H : byte.unsigned Byte.x02 <> 4) by discriminate.
  split; [reflexivity |]. split; [exact H |].
  exact (simple_command_dispatch env0
           (started_state (encode_command Byte.x02 Byte.x80 ++ [Byte.xda]))
           Byte.x02 Byte.x80 [Byte.xda] eq_refl H).
Defined.

Section ResolutionChange.

Variable e : Env.



End ResolutionChange.



(** ** What reaches the decoder and the host *)

Section FeederEvents.

Lemma queued_app a b : queued (a ++ b) = queued a ++ queued b.
Proof.
  induction a as [| ev a IH]; [reflexivity |].
  destruct ev; cbn [app queued]; rewrite IH; reflexivity.
Qed.

Lemma host_calls_app a b : host_calls (a ++ b) = host_calls a ++ host_calls b.
Proof.
  induction a as [| ev a IH]; [reflexivity |].
  destruct ev; cbn [app host_calls]; rewrite IH; reflexivity.
Qed.

Lemma drain_outputs_releases codec answers :
  forall s, exists evs,
    drain_outputs codec answers s
    = mkState (globals s) (locals s) (sock_in s) (trace s ++ evs)
    /\ sent evs = [] /\ queued evs = [] /\ host_calls evs = [].
Proof.
  induction answers as [| [idx size] more IH]; intros s; cbn [drain_outputs].
  - exists []. rewrite app_nil_r. destruct s; auto.
  - destruct (idx >=? 0).
    + destruct (IH (emit (ReleaseOutput codec idx (size >? 0)) s))
        as (evs & E & Hs & Hq & Hh).
      exists (ReleaseOutput codec idx (size >? 0) :: evs).
      rewrite E. cbn [emit globals locals sock_in trace].
      rewrite <- app_assoc. auto.
    + exists []. rewrite app_nil_r. destruct s; auto.
Qed.

Variable e : Env.

Lemma feed_nal_events data len is_idr seq s c :
  g_codec (globals s) = Some c ->
  exists evs,
    feed_nal e data len is_idr seq s
    = (1, mkState (globals s) (locals s) (sock_in s) (trace s ++ evs))
    /\ sent evs = [ack_bytes seq]
    /\ host_calls evs = []
    /\ queued evs = feed_queue e data len is_idr.
Proof.
  intros H. unfold feed_nal, feed_queue. rewrite H.
  destruct (env_input_idx e <? 0).
  - eexists. unfold send_ack, emit; cbn [globals locals sock_in trace].
    rewrite <- app_assoc. repeat split; reflexivity.
  - destruct (env_input_buf e) as [buf_size |];
      [destruct (len >? buf_size) |]; cbn [negb].
    + eexists. unfold send_ack, LOGE, emit; cbn [globals locals sock_in trace].
      rewrite <- !app_assoc. repeat split; reflexivity.
    + match goal with
      | |- context [drain_outputs ?c0 ?a ?s0] =>
          destruct (drain_outputs_releases c0 a s0) as (evs & E & Hs & Hq & Hh)
      end.
      rewrite E.
      eexists. unfold send_ack, emit; cbn [globals locals sock_in trace].
      rewrite <- !app_assoc. split; [reflexivity |].
      cbn [app sent host_calls queued].
      rewrite sent_app, host_calls_app, queued_app, Hs, Hq, Hh.
      repeat split; reflexivity.
    + eexists. unfold send_ack, LOGE, emit; cbn [globals locals sock_in trace].
      rewrite <- !app_assoc. repeat split; reflexivity.
Qed.

Lemma notify_connection_state_events b s :
  notify_connection_state (env_method_found e) b s
  = if g_activity (globals s) && env_method_found e
    then emit (CallHost "onConnectionState" (if b then 1 else 0)) s
    else s.
Proof.
  unfold notify_connection_state.
  destruct (g_activity (globals s)), (env_method_found e); reflexivity.
Qed.

Lemma update_stats_events s :
  exists evs,
    trace (update_stats e s) = trace s ++ evs
    /\ globals (update_stats e s) = globals s
    /\ sock_in (update_stats e s) = sock_in s
    /\ frame_count (locals (update_stats e s))
       = to_int (frame_count (locals s) + 1)
    /\ last_seq (locals (update_stats e s)) = last_seq (locals s)
    /\ sent evs = [] /\ queued evs = [] /\ host_calls evs = [].
Proof.
  unfold update_stats.
  destruct (env_stats_due e && (to_int (stat_frames (locals s) + 1) >? 0)).
  - eexists. cbn. split; [reflexivity | auto 9].
  - exists []. cbn. rewrite app_nil_r. auto 9.
Qed.

Lemma feed_frame_events h s c :
  g_codec (globals s) = Some c ->
  exists s' evs,
    feed_frame e h s = (inr tt, s')
    /\ trace s' = trace s ++ evs
    /\ globals s' = globals s
    /\ sock_in s' = sock_in s
    /\ frame_count (locals s') = to_int (frame_count (locals s) + 1)
    /\ last_seq (locals s') = last_seq (locals s)
    /\ sent evs = [ack_bytes (fh_seq h)]
    /\ queued evs
       = feed_queue e (g_nal_buf (globals s)) (fh_payload_len h)
           (negb (Z.land (fh_flags h) FLAG_KEYFRAME =? 0))
    /\ host_calls evs = connected_calls e s.
Proof.
  intros H. unfold feed_frame, bind, get, call.
  destruct (feed_nal_events (g_nal_buf (globals s)) (fh_payload_len h)
              (negb (Z.land (fh_flags h) FLAG_KEYFRAME =? 0)) (fh_seq h) s c H)
    as (evs & E & Hs & Hh & Hq).
  rewrite E. cbn [Z.eqb].
  unfold connected_calls. cbn [locals].
  destruct (frame_count (locals s) =? 0); cbn [andb]; unfold act, ret.
  - rewrite notify_connection_state_events. cbn [globals].
    destruct (g_activity (globals s) && env_method_found e);
      match goal with
      | |- context [update_stats e ?s2] =>
          destruct (update_stats_events s2)
            as (evs3 & T3 & G3 & I3 & F3 & L3 & Hs3 & Hq3 & Hh3)
      end;
      eexists; eexists; (split; [reflexivity |]);
      rewrite T3, G3, I3, F3, L3; unfold emit;
      cbn [trace globals sock_in locals];
      rewrite <- ?app_assoc; (split; [reflexivity |]);
      rewrite ?sent_app, ?queued_app, ?host_calls_app, Hs, Hq, Hh, Hs3, Hq3, Hh3;
      cbn [sent queued host_calls app]; rewrite ?app_nil_r; auto 9.
  - match goal with
    | |- context [update_stats e ?s2] =>
        destruct (update_stats_events s2)
          as (evs3 & T3 & G3 & I3 & F3 & L3 & Hs3 & Hq3 & Hh3)
    end.
    eexists; eexists; (split; [reflexivity |]).
    rewrite T3, G3, I3, F3, L3. cbn [trace globals sock_in locals].
    rewrite <- ?app_assoc. split; [reflexivity |].
    rewrite ?sent_app, ?queued_app, ?host_calls_app, Hs, Hq, Hh, Hs3, Hq3, Hh3.
    rewrite ?app_nil_r; auto 9.
Qed.

End FeederEvents.

(** X12: with a decoder installed [feed_nal] hands the decoder the whole
    frame or nothing, never a truncated one: nothing is queued when no input
    slot comes free in time; the slot is given back empty (size 0) when it is
    NULL or smaller than the frame; otherwise the first [len] bytes of the
    buffer are queued with size [len], flagged as a key frame exactly when
    [is_idr] is set.  In each case it returns 1, sends the one
    acknowledgment and calls no host method. *)
Theorem feed_nal_queues_whole_frame_or_nothing :
  forall (e : Env) (data : list byte) (len : Z) (is_idr : bool) (seq : Z)
         (s : State) (c : Codec),
    g_codec (globals s) = Some c ->
    exists evs,
      feed_nal e data len is_idr seq s
      = (1, mkState (globals s) (locals s) (sock_in s) (trace s ++ evs))
      /\ sent evs = [ack_bytes seq]
      /\ host_calls evs = []
      /\ queued evs
         = if env_input_idx e <? 0 then []
           else
             match env_input_buf e with
             | Some buf_size =>
                 if len >? buf_size then [([], 0, 0)]
                 else [(firstn (Z.to_nat len) data, len,
                        if is_idr then 2 else 0)]
             | None => [([], 0, 0)]
             end.
Proof.
  intros e data len is_idr seq s c H.
  apply (feed_nal_events e data len is_idr seq s c H).
Qed.

(** An input slot of two bytes for a frame of three. *)
Lemma feed_nal_queues_whole_frame_or_nothing_witness :
  let e := mkEnv (Starts 2) (Starts 3) true 0 (Some 2) [] true false in
  g_codec (globals (started_state [])) = Some 1
  /\ exists evs,
      feed_nal e [Byte.x01; Byte.x02; Byte.x03] 3 true 9 (started_state [])
      = (1, mkState (globals (started_state [])) (locals (started_state []))
              (sock_in (started_state [])) (trace (started_state []) ++ evs))
      /\ sent evs = [ack_bytes 9]
      /\ host_calls evs = []
      /\ queued evs = [([], 0, 0)].
Proof.
  split; [reflexivity |].
  exact (feed_nal_queues_whole_frame_or_nothing
           (mkEnv (Starts 2) (Starts 3) true 0 (Some 2) [] true false)
           [Byte.x01; Byte.x02; Byte.x03] 3 true 9 (started_state []) 1
           eq_refl).
Defined.

Section FrameThroughTheLoop.

Variable e : Env.

Lemma keyframe_bit flags :
  negb (Z.land (byte.unsigned flags) FLAG_KEYFRAME =? 0)
  = Z.odd (byte.unsigned flags).
Proof.
  unfold FLAG_KEYFRAME. change 1 with (Z.ones 1).
  rewrite Z.land_ones by lia. change (2 ^ 1) with 2.
  rewrite Zmod_odd. destruct (Z.odd (byte.unsigned flags)); reflexivity.
Qed.

(** The loop body on a well-formed frame while a decoder is installed. *)
Lemma loop_body_frame s flags seq payload rest c :
  sock_in s = frame_then flags seq payload rest ->
  0 <= seq < 2 ^ 32 ->
  Z.of_nat (length payload) < 2 ^ 31 ->
  Z.of_nat (length payload) <= capacity s \/ env_realloc_ok e = true ->
  g_codec (globals s) = Some c ->
  exists s' evs,
    loop_body e s = (Continue, s')
    /\ trace s' = trace s ++ evs
    /\ sock_in s' = rest
    /\ g_codec (globals s') = Some c
    /\ g_activity (globals s') = g_activity (globals s)
    /\ capacity s' = Z.max (capacity s) (Z.of_nat (length payload))
    /\ frame_count (locals s') = to_int (frame_count (locals s) + 1)
    /\ last_seq (locals s') = seq
    /\ sent evs = [ack_bytes seq]
    /\ queued evs
       = feed_queue e payload (Z.of_nat (length payload))
           (Z.odd (byte.unsigned flags))
    /\ host_calls evs = connected_calls e s.
Proof.
  intros Hs Hseq Hlen Hroom Hc.
  assert (Hlen32 : Z.of_nat (length payload) < 2 ^ 32)
    by (change (2 ^ 31) with 2147483648 in Hlen;
        change (2 ^ 32) with 4294967296; lia).
  destruct (loop_body_m_frame e s flags seq payload rest Hs Hseq Hlen32)
    as [Hread Hbody].
  set (h := mkFrameHeader (byte.unsigned flags) seq
              (Z.of_nat (length payload))) in *.
  destruct (receive_payload_read e h (set_sock_in (payload ++ rest) s)
              payload rest eq_refl eq_refl Hlen Hroom)
    as (s1 & E & Hbuf & Hin & Ht & Hcodec & Hcap & Hloc).
  rewrite E in Hread.
  cbn [globals set_sock_in] in Hcodec. rewrite Hc in Hcodec.
  destruct (feed_frame_events e h s1 c Hcodec)
    as (s' & evs & Ef & Tf & Gf & If & Ff & Lf & Sf & Qf & Cf).
  exists s', evs. unfold loop_body.
  rewrite Hbody. unfold bind. rewrite Hread, Ef.
  split; [reflexivity |].
  rewrite Tf, Ht, If, Hin, Ff, Lf, Sf, Qf, Cf. unfold capacity in *. rewrite Gf.
  assert (Hg1 : g_activity (globals s1) = g_activity (globals s)).
  { clear - E.
    cbv beta iota delta
      [receive_payload bind act grow_nal_buf get ret read_payload
       exit_with] in E.
    cbn [globals set_locals set_sock_in] in E.
    destruct (fh_payload_len h >? g_nal_buf_capacity (globals s));
      [destruct (env_realloc_ok e) |];
      try discriminate;
      match type of E with
      | context [read_exact ?n ?s0] =>
          destruct (read_exact_frame n s0) as (G & _ & _);
          destruct (read_exact n s0) as [[[] bs] s2]; cbn [snd] in G;
          inversion E; subst; cbn; rewrite G; reflexivity
      end. }
  rewrite Hloc, Hcap. cbn [globals set_sock_in locals frame_count last_seq
                           fh_payload_len fh_seq fh_flags h track_seq].
  repeat split; try reflexivity; try assumption.
  - unfold h. cbn [fh_payload_len fh_flags].
    rewrite keyframe_bit. unfold feed_queue.
    destruct (env_input_idx e <? 0); [reflexivity |].
    destruct (env_input_buf e) as [n |]; [| reflexivity].
    destruct (Z.of_nat (length payload) >? n); [reflexivity |].
    rewrite Nat2Z.id, Hbuf, firstn_all. reflexivity.
  - unfold connected_calls. rewrite Hg1, Hloc. reflexivity.
Qed.

End FrameThroughTheLoop.

(** X13: a well-formed frame (payload shorter than [2^31] bytes, buffer
    large enough or growable) that arrives while a decoder is installed, an
    input slot is free and the slot is large enough reaches the decoder
    unchanged: exactly one buffer is queued, it holds the payload bytes as
    they were sent, its size is the payload length, and it is flagged as a
    key frame exactly when bit 0 of the flags byte is set.  The frame is
    acknowledged once and the loop goes on behind it. *)
Theorem frame_reaches_the_decoder_unchanged :
  forall (e : Env) (s : State) (flags : byte) (seq : Z)
         (payload rest : list byte) (c : Codec) (buf_size : Z),
    sock_in s = frame_then flags seq payload rest ->
    0 <= seq < 2 ^ 32 ->
    Z.of_nat (length payload) < 2 ^ 31 ->
    Z.of_nat (length payload) <= capacity s \/ env_realloc_ok e = true ->
    g_codec (globals s) = Some c ->
    0 <= env_input_idx e ->
    env_input_buf e = Some buf_size ->
    Z.of_nat (length payload) <= buf_size ->
    exists s' evs,
      loop_body e s = (Continue, s')
      /\ trace s' = trace s ++ evs
      /\ sock_in s' = rest
      /\ queued evs
         = [(payload, Z.of_nat (length payload),
             if Z.odd (byte.unsigned flags) then 2 else 0)]
      /\ sent evs = [ack_bytes seq].
Proof.
  intros e s flags seq payload rest c buf_size Hs Hseq Hlen Hroom Hc
    Hidx Hbuf Hfit.
  destruct (loop_body_frame e s flags seq payload rest c Hs Hseq Hlen Hroom Hc)
    as (s' & evs & E & T & I & _ & _ & _ & _ & _ & S & Q & _).
  exists s', evs. repeat split; try assumption.
  rewrite Q. unfold feed_queue. rewrite Hbuf.
  destruct (Z.ltb_spec (env_input_idx e) 0); [lia |].
  destruct (Z.gtb_spec (Z.of_nat (length payload)) buf_size); [lia |].
  rewrite Nat2Z.id, firstn_all. reflexivity.
Qed.

Lemma frame_reaches_the_decoder_unchanged_witness :
  let payload := [Byte.xaa; Byte.xbb; Byte.xcc; Byte.xdd] in
  let s := started_state (frame_then Byte.x01 1 payload []) in
  (0 <= 1 < 2 ^ 32) /\ Z.of_nat (length payload) < 2 ^ 31
  /\ 0 <= env_input_idx env0 /\ Z.of_nat (length payload) <= 1048576
  /\ exists s' evs,
      loop_body env0 s = (Continue, s')
      /\ trace s' = trace s ++ evs
      /\ sock_in s' = []
      /\ queued evs
         = [(payload, Z.of_nat (length payload),
             if Z.odd (byte.unsigned Byte.x01) then 2 else 0)]
      /\ sent evs = [ack_bytes 1].
Proof.
  assert (H1 : 0 <= 1 < 2 ^ 32) by (split; [discriminate | reflexivity]).
  assert (H2 : Z.of_nat (length [Byte.xaa; Byte.xbb; Byte.xcc; Byte.xdd])
               < 2 ^ 31) by reflexivity.
  assert (H3 : 0 <= env_input_idx env0) by discriminate.
  assert (H4 : Z.of_nat (length [Byte.xaa; Byte.xbb; Byte.xcc; Byte.xdd])
               <= 1048576) by discriminate.
  split; [exact H1 |]. split; [exact H2 |]. split; [exact H3 |].
  split; [exact H4 |].
  exact (frame_reaches_the_decoder_unchanged env0
           (started_state (frame_then Byte.x01 1
                             [Byte.xaa; Byte.xbb; Byte.xcc; Byte.xdd] []))
           Byte.x01 1 [Byte.xaa; Byte.xbb; Byte.xcc; Byte.xdd] [] 1 1048576
           eq_refl H1 H2 (or_intror eq_refl) eq_refl H3 eq_refl H4).
Defined.

Section StreamOfFrames.

Lemma receive_loop_frames fs : forall envs s c,
  length envs = length fs ->
  Forall frame_ok fs ->
  Forall (fun e => env_realloc_ok e = true) envs ->
  sock_in s = frames_stream fs ->
  g_codec (globals s) = Some c ->
  exists evs,
    trace (receive_loop (running envs) s) = trace s ++ evs
    /\ sock_in (receive_loop (running envs) s) = []
    /\ g_codec (globals (receive_loop (running envs) s)) = Some c
    /\ sent evs = map (fun f => ack_bytes (frame_seq f)) fs.
Proof.
  induction fs as [| [[flags seq] payload] more IH];
    intros envs s c Hlen Hok Hre Hs Hc;
    destruct envs as [| e envs]; try discriminate Hlen.
  - exists []. cbn. rewrite app_nil_r. auto.
  - cbn [running map receive_loop].
    inversion Hok as [| f fs' [Hseq Hpl] Hok']; subst.
    inversion Hre as [| e' es' Hre1 Hre']; subst.
    cbn [frames_stream] in Hs. cbn [frame_seq frame_payload fst snd] in *.
    destruct (loop_body_frame e s flags seq payload (frames_stream more) c
                Hs Hseq Hpl (or_intror Hre1) Hc)
      as (s1 & evs1 & E & T & I & C1 & _ & _ & _ & _ & S & _).
    rewrite E.
    destruct (IH envs s1 c ltac:(cbn [length] in Hlen; lia) Hok' Hre' I C1)
      as (evs2 & T2 & I2 & C2 & S2).
    exists (evs1 ++ evs2). fold (running envs).
    rewrite T2, T, I2, C2, sent_app, S, S2, <- app_assoc.
    cbn [map frame_seq fst snd app]. auto.
Qed.

Lemma receive_loop_frames_calls fs : forall envs s c,
  length envs = length fs ->
  Forall frame_ok fs ->
  Forall (fun e => env_realloc_ok e = true) envs ->
  sock_in s = frames_stream fs ->
  g_codec (globals s) = Some c ->
  0 <= frame_count (locals s) ->
  frame_count (locals s) + Z.of_nat (length fs) <= INT_MAX ->
  exists evs,
    trace (receive_loop (running envs) s) = trace s ++ evs
    /\ frame_count (locals (receive_loop (running envs) s))
       = frame_count (locals s) + Z.of_nat (length fs)
    /\ host_calls evs
       = match envs with
         | [] => []
         | e :: _ => connected_calls e s
         end.
Proof.
  induction fs as [| [[flags seq] payload] more IH];
    intros envs s c Hlen Hok Hre Hs Hc H0 Hmax;
    destruct envs as [| e envs]; try discriminate Hlen.
  - exists []. cbn. rewrite app_nil_r. split; [reflexivity |].
    split; [lia | reflexivity].
  - cbn [running map receive_loop].
    inversion Hok as [| f fs' [Hseq Hpl] Hok']; subst.
    inversion Hre as [| e' es' Hre1 Hre']; subst.
    cbn [frames_stream] in Hs. cbn [frame_seq frame_payload fst snd] in *.
    destruct (loop_body_frame e s flags seq payload (frames_stream more) c
                Hs Hseq Hpl (or_intror Hre1) Hc)
      as (s1 & evs1 & E & T & I & C1 & _ & _ & F & _ & _ & _ & H).
    rewrite E.
    cbn [length] in Hmax. rewrite Nat2Z.inj_succ in Hmax.
    rewrite to_int_in_range in F
      by (unfold INT_MIN, INT_MAX in *;
          change (2 ^ 31) with 2147483648 in *; lia).
    destruct (IH envs s1 c ltac:(cbn [length] in Hlen; lia) Hok' Hre' I C1
                ltac:(lia) ltac:(lia))
      as (evs2 & T2 & F2 & H2).
    exists (evs1 ++ evs2). fold (running envs).
    rewrite T2, T, F2, F, host_calls_app, H, H2, <- app_assoc.
    split; [reflexivity |]. split; [cbn [length]; lia |].
    assert (Hnone : match envs with
                    | [] => []
                    | e0 :: _ => connected_calls e0 s1
                    end = []).
    { destruct envs as [| e0 envs0]; [reflexivity |].
      unfold connected_calls. rewrite F.
      destruct (Z.eqb_spec (frame_count (locals s) + 1) 0); [lia |].
      reflexivity. }
    rewrite Hnone, app_nil_r. reflexivity.
Qed.

End StreamOfFrames.

(** X14: frames are acknowledged in the order received.  For a stream that
    consists of well-formed frames, received while a decoder is installed and
    [g_running] stays set, the receive loop takes one frame per iteration,
    leaves nothing of the stream, keeps the decoder, and the bytes it sends
    are exactly the acknowledgments of the frames' sequence numbers, in the
    order of the frames, whether or not a frame could be queued. *)
Theorem acks_follow_the_frames_in_order :
  forall (fs : list Frame) (envs : list Env) (s : State) (c : Codec),
    length envs = length fs ->
    Forall frame_ok fs ->
    Forall (fun e => env_realloc_ok e = true) envs ->
    sock_in s = frames_stream fs ->
    g_codec (globals s) = Some c ->
    exists evs,
      trace (receive_loop (running envs) s) = trace s ++ evs
      /\ sock_in (receive_loop (running envs) s) = []
      /\ g_codec (globals (receive_loop (running envs) s)) = Some c
      /\ sent evs = map (fun f => ack_bytes (frame_seq f)) fs.
Proof. intros. apply receive_loop_frames; assumption. Qed.

(** Three frames; for the second one no input slot comes free. *)
Lemma acks_follow_the_frames_in_order_witness :
  let fs := [(Byte.x01, 7, [Byte.xaa]); (Byte.x00, 8, []);
             (Byte.x00, 4294967295, [Byte.x11; Byte.x22])] in
  let busy := mkEnv (Starts 2) (Starts 3) true (-1) None [] true false in
  let envs := [env0; busy; env0] in
  length envs = length fs
  /\ Forall frame_ok fs
  /\ Forall (fun e => env_realloc_ok e = true) envs
  /\ exists evs,
      trace (receive_loop (running envs) (started_state (frames_stream fs)))
      = trace (started_state (frames_stream fs)) ++ evs
      /\ sock_in (receive_loop (running envs)
                    (started_state (frames_stream fs))) = []
      /\ g_codec (globals (receive_loop (running envs)
                             (started_state (frames_stream fs)))) = Some 1
      /\ sent evs = [ack_bytes 7; ack_bytes 8; ack_bytes 4294967295].
Proof.
  assert (Hok : Forall frame_ok
                  [(Byte.x01, 7, [Byte.xaa]); (Byte.x00, 8, []);
                   (Byte.x00, 4294967295, [Byte.x11; Byte.x22])]).
  { repeat constructor; cbn; try discriminate; reflexivity. }
  assert (Hre : Forall (fun e => env_realloc_ok e = true)
                  [env0;
                   mkEnv (Starts 2) (Starts 3) true (-1) None [] true false;
                   env0])
    by (repeat constructor).
  split; [reflexivity |]. split; [exact Hok |]. split; [exact Hre |].
  exact (acks_follow_the_frames_in_order
           [(Byte.x01, 7, [Byte.xaa]); (Byte.x00, 8, []);
            (Byte.x00, 4294967295, [Byte.x11; Byte.x22])]
           [env0; mkEnv (Starts 2) (Starts 3) true (-1) None [] true false;
            env0]
           (started_state
              (frames_stream
                 [(Byte.x01, 7, [Byte.xaa]); (Byte.x00, 8, []);
                  (Byte.x00, 4294967295, [Byte.x11; Byte.x22])]))
           1 eq_refl Hok Hre eq_refl eq_refl).
Defined.

(** X15: the host is told "connected" once per connection, with the first
    frame.  On a fresh connection (frame count 0) that carries a stream of
    well-formed frames, fewer than [2^31] of them, the only host call of the
    receive loop is [onConnectionState(1)], made once when the host activity
    is there and the method is found, however many frames follow; and the
    frame count ends at the number of frames. *)
Theorem connected_is_notified_once :
  forall (f : Frame) (fs : list Frame) (e : Env) (envs : list Env)
         (s : State) (c : Codec),
    length envs = length fs ->
    Forall frame_ok (f :: fs) ->
    Forall (fun e => env_realloc_ok e = true) (e :: envs) ->
    sock_in s = frames_stream (f :: fs) ->
    g_codec (globals s) = Some c ->
    frame_count (locals s) = 0 ->
    Z.of_nat (length (f :: fs)) <= INT_MAX ->
    exists evs,
      trace (receive_loop (running (e :: envs)) s) = trace s ++ evs
      /\ frame_count (locals (receive_loop (running (e :: envs)) s))
         = Z.of_nat (length (f :: fs))
      /\ host_calls evs
         = if g_activity (globals s) && env_method_found e
           then [("onConnectionState", 1)]
           else [].
Proof.
  intros f fs e envs s c Hlen Hok Hre Hs Hc Hfc Hmax.
  destruct (receive_loop_frames_calls (f :: fs) (e :: envs) s c
              ltac:(cbn [length]; lia) Hok Hre Hs Hc
              ltac:(lia) ltac:(lia))
    as (evs & T & F & H).
  exists evs. split; [exact T |]. split; [rewrite F; lia |].
  rewrite H. unfold connected_calls. rewrite Hfc. reflexivity.
Qed.

Lemma connected_is_notified_once_witness :
  let f := (Byte.x01, 7, [Byte.xaa]) in
  let fs := [(Byte.x00, 8, []); (Byte.x00, 9, [Byte.x11; Byte.x22])] in
  let s := started_state (frames_stream (f :: fs)) in
  length [env0; env0] = length fs
  /\ Forall frame_ok (f :: fs)
  /\ Forall (fun e => env_realloc_ok e = true) [env0; env0; env0]
  /\ frame_count (locals s) = 0
  /\ Z.of_nat (length (f :: fs)) <= INT_MAX
  /\ exists evs,
      trace (receive_loop (running [env0; env0; env0]) s) = trace s ++ evs
      /\ frame_count (locals (receive_loop (running [env0; env0; env0]) s))
         = Z.of_nat (length (f :: fs))
      /\ host_calls evs
         = if g_activity (globals s) && env_method_found env0
           then [("onConnectionState", 1)]
           else [].
Proof.
  assert (Hok : Forall frame_ok
                  [(Byte.x01, 7, [Byte.xaa]); (Byte.x00, 8, []);
                   (Byte.x00, 9, [Byte.x11; Byte.x22])]).
  { repeat constructor; cbn; try discriminate; reflexivity. }
  assert (Hre : Forall (fun e => env_realloc_ok e = true) [env0; env0; env0])
    by (repeat constructor).
  assert (Hmax : Z.of_nat (length [(Byte.x01, 7, [Byte.xaa]);
                                   (Byte.x00, 8, @nil byte);
                                   (Byte.x00, 9, [Byte.x11; Byte.x22])])
                 <= INT_MAX) by discriminate.
  split; [reflexivity |]. split; [exact Hok |]. split; [exact Hre |].
  split; [reflexivity |]. split; [exact Hmax |].
  exact (connected_is_notified_once (Byte.x01, 7, [Byte.xaa])
           [(Byte.x00, 8, []); (Byte.x00, 9, [Byte.x11; Byte.x22])]
           env0 [env0; env0]
           (started_state
              (frames_stream
                 [(Byte.x01, 7, [Byte.xaa]); (Byte.x00, 8, []);
                  (Byte.x00, 9, [Byte.x11; Byte.x22])]))
           1 eq_refl Hok Hre eq_refl eq_refl eq_refl Hmax).
Defined.

(** ** Progress of the receive loop *)

Section Progress.

(** The state whose stream is measured. *)
Variable s0 : State.

(** What the loop guarantees when it goes on. *)
Let C : State -> Prop := eaten s0 4.

Lemma eaten_weaken k k' s : (k' <= k)%nat -> eaten s0 k s -> eaten s0 k' s.
Proof. intros Hk (pre & E & Hl). exists pre. split; [exact E | lia]. Qed.

Lemma eaten_same_stream k s s' :
  sock_in s' = sock_in s -> eaten s0 k s -> eaten s0 k s'.
Proof. intros Hs (pre & E & Hl). exists pre. rewrite Hs. auto. Qed.

Lemma read_exact_suffix n s :
  exists pre,
    sock_in s = pre ++ sock_in (snd (read_exact n s))
    /\ (fst (fst (read_exact n s)) = true -> 0 < n ->
        length pre = Z.to_nat n).
Proof.
  unfold read_exact. destruct (Z.leb_spec n 0).
  - exists []. split; [reflexivity | lia].
  - destruct (take (Z.to_nat n) (sock_in s)) as [[bs rest] |] eqn:E.
    + destruct (take_some _ _ _ _ E) as [Hs Hl].
      exists bs. cbn. auto.
    + exists (sock_in s). cbn. rewrite app_nil_r.
      split; [reflexivity | discriminate].
Qed.

Lemma eaten_read_exact k n s :
  eaten s0 k s -> eaten s0 k (snd (read_exact n s)).
Proof.
  intros (pre & E & Hl).
  destruct (read_exact_suffix n s) as (pre' & E' & _).
  exists (pre ++ pre'). rewrite E, E', app_assoc, length_app.
  split; [reflexivity | lia].
Qed.

Lemma triple_bind_eaten {A B} k k' (m : Loop A) (f : A -> Loop B) R :
  triple (eaten s0 k) m (fun _ => eaten s0 k') C ->
  (forall a, triple (eaten s0 k') (f a) R C) ->
  triple (eaten s0 k) (bind m f) R C.
Proof.
  intros Hm Hf s Hs. unfold bind. specialize (Hm s Hs).
  destruct (m s) as [[[] | a] s1]; [exact Hm | exact Logic.I |].
  apply (Hf a s1 Hm).
Qed.

Lemma triple_read k n msg :
  0 < n ->
  triple (eaten s0 k) (read_or_break n msg)
    (fun _ => eaten s0 (k + Z.to_nat n)) C.
Proof.
  intros Hn s (pre & E & Hl). unfold read_or_break.
  destruct (read_exact_suffix n s) as (pre' & E' & Hlen).
  destruct (read_exact n s) as [[[] bs] s1]; cbn [fst snd] in *;
    [| exact Logic.I].
  exists (pre ++ pre'). rewrite E, E', app_assoc, length_app.
  split; [reflexivity |]. rewrite Hlen by auto. lia.
Qed.

Lemma triple_ret_eaten {A} k k' (a : A) :
  (k' <= k)%nat -> triple (eaten s0 k) (ret a) (fun _ => eaten s0 k') C.
Proof. intros Hk s Hs. apply (eaten_weaken k); assumption. Qed.

Lemma triple_get_eaten k k' :
  (k' <= k)%nat -> triple (eaten s0 k) get (fun _ => eaten s0 k') C.
Proof. intros Hk s Hs. apply (eaten_weaken k); assumption. Qed.

Lemma triple_break {A} P (Q : A -> State -> Prop) :
  triple P (exit_with Break) Q C.
Proof. intros s _. exact Logic.I. Qed.

Lemma triple_continue {A} k (Q : A -> State -> Prop) :
  (4 <= k)%nat -> triple (eaten s0 k) (exit_with Continue) Q C.
Proof. intros Hk s Hs. apply (eaten_weaken k); assumption. Qed.

Lemma triple_act_eaten k k' f :
  (forall s, sock_in (f s) = sock_in s) -> (k' <= k)%nat ->
  triple (eaten s0 k) (act f) (fun _ => eaten s0 k') C.
Proof.
  intros Hf Hk s Hs. apply (eaten_weaken k); [exact Hk |].
  apply (eaten_same_stream k s); [apply Hf | exact Hs].
Qed.

Lemma triple_call_eaten {A} k k' (f : State -> A * State) :
  (forall s, sock_in (snd (f s)) = sock_in s) -> (k' <= k)%nat ->
  triple (eaten s0 k) (call f) (fun _ => eaten s0 k') C.
Proof.
  intros Hf Hk s Hs. unfold call. specialize (Hf s).
  destruct (f s) as [a s1]. cbn [snd] in Hf.
  apply (eaten_weaken k); [exact Hk |].
  apply (eaten_same_stream k s); assumption.
Qed.

Lemma triple_read_payload k k' len :
  (k' <= k)%nat ->
  triple (eaten s0 k) (read_payload len) (fun _ => eaten s0 k') C.
Proof.
  intros Hk s Hs. unfold read_payload.
  pose proof (eaten_read_exact k (to_int len) s Hs) as H.
  destruct (read_exact (to_int len) s) as [[[] bs] s1]; cbn [snd] in H;
    [| exact Logic.I].
  apply (eaten_weaken k); [exact Hk |].
  apply (eaten_same_stream k s1); [reflexivity | exact H].
Qed.

Lemma sock_in_notify mf b s :
  sock_in (notify_connection_state mf b s) = sock_in s.
Proof.
  destruct (notify_connection_state_spec mf b s) as (evs & -> & _).
  reflexivity.
Qed.

Lemma sock_in_update_stats e s : sock_in (update_stats e s) = sock_in s.
Proof. destruct (update_stats_spec e s) as (evs & _ & _ & H & _). exact H. Qed.

Lemma sock_in_feed_nal e data len is_idr seq s :
  sock_in (snd (feed_nal e data len is_idr seq s)) = sock_in s.
Proof.
  destruct (g_codec (globals s)) as [c |] eqn:E.
  - destruct (feed_nal_with_codec e data len is_idr seq s c E)
      as (evs & -> & _). reflexivity.
  - rewrite feed_nal_no_codec by exact E. reflexivity.
Qed.

Lemma sock_in_create_decoder a1 a2 w h s :
  sock_in (snd (create_decoder a1 a2 w h s)) = sock_in s.
Proof. apply (create_decoder_frame w h a1 a2 s). Qed.

(** Walks through a computation of the loop body, counting the bytes the
    exact reads consume. *)
Ltac eat :=
  unfold LOGE, LOGI;
  repeat match goal with
    | |- triple (eaten _ ?k) (bind (read_or_break ?n _) _) _ _ =>
        apply (triple_bind_eaten k (k + Z.to_nat n));
        [ apply triple_read; reflexivity | intros ? ]
    | |- triple (eaten _ ?k) (bind _ _) _ _ =>
        apply (triple_bind_eaten k k); [| intros ? ]
    | |- triple _ (if ?b then _ else _) _ _ => destruct b
    | |- triple _ (ret _) _ _ => apply triple_ret_eaten; lia
    | |- triple _ get _ _ => apply triple_get_eaten; lia
    | |- triple _ (exit_with Break) _ _ => apply triple_break
    | |- triple _ (exit_with Continue) _ _ => apply triple_continue; lia
    | |- triple _ (read_payload _) _ _ => apply triple_read_payload; lia
    | |- triple _ (act (notify_connection_state _ _)) _ _ =>
        apply triple_act_eaten; [intros ?; apply sock_in_notify | lia]
    | |- triple _ (act (update_stats _)) _ _ =>
        apply triple_act_eaten; [intros ?; apply sock_in_update_stats | lia]
    | |- triple _ (act _) _ _ =>
        apply triple_act_eaten; [intros ?; reflexivity | lia]
    | |- triple _ (call (create_decoder _ _ _ _)) _ _ =>
        apply triple_call_eaten;
        [intros ?; apply sock_in_create_decoder | lia]
    | |- triple _ (call (feed_nal _ _ _ _ _)) _ _ =>
        apply triple_call_eaten; [intros ?; apply sock_in_feed_nal | lia]
    end.

Lemma read_video_frame_eats e k :
  triple (eaten s0 k) (read_video_frame e) (fun _ => eaten s0 (k + 9)) C.
Proof.
  unfold read_video_frame.
  apply (triple_bind_eaten k (k + 9)); [| intros h].
  - unfold read_frame_header.
    apply (triple_bind_eaten k (k + Z.to_nat 9));
      [apply triple_read; reflexivity | intros frame_hdr].
    apply triple_ret_eaten. lia.
  - unfold receive_payload, grow_nal_buf. eat.
Qed.

Lemma loop_body_m_eats e :
  triple (eaten s0 0) (loop_body_m e) (fun _ => eaten s0 4) C.
Proof.
  unfold loop_body_m.
  apply (triple_bind_eaten 0 2); [apply (triple_read 0 2); reflexivity |].
  intros magic.
  destruct (negb (at_ magic 0 =? MAGIC_FRAME_0)); [eat |].
  destruct (at_ magic 1 =? MAGIC_CMD_1);
    [unfold resolution_command, value_command; eat |].
  destruct (negb (at_ magic 1 =? MAGIC_FRAME_1)); [eat |].
  apply (triple_bind_eaten 2 11); [apply (read_video_frame_eats e 2) |].
  intros h. unfold feed_frame. eat.
Qed.

End Progress.

(** X16: the receive loop cannot spin.  Whenever an iteration ends with the
    loop going on, it has consumed a prefix of at least four bytes of the
    stream (the shortest packet, a simple command, has four); so on a stream
    of [n] bytes the loop goes on at most [n / 4] times before it has to
    break on the end of the stream. *)
Theorem loop_body_consumes_a_packet :
  forall (e : Env) (s : State),
    fst (loop_body e s) = Continue ->
    exists pre,
      sock_in s = pre ++ sock_in (snd (loop_body e s))
      /\ (4 <= length pre)%nat.
Proof.
  intros e s H. unfold loop_body in *.
  assert (H0 : eaten s 0 s) by (exists []; split; [reflexivity | cbn; lia]).
  pose proof (loop_body_m_eats s e s H0) as Ht.
  destruct (loop_body_m e s) as [[[] | u] s']; cbn [fst snd] in *.
  - exact Ht.
  - discriminate H.
  - exact Ht.
Qed.

Lemma loop_body_consumes_a_packet_witness :
  let s := started_state (encode_command Byte.x01 Byte.x40 ++ [Byte.xda]) in
  fst (loop_body env0 s) = Continue
  /\ exists pre,
      sock_in s = pre ++ sock_in (snd (loop_body env0 s))
      /\ (4 <= length pre)%nat.
Proof.
  split; [reflexivity |].
  exact (loop_body_consumes_a_packet env0
           (started_state (encode_command Byte.x01 Byte.x40 ++ [Byte.xda]))
           eq_refl).
Defined.

(** * mirror_xor.c *)

Section MirrorXor.

Lemma byte_xor_unsigned x y :
  byte.unsigned (byte.xor x y)
  = Z.lxor (byte.unsigned x) (byte.unsigned y).
Proof.
  unfold byte.xor. rewrite byte.unsigned_of_Z. unfold byte.wrap.
  pose proof (byte.unsigned_range x) as Hx.
  pose proof (byte.unsigned_range y) as Hy.
  apply Z.mod_small.
  split; [apply Z.lxor_nonneg; lia |].
  destruct (Z.eq_dec (Z.lxor (byte.unsigned x) (byte.unsigned y)) 0)
    as [-> | Hnz]; [reflexivity |].
  apply Z.log2_lt_cancel. rewrite Z.log2_pow2 by lia.
  eapply Z.le_lt_trans; [apply Z.log2_lxor; lia |].
  apply Z.max_lub_lt.
  - destruct (Z.eq_dec (byte.unsigned x) 0) as [-> | ?]; [reflexivity |].
    apply Z.log2_lt_pow2; lia.
  - destruct (Z.eq_dec (byte.unsigned y) 0) as [-> | ?]; [reflexivity |].
    apply Z.log2_lt_pow2; lia.
Qed.

Lemma byte_xor_cancel x y : byte.xor (byte.xor x y) y = x.
Proof.
  apply byte.unsigned_inj. rewrite !byte_xor_unsigned.
  rewrite Z.lxor_assoc, Z.lxor_nilpotent, Z.lxor_0_r. reflexivity.
Qed.

Lemma byte_xor_comm x y : byte.xor x y = byte.xor y x.
Proof.
  apply byte.unsigned_inj. rewrite !byte_xor_unsigned. apply Z.lxor_comm.
Qed.

Lemma byte_xor_self x : byte.xor x x = Byte.x00.
Proof.
  apply byte.unsigned_inj. rewrite byte_xor_unsigned, Z.lxor_nilpotent.
  reflexivity.
Qed.

Variables dst a b : Z.

(** Outside of the bytes it writes the loop changes nothing. *)
Lemma mirror_xor_from_outside count : forall i m q,
  (q < dst + i \/ dst + i + Z.of_nat count <= q) ->
  mirror_xor_from i count dst a b m q = m q.
Proof.
  induction count as [| k IH]; intros i m q Hq; cbn [mirror_xor_from];
    [reflexivity |].
  rewrite IH by lia. unfold store.
  destruct (Z.eqb_spec q (dst + i)); [lia | reflexivity].
Qed.

Lemma mirror_xor_from_inside count : forall i m j,
  ~ (0 < dst - a < i + Z.of_nat count) ->
  ~ (0 < dst - b < i + Z.of_nat count) ->
  0 <= i -> i <= j < i + Z.of_nat count ->
  mirror_xor_from i count dst a b m (dst + j)
  = byte.xor (mirror_xor_from i 0 dst a b m (a + j))
             (mirror_xor_from i 0 dst a b m (b + j)).
Proof.
  induction count as [| k IH]; intros i m j Ha Hb Hi Hj;
    [cbn in Hj; lia |].
  cbn [mirror_xor_from].
  destruct (Z.eq_dec j i) as [-> | Hne].
  - rewrite mirror_xor_from_outside by lia.
    unfold store. rewrite Z.eqb_refl. reflexivity.
  - rewrite IH by lia. cbn [mirror_xor_from]. unfold store.
    destruct (Z.eqb_spec (a + j) (dst + i)); [lia |].
    destruct (Z.eqb_spec (b + j) (dst + i)); [lia |].
    reflexivity.
Qed.

End MirrorXor.

(** X17: [mirror_xor] writes exactly the [n] bytes at [dst]: every byte
    outside of them is left as it was, and when no byte written is read
    again by a later iteration (the destination is disjoint from the sources,
    or is one of them, or starts before them) byte [j] of the destination is
    the exclusive or of byte [j] of the two sources as they were before the
    call. *)
Theorem mirror_xor_is_the_bytewise_xor :
  forall (dst a b n : Z) (m : Mem),
    0 <= n ->
    (forall q, q < dst \/ dst + n <= q -> mirror_xor dst a b n m q = m q)
    /\ (forward_safe dst a b n ->
        forall j, 0 <= j < n ->
          mirror_xor dst a b n m (dst + j)
          = byte.xor (m (a + j)) (m (b + j))).
Proof.
  intros dst a b n m Hn. unfold mirror_xor. split.
  - intros q Hq. apply mirror_xor_from_outside.
    rewrite Z2Nat.id by exact Hn. lia.
  - intros [Ha Hb] j Hj.
    rewrite mirror_xor_from_inside; rewrite ?Z2Nat.id by exact Hn;
      try lia.
    reflexivity.
Qed.

(** Two bytes, xored in place into the first source. *)
Lemma mirror_xor_is_the_bytewise_xor_witness :
  let m : Mem := fun q => if q =? 10 then Byte.x0f
                          else if q =? 11 then Byte.xf0
                          else if q =? 20 then Byte.xff
                          else Byte.x01 in
  0 <= 2 /\ forward_safe 10 10 20 2
  /\ mirror_xor 10 10 20 2 m (10 + 0) = Byte.xf0
  /\ mirror_xor 10 10 20 2 m (10 + 1) = Byte.xf1
  /\ mirror_xor 10 10 20 2 m 12 = Byte.x01.
Proof.
  assert (H0 : 0 <= 2) by discriminate.
  assert (Hs : forward_safe 10 10 20 2) by (split; cbn; lia).
  split; [exact H0 |]. split; [exact Hs |]. split; [| split].
  - exact (proj2 (mirror_xor_is_the_bytewise_xor 10 10 20 2 _ H0) Hs 0
             ltac:(lia)).
  - exact (proj2 (mirror_xor_is_the_bytewise_xor 10 10 20 2 _ H0) Hs 1
             ltac:(lia)).
  - exact (proj1 (mirror_xor_is_the_bytewise_xor 10 10 20 2 _ H0) 12
             ltac:(lia)).
Defined.

(** X18: xoring a region in place with the same key twice gives the region
    back: when the key region [b] does not overlap the region [a], two calls
    [mirror_xor(a, a, b, n)] leave the whole memory as it was. *)
Theorem mirror_xor_twice_restores :
  forall (a b n : Z) (m : Mem),
    0 <= n ->
    b + n <= a \/ a + n <= b ->
    forall q, mirror_xor a a b n (mirror_xor a a b n m) q = m q.
Proof.
  intros a b n m Hn Hdis q.
  assert (Hsafe : forward_safe a a b n) by (split; lia).
  destruct (Z_lt_le_dec q a) as [Hlo | Hge];
    [| destruct (Z_le_gt_dec (a + n) q) as [Hhi | Hin]].
  - unfold mirror_xor.
    rewrite !mirror_xor_from_outside by (rewrite ?Z2Nat.id by exact Hn; lia).
    reflexivity.
  - unfold mirror_xor.
    rewrite !mirror_xor_from_outside by (rewrite ?Z2Nat.id by exact Hn; lia).
    reflexivity.
  - replace q with (a + (q - a)) by lia.
    unfold mirror_xor.
    destruct Hsafe as [Ha Hb].
    rewrite mirror_xor_from_inside
      by (rewrite ?Z2Nat.id by exact Hn; lia).
    cbn [mirror_xor_from].
    rewrite mirror_xor_from_inside
      by (rewrite ?Z2Nat.id by exact Hn; lia).
    cbn [mirror_xor_from].
    rewrite (mirror_xor_from_outside a a b (Z.to_nat n) 0 m (b + (q - a)))
      by (rewrite ?Z2Nat.id by exact Hn; lia).
    apply byte_xor_cancel.
Qed.

Lemma mirror_xor_twice_restores_witness :
  let m : Mem := fun q => if q =? 10 then Byte.x0f else Byte.x5a in
  0 <= 3 /\ (20 + 3 <= 10 \/ 10 + 3 <= 20)
  /\ mirror_xor 10 10 20 3 (mirror_xor 10 10 20 3 m) 10 = Byte.x0f.
Proof.
  assert (H0 : 0 <= 3) by discriminate.
  assert (Hd : 20 + 3 <= 10 \/ 10 + 3 <= 20) by (right; discriminate).
  split; [exact H0 |]. split; [exact Hd |].
  exact (mirror_xor_twice_restores 10 20 3 _ H0 Hd 10).
Defined.

(** * destroy_decoder *)

(** X20: [destroy_decoder] stops and deletes the installed decoder and
    clears [g_codec]; without an installed decoder it does nothing, so a
    second call changes nothing.  When the decoder instances that exist are
    the installed one, none exists after it. *)
Theorem destroy_decoder_releases_and_is_idempotent :
  forall s : State,
    g_codec (globals (destroy_decoder s)) = None
    /\ destroy_decoder (destroy_decoder s) = destroy_decoder s
    /\ (g_codec (globals s) = None -> destroy_decoder s = s)
    /\ (forall c, g_codec (globals s) = Some c ->
        trace (destroy_decoder s) = trace s ++ [CodecStop c; CodecDelete c])
    /\ (no_leak s -> live_after [] (trace (destroy_decoder s)) = []).
Proof.
  intros s. unfold destroy_decoder.
  destruct (g_codec (globals s)) as [c |] eqn:E.
  - cbn [set_globals emit globals g_codec with_codec trace].
    repeat split; try reflexivity.
    + discriminate.
    + intros c0 Hc. inversion Hc; subst.
      rewrite <- app_assoc. reflexivity.
    + intros H. unfold no_leak, installed in H. rewrite E in H.
      rewrite <- app_assoc, live_after_app, H. cbn [app live_after].
      apply remove_codec_head.
  - rewrite E. repeat split; try reflexivity; try assumption.
    + discriminate.
    + intros H. unfold no_leak, installed in H. rewrite E in H. exact H.
Qed.

Lemma destroy_decoder_releases_and_is_idempotent_witness :
  g_codec (globals (started_state [])) = Some 1
  /\ no_leak (started_state [])
  /\ trace (destroy_decoder (started_state []))
     = trace (started_state []) ++ [CodecStop 1; CodecDelete 1]
  /\ live_after [] (trace (destroy_decoder (started_state []))) = [].
Proof.
  assert (H : no_leak (started_state [])) by reflexivity.
  split; [reflexivity |]. split; [exact H |]. split.
  - exact (proj1 (proj2 (proj2 (proj2
             (destroy_decoder_releases_and_is_idempotent (started_state [])))))
             1 eq_refl).
  - exact (proj2 (proj2 (proj2 (proj2
             (destroy_decoder_releases_and_is_idempotent (started_state [])))))
             H).
Defined.

(** * The recv loop of read_exact *)

Section RecvLoop.

Lemma take_prefix k : forall l1 l2,
  (k <= length l1)%nat ->
  take k (l1 ++ l2) = Some (firstn k l1, skipn k l1 ++ l2).
Proof.
  induction k as [| k IH]; intros l1 l2 Hk; [reflexivity |].
  destruct l1 as [| b l1]; [cbn in Hk; lia |].
  cbn [app take firstn skipn]. rewrite IH by (cbn in Hk; lia). reflexivity.
Qed.

Lemma take_past k : forall l1 l2,
  (length l1 <= k)%nat ->
  take k (l1 ++ l2)
  = match take (k - length l1) l2 with
    | Some (bs, rest) => Some (l1 ++ bs, rest)
    | None => None
    end.
Proof.
  induction k as [| k IH]; intros l1 l2 Hk.
  - destruct l1; [| cbn in Hk; lia]. cbn. destruct l2; reflexivity.
  - destruct l1 as [| b l1].
    + cbn [app length Nat.sub]. destruct (take (S k) l2) as [[bs rest] |];
        reflexivity.
    + cbn [app take length Nat.sub]. rewrite IH by (cbn in Hk; lia).
      destruct (take (k - length l1) l2) as [[bs rest] |]; reflexivity.
Qed.

Variable n : Z.

(** The loop from a total below [n]: it ends with [n] when the socket
    delivers the missing bytes before it ends, and with -1 otherwise; every
    byte it has met is in the buffer, in order. *)
Lemma read_exact_loop_spec arrivals : forall fuel buf total,
  (length arrivals + 2 <= fuel)%nat ->
  total < n ->
  match take (Z.to_nat (n - total)) (stream_of arrivals) with
  | Some (bs, rest) =>
      exists arrivals',
        read_exact_loop fuel arrivals buf total n
        = Some (n, buf ++ bs, arrivals')
        /\ stream_of arrivals' = rest
  | None =>
      exists arrivals',
        read_exact_loop fuel arrivals buf total n
        = Some (-1, buf ++ stream_of arrivals, arrivals')
  end.
Proof.
  induction arrivals as [| arrival more IH]; intros fuel buf total Hfuel Hlt.
  - destruct fuel as [| fuel]; [cbn in Hfuel; lia |].
    cbn [read_exact_loop recv stream_of].
    destruct (Z.ltb_spec total n); [| lia].
    destruct (Z.to_nat (n - total)) as [| k] eqn:Hk; [lia |].
    cbn. rewrite app_nil_r. eauto.
  - destruct fuel as [| fuel]; [cbn in Hfuel; lia |].
    cbn [length] in Hfuel.
    cbn [read_exact_loop]. destruct (Z.ltb_spec total n); [| lia].
    destruct arrival as [b bs | |]; cbn [recv stream_of].
    + (* a run of bytes *)
      destruct (Z.leb_spec (Z.of_nat (length (b :: bs))) (n - total))
        as [Hall | Hpart].
      * (* the whole run is taken *)
        destruct (Z.ltb_spec (Z.of_nat (length (b :: bs))) 0);
          [lia |]. cbn [andb].
        destruct (Z.leb_spec (Z.of_nat (length (b :: bs))) 0);
          [cbn [length] in *; lia |].
        rewrite take_past by lia.
        destruct (Z.eq_dec (total + Z.of_nat (length (b :: bs))) n)
          as [Hdone | Hmore].
        -- replace (Z.to_nat (n - total) - length (b :: bs))%nat with 0%nat
             by lia.
           cbn [take]. rewrite app_nil_r.
           destruct fuel as [| fuel]; [lia |].
           cbn [read_exact_loop].
           destruct (Z.ltb_spec (total + Z.of_nat (length (b :: bs))) n);
             [lia |].
           rewrite Hdone. eauto.
        -- specialize (IH fuel (buf ++ b :: bs)
                         (total + Z.of_nat (length (b :: bs)))
                         ltac:(lia) ltac:(lia)).
           replace (Z.to_nat (n - (total + Z.of_nat (length (b :: bs)))))
             with (Z.to_nat (n - total) - length (b :: bs))%nat in IH by lia.
           destruct (take (Z.to_nat (n - total) - length (b :: bs))
                       (stream_of more)) as [[bs' rest] |].
           ++ destruct IH as (arrivals' & E & Hs).
              exists arrivals'. rewrite E, <- app_assoc. auto.
           ++ destruct IH as (arrivals' & E).
              exists arrivals'. rewrite E, <- app_assoc. reflexivity.
      * (* only the bytes asked for are taken *)
        destruct (Z.ltb_spec (n - total) 0); [lia |]. cbn [andb].
        destruct (Z.leb_spec (n - total) 0); [lia |].
        rewrite take_prefix by lia.
        destruct fuel as [| fuel]; [lia |].
        cbn [read_exact_loop].
        destruct (Z.ltb_spec (total + (n - total)) n); [lia |].
        replace (total + (n - total)) with n by lia.
        eexists. split; [reflexivity |].
        destruct (skipn (Z.to_nat (n - total)) (b :: bs)) as [| b' bs'] eqn:Hsk.
        -- apply (f_equal (@length byte)) in Hsk.
           rewrite length_skipn in Hsk. cbn [length] in *. lia.
        -- reflexivity.
    + (* EINTR: the call is repeated *)
      cbn [Z.ltb Z.compare andb].
      apply IH; lia.
    + (* an error *)
      cbn [Z.ltb Z.compare andb Z.leb].
      destruct (Z.to_nat (n - total)) as [| k] eqn:Hk; [lia |].
      cbn [take]. rewrite app_nil_r. eauto.
Qed.

End RecvLoop.

(** X1: the loop of [read_exact] never succeeds short, whatever way [recv]
    hands the bytes over.  With runs of any length, interrupted calls
    ([EINTR], repeated) and errors on the socket, the loop ends (within one
    iteration per arrival, plus two), and it returns either -1 or exactly the
    [n] asked for (0 when [n <= 0]); it returns [n] exactly when the bytes
    that arrive before an error or the peer's close are at least [n], the
    buffer then holds the first [n] of them in order and the socket is left
    with the bytes behind them.  This is the stream-level [read_exact] the
    rest of the receiver is written with. *)
Theorem read_exact_loop_never_short :
  forall (arrivals : list Arrival) (n : Z) (fuel : nat) (s : State),
    (length arrivals + 2 <= fuel)%nat ->
    sock_in s = stream_of arrivals ->
    exists r bytes arrivals',
      read_exact_loop fuel arrivals [] 0 n = Some (r, bytes, arrivals')
      /\ (r = -1 \/ r = Z.max n 0)
      /\ (0 <= r <-> n <= Z.of_nat (length (stream_of arrivals)))
      /\ fst (read_exact n s) = (0 <=? r, bytes)
      /\ (0 <= r ->
          Z.of_nat (length bytes) = r
          /\ stream_of arrivals = bytes ++ stream_of arrivals'
          /\ sock_in (snd (read_exact n s)) = stream_of arrivals').
Proof.
  intros arrivals n fuel s Hfuel Hs.
  destruct (Z.le_gt_cases n 0) as [Hn | Hn].
  - (* nothing is asked for: the loop does not run *)
    destruct fuel as [| fuel]; [lia |].
    exists 0, [], arrivals. cbn [read_exact_loop].
    destruct (Z.ltb_spec 0 n); [lia |].
    unfold read_exact. destruct (Z.leb_spec n 0); [| lia].
    cbn [fst snd length].
    repeat split; try reflexivity; try lia; try exact Hs.
  - pose proof (read_exact_loop_spec n arrivals fuel [] 0 Hfuel Hn) as H.
    rewrite Z.sub_0_r in H.
    unfold read_exact. destruct (Z.leb_spec n 0); [lia |]. rewrite Hs.
    destruct (take (Z.to_nat n) (stream_of arrivals)) as [[bs rest] |] eqn:E.
    + destruct H as (arrivals' & El & Hrest).
      destruct (take_some _ _ _ _ E) as [Hsplit Hlen].
      exists n, bs, arrivals'. cbn [app] in El. rewrite El.
      cbn [fst snd set_sock_in sock_in].
      destruct (Z.leb_spec 0 n); [| lia].
      repeat split; try reflexivity; try lia.
      * intros _. rewrite Hsplit, length_app. lia.
      * rewrite Hrest. exact Hsplit.
      * symmetry. exact Hrest.
    + destruct H as (arrivals' & El).
      apply take_none in E.
      exists (-1), (stream_of arrivals), arrivals'. cbn [app] in El.
      rewrite El. cbn [fst snd].
      repeat split; try reflexivity; try lia.
Qed.

(** Five bytes are asked for; they arrive as two bytes, an interrupted call,
    and a run of four. *)
Lemma read_exact_loop_never_short_witness :
  let arrivals :=
    [Arrived Byte.x01 [Byte.x02]; Signal;
     Arrived Byte.x03 [Byte.x04; Byte.x05; Byte.x06]] in
  let s := state0 (stream_of arrivals) in
  (length arrivals + 2 <= 5)%nat
  /\ sock_in s = stream_of arrivals
  /\ read_exact_loop 5 arrivals [] 0 5
     = Some (5, [Byte.x01; Byte.x02; Byte.x03; Byte.x04; Byte.x05],
             [Arrived Byte.x06 []])
  /\ exists r bytes arrivals',
      read_exact_loop 5 arrivals [] 0 5 = Some (r, bytes, arrivals')
      /\ (r = -1 \/ r = Z.max 5 0)
      /\ (0 <= r <-> 5 <= Z.of_nat (length (stream_of arrivals)))
      /\ fst (read_exact 5 s) = (0 <=? r, bytes)
      /\ (0 <= r ->
          Z.of_nat (length bytes) = r
          /\ stream_of arrivals = bytes ++ stream_of arrivals'
          /\ sock_in (snd (read_exact 5 s)) = stream_of arrivals').
Proof.
  assert (H : (length [Arrived Byte.x01 [Byte.x02]; Signal;
                       Arrived Byte.x03 [Byte.x04; Byte.x05; Byte.x06]] + 2
               <= 5)%nat) by (cbn; lia).
  split; [exact H |]. split; [reflexivity |]. split; [reflexivity |].
  exact (read_exact_loop_never_short
           [Arrived Byte.x01 [Byte.x02]; Signal;
            Arrived Byte.x03 [Byte.x04; Byte.x05; Byte.x06]] 5 5
           (state0 (stream_of
                      [Arrived Byte.x01 [Byte.x02]; Signal;
                       Arrived Byte.x03 [Byte.x04; Byte.x05; Byte.x06]]))
           H eq_refl).
Defined.
